(** * onedrive-clone: the directory-to-store synchronizer (sync script)

    A shallow embedding of the two variants of the sync script and the
    properties of its key mapping, content-type resolution, argument
    parsing and bounded-concurrency uploader.

    The commented variant of the script is called variant [V1] below, the
    compact one (with the shebang line) variant [V2]. *)

From Stdlib Require Import ZArith Lia Bool Ascii String List.
From stdpp Require Import base list strings.

(* ===================================================================== *)
(** * Part I: the model *)
(* ===================================================================== *)

(** The two variants of the script. They differ in how the path is
    normalized and in how [limitConcurrency] is written. *)
Inductive variant := V1 | V2.

(** ** Strings

    A string is modelled as Rocq's [string], the sequence of its bytes:
    an ASCII character is one byte, a character beyond ASCII is the bytes
    of its UTF-8 encoding. The operations of the key mapping look only at
    the two ASCII characters [/] and [\]. *)

Module Str.

Definition is_slash (c : ascii) : bool := Ascii.eqb c "/".
Definition is_backslash (c : ascii) : bool := Ascii.eqb c "\".

(** [s.split(sep)] for a one-character separator: the pieces between the
    occurrences of [sep]; the empty string splits into one empty piece. *)
Fixpoint split (sep : ascii) (s : string) : list string :=
  match s with
  | EmptyString => [EmptyString]
  | String c r =>
      if Ascii.eqb c sep then EmptyString :: split sep r
      else match split sep r with
           | h :: t => String c h :: t
           | [] => [String c EmptyString]
           end
  end.

(** [pieces.join(sep)] *)
Fixpoint join (sep : string) (pieces : list string) : string :=
  match pieces with
  | [] => EmptyString
  | [p] => p
  | p :: rest => p +:+ sep +:+ join sep rest
  end.

(** [s.replace(/\\/g, '/')]: every match of the one-character pattern is
    replaced. *)
Fixpoint replace_backslash (s : string) : string :=
  match s with
  | EmptyString => EmptyString
  | String c r => String (if is_backslash c then "/"%char else c) (replace_backslash r)
  end.

(** The pattern [/(^\/+)|(\/+?$)/g] has two alternatives, neither of which
    matches the empty string.

    [^\/+] can only match at index 0 (there is no [m] flag); being greedy
    and followed by nothing, it takes the whole leading run of slashes.
    It is the first alternative, so at index 0 it wins whenever the
    string starts with a slash. [skip_slashes] is the input after that
    match. *)
Fixpoint skip_slashes (s : string) : string :=
  match s with
  | EmptyString => EmptyString
  | String c r => if is_slash c then skip_slashes r else s
  end.

(** [\/+?$] matches at an index exactly when a non-empty run of slashes
    starts there and reaches the end of the input: the lazy [+?] is
    extended one slash at a time until [$] holds. *)
Fixpoint only_slashes (s : string) : bool :=
  match s with
  | EmptyString => true
  | String c r => is_slash c && only_slashes r
  end.

Definition matches_trailing (s : string) : bool :=
  match s with
  | EmptyString => false
  | String _ _ => only_slashes s
  end.

(** The scan of a global replace from an index greater than 0: at each
    index try the second alternative; on a match drop the matched text
    (which is the rest of the input), otherwise copy one character. *)
Fixpoint replace_trailing (s : string) : string :=
  match s with
  | EmptyString => EmptyString
  | String c r => if matches_trailing s then EmptyString else String c (replace_trailing r)
  end.

(** [s.replace(/(^\/+)|(\/+?$)/g, '')] *)
Definition replace_edge_slashes (s : string) : string :=
  replace_trailing (skip_slashes s).

Definition starts_with_slash (s : string) : bool :=
  match s with
  | String c _ => is_slash c
  | EmptyString => false
  end.

Fixpoint ends_with_slash (s : string) : bool :=
  match s with
  | EmptyString => false
  | String c EmptyString => is_slash c
  | String _ r => ends_with_slash r
  end.

(** The two-character text ["//"] occurs in [s] at index [n]. *)
Definition doubled_slash_at (n : nat) (s : string) : bool :=
  match String.get n s, String.get (S n) s with
  | Some a, Some b => is_slash a && is_slash b
  | _, _ => false
  end.

End Str.

(** ** Key Mapper

    The key computed by the upload callback of [main]. A JavaScript string
    is truthy exactly when it is not empty. *)

Module KeyMapper.

Definition truthy (s : string) : bool :=
  match s with EmptyString => false | String _ _ => true end.

(** [`${prefix.replace(/(^\/+)|(\/+?$)/g, '')}/`], or [''] *)
Definition prefix_part (prefix : string) : string :=
  if truthy prefix then Str.replace_edge_slashes prefix +:+ "/" else "".

(** V1: [rel.split('\\').join('/')]; V2: [rel.replace(/\\/g, '/')] *)
Definition path_part (v : variant) (rel : string) : string :=
  match v with
  | V1 => Str.join "/" (Str.split "\" rel)
  | V2 => Str.replace_backslash rel
  end.

Definition key (v : variant) (prefix rel : string) : string :=
  prefix_part prefix +:+ path_part v rel.

(** *** The Key Mapper in the words of the specification *)

Definition normalize_spec (relativePath : string) : string :=
  string_of_list_ascii
    (map (fun c => if Ascii.eqb c "\" then "/"%char else c)
         (list_ascii_of_string relativePath)).

Fixpoint strip_leading_spec (l : list ascii) : list ascii :=
  match l with
  | c :: r => if Ascii.eqb c "/" then strip_leading_spec r else l
  | [] => []
  end.

Definition trim_spec (prefix : string) : string :=
  string_of_list_ascii
    (rev (strip_leading_spec (rev (strip_leading_spec (list_ascii_of_string prefix))))).

Definition map_spec (relativePath prefix : string) : string :=
  if String.eqb prefix "" then normalize_spec relativePath
  else trim_spec prefix +:+ "/" +:+ normalize_spec relativePath.

(** A relative path does not start with a separator. *)
Definition relative (p : string) : Prop :=
  match p with
  | String c _ => Str.is_slash c = false /\ Str.is_backslash c = false
  | EmptyString => True
  end.

End KeyMapper.

(** ** JavaScript values

    The concurrency limit is a Number produced by [parseInt]: NaN, an
    integer, the negative zero or an infinity; [parseInt] cannot produce a
    fraction. [Int 0] is the positive zero. *)

Module Js.

Inductive number := NaN | Int (z : Z) | NegZero | Inf (negative : bool).

(** The Number nearest to a positive integer [n], when that is finite:
    integers up to [2^53] are Numbers; above, 53 significant bits are
    kept and the rest is rounded to nearest, ties to the even
    significand. *)
Definition nearest (n : Z) : Z :=
  let e := (Z.log2 n - 52)%Z in
  if (e <=? 0)%Z then n
  else
    let q := Z.shiftr n e in
    let r := Z.land n (Z.ones e) in
    let half := Z.shiftl 1 (e - 1) in
    let q' := if (half <? r)%Z || ((r =? half)%Z && Z.odd q) then (q + 1)%Z else q in
    Z.shiftl q' e.

(** The Number for the integer [n >= 0] with a sign: what [parseInt]
    returns for the digits it has read. From [2^1024 - 2^970] on the
    nearest Number is an infinity. *)
Definition of_integer (negative : bool) (n : Z) : number :=
  if (n =? 0)%Z then (if negative then NegZero else Int 0)
  else if (n <? 2 ^ 53)%Z then Int (if negative then - n else n)
  else
    let m := nearest n in
    if (2 ^ 1024 <=? m)%Z then Inf negative
    else Int (if negative then - m else m).

(** [Math.min(limit, len)] for an array length [len] *)
Definition math_min (limit : number) (len : nat) : number :=
  match limit with
  | NaN => NaN
  | Int z => Int (Z.min z (Z.of_nat len))
  | NegZero => NegZero
  | Inf true => Inf true
  | Inf false => Int (Z.of_nat len)
  end.

(** [ToLength], which [Array.from] applies to the [length] property of an
    array-like: NaN and negative numbers become 0. (Its upper clamp,
    [2^53 - 1], cannot be reached by a minimum with an array length.) *)
Definition to_length (x : number) : nat :=
  match x with
  | NaN => 0
  | Int z => Z.to_nat z
  | NegZero => 0
  | Inf true => 0
  | Inf false => Z.to_nat (2 ^ 53 - 1)
  end.

(** [new Array(x)] throws a RangeError unless [x] is an array length;
    [None] stands for the throw. (A minimum with an array length is never
    above the largest array length.) *)
Definition new_array_length (x : number) : option nat :=
  match x with
  | NaN => None
  | Int z => if (0 <=? z)%Z then Some (Z.to_nat z) else None
  | NegZero => Some 0
  | Inf _ => None
  end.

(** An array is the list of its slots, [list (option R)]; [None] is a
    hole.

    [new Array(n)]: [n] holes *)
Definition new_array {R} (n : nat) : list (option R) := replicate n None.

(** [a[i] = r]: an assignment past the end extends the array with holes. *)
Definition set {R} (i : nat) (r : R) (a : list (option R)) : list (option R) :=
  if i <? length a then <[i := Some r]> a
  else a ++ replicate (i - length a) None ++ [Some r].

End Js.

(** ** The Bounded Uploader: [limitConcurrency(items, limit, worker)]

    A call [worker(x)] of an async function runs synchronously up to its
    first [await] (or to its end) and leaves a task: what it will still do
    each time it is resumed, and how its promise settles. The events are
    whatever the worker does to the outside (log lines, store requests). *)

Module Pool.

Section Pool.
Context {A R E Ev : Type}.

Inductive outcome (T : Type) :=
| Fulfilled (r : T)
| Rejected (e : E).
Arguments Fulfilled {T} r.
Arguments Rejected {T} e.

(** [Await evs k]: suspended at an [await]; when resumed the worker
    emits [evs] and goes on as [k]. [Settle o]: the worker's promise is
    settled with [o]; the runner that awaits it can resume. *)
Inductive task :=
| Settle (o : outcome R)
| Await (evs : list Ev) (k : task).

Fixpoint final (t : task) : outcome R :=
  match t with
  | Settle o => o
  | Await _ k => final k
  end.

Fixpoint task_events (t : task) : list Ev :=
  match t with
  | Settle _ => []
  | Await evs k => evs ++ task_events k
  end.

(** The number of resumptions left in a task, the one of the awaiting
    runner included. *)
Fixpoint task_steps (t : task) : nat :=
  match t with
  | Settle _ => 1
  | Await _ k => S (task_steps k)
  end.

(** A runner is one call of [run] (V1) or of the async arrow function
    (V2): suspended at [await worker(items[i])], returned, or thrown. *)
Inductive runner :=
| Awaiting (i : nat) (t : task)
| Finished
| Failed (e : E).

Definition is_finished (r : runner) : bool :=
  match r with Finished => true | _ => false end.

Definition is_awaiting (r : runner) : bool :=
  match r with Awaiting _ _ => true | _ => false end.

(** The state of one call of [limitConcurrency]. [claims] is a ghost
    log: the pairs (runner, index) in the order in which the worker was
    called. [rejection] is the reason of the first runner that threw,
    which is the reason [Promise.all] rejects with. *)
Record pool := Mk {
  results : list (option R);
  nextIndex : nat;
  runners : list runner;
  trace : list Ev;
  claims : list (nat * nat);
  rejection : option E
}.

Variable worker : A -> list Ev * task.
Variable items : list A.

Definition call_events (x : A) : list Ev :=
  fst (worker x) ++ task_events (snd (worker x)).

(** The call [worker(items[i])] by runner [k]. *)
Definition call (k i : nat) (x : A) (s : pool) : pool * runner :=
  (Mk (results s) (nextIndex s) (runners s)
      (trace s ++ fst (worker x)) (claims s ++ [(k, i)]) (rejection s),
   Awaiting i (snd (worker x))).

Definition bump (s : pool) : pool :=
  Mk (results s) (S (nextIndex s)) (runners s) (trace s) (claims s)
     (rejection s).

(** One pass of runner [k] from the head of its loop to its next
    suspension or to its end. It returns the runner's new state next to
    the pool.

    V1: [for (;;) { const i = nextIndex++; if (i >= items.length) break;
                    results[i] = await worker(items[i]); }]

    V2: [while (idx < items.length) { const current = idx++;
                    results[current] = await worker(items[current]); }]

    After the test against [items.length] the item exists: the [None]
    branch of the lookup is never taken. *)
Definition iterate (v : variant) (k : nat) (s : pool) : pool * runner :=
  match v with
  | V1 =>
      let i := nextIndex s in
      let s := bump s in
      if length items <=? i then (s, Finished)
      else match items !! i with
           | Some x => call k i x s
           | None => (s, Finished)
           end
  | V2 =>
      if nextIndex s <? length items then
        let current := nextIndex s in
        let s := bump s in
        match items !! current with
        | Some x => call k current x s
        | None => (s, Finished)
        end
      else (s, Finished)
  end.

Definition with_runners (rs : list runner) (s : pool) : pool :=
  Mk (results s) (nextIndex s) rs (trace s) (claims s) (rejection s).

(** Creating one more runner: the call runs at once, up to its first
    suspension, and its promise is appended to [runners]. *)
Definition spawn (v : variant) (s : pool) : pool :=
  let '(s', r) := iterate v (length (runners s)) s in
  with_runners (runners s' ++ [r]) s'.

(** V1: [new Array(items.length)]; V2: [[]] *)
Definition pool0 (v : variant) : pool :=
  Mk (match v with V1 => Js.new_array (length items) | V2 => [] end)
     0 [] [] [] None.

(** V1: [Array.from({ length: Math.min(limit, items.length) }, run)]
    V2: [new Array(Math.min(limit, items.length)).fill(null).map(...)]
    [None] is the RangeError of [new Array]. *)
Definition runner_count (v : variant) (limit : Js.number) : option nat :=
  match v with
  | V1 => Some (Js.to_length (Js.math_min limit (length items)))
  | V2 => Js.new_array_length (Js.math_min limit (length items))
  end.

(** The state in which [limitConcurrency] reaches
    [await Promise.all(runners)]. *)
Definition start (v : variant) (limit : Js.number) : option pool :=
  match runner_count v limit with
  | Some n => Some (Nat.iter n (spawn v) (pool0 v))
  | None => None
  end.

(** Resuming runner [k] once. A task that still awaits advances by one
    suspension. A fulfilled task hands its value to the runner, which
    stores it and goes round its loop. A rejected task makes the
    [await] of the runner throw: the runner's promise rejects. *)
Definition fire (v : variant) (k : nat) (s : pool) : option pool :=
  match runners s !! k with
  | Some (Awaiting i (Await evs t)) =>
      Some (Mk (results s) (nextIndex s) (<[k := Awaiting i t]> (runners s))
               (trace s ++ evs) (claims s) (rejection s))
  | Some (Awaiting i (Settle (Fulfilled r))) =>
      let s1 := Mk (Js.set i r (results s)) (nextIndex s) (runners s)
                   (trace s) (claims s) (rejection s) in
      let '(s2, r') := iterate v k s1 in
      Some (with_runners (<[k := r']> (runners s2)) s2)
  | Some (Awaiting i (Settle (Rejected e))) =>
      Some (Mk (results s) (nextIndex s) (<[k := Failed e]> (runners s))
               (trace s) (claims s)
               (match rejection s with Some e0 => Some e0 | None => Some e end))
  | _ => None
  end.

(** A schedule names the runner that is resumed at each step. *)
Fixpoint exec (v : variant) (sched : list nat) (s : pool) : option pool :=
  match sched with
  | [] => Some s
  | k :: rest =>
      match fire v k s with
      | Some s' => exec v rest s'
      | None => None
      end
  end.

(** How [await Promise.all(runners); return results] stands: rejected
    with the first reason, fulfilled with [results] once every runner
    has returned, or still pending. *)
Definition settled (s : pool) : option (outcome (list (option R))) :=
  match rejection s with
  | Some e => Some (Rejected e)
  | None =>
      if forallb is_finished (runners s) then Some (Fulfilled (results s))
      else None
  end.

Definition runner_events (r : runner) : list Ev :=
  match r with
  | Awaiting _ t => task_events t
  | _ => []
  end.

Definition runner_steps (r : runner) : nat :=
  match r with
  | Awaiting _ t => task_steps t
  | _ => 0
  end.

(** The events and the resumptions still to come from the tasks in
    flight. *)
Definition pending_events (rs : list runner) : list Ev :=
  flat_map runner_events rs.

Definition pending_steps (rs : list runner) : nat :=
  list_sum (map runner_steps rs).

(** The resumptions that a state still owes: those of the tasks in
    flight and those of the items not yet claimed. *)
Definition remaining (s : pool) : nat :=
  pending_steps (runners s)
  + list_sum (map (fun x => task_steps (snd (worker x)))
                  (drop (nextIndex s) items)).

Definition total_steps : nat :=
  list_sum (map (fun x => task_steps (snd (worker x))) items).

(** The value of the worker for an item, when its call fulfils. *)
Definition value_of (x : A) : option R :=
  match final (snd (worker x)) with
  | Fulfilled r => Some r
  | Rejected _ => None
  end.

Definition fulfils (x : A) : Prop := is_Some (value_of x).

(** *** The invariant

    [filled a i]: slot [i] of the array holds a value. *)
Definition filled (a : list (option R)) (i : nat) : Prop :=
  exists r, a !! i = Some (Some r).

(** The number of indices handed out so far. *)
Definition claimed (s : pool) : nat := nextIndex s `min` length items.

(** [inv v k0 s]: the facts that hold of every state of a pool. With
    [k0 = Some k], runner [k] is at the head of its loop, between two
    suspensions, and its entry in [runners] is not looked at. *)
Record inv (v : variant) (k0 : option nat) (s : pool) : Prop := {
  inv_claims : (claims s).*2 = seq 0 (claimed s);
  inv_await : forall k i t,
    Some k <> k0 -> runners s !! k = Some (Awaiting i t) ->
    ~ filled (results s) i /\ i < nextIndex s
    /\ exists x, items !! i = Some x /\ final t = final (snd (worker x));
  inv_distinct : forall k k' i t t',
    Some k <> k0 -> Some k' <> k0 ->
    runners s !! k = Some (Awaiting i t) ->
    runners s !! k' = Some (Awaiting i t') -> k = k';
  inv_filled : forall i r,
    results s !! i = Some (Some r) ->
    i < nextIndex s
    /\ exists x, items !! i = Some x /\ final (snd (worker x)) = Fulfilled r;
  inv_length :
    match v with
    | V1 => length (results s) = length items
    | V2 => length (results s) <= length items
    end;
  inv_finished : forall k,
    Some k <> k0 -> runners s !! k = Some Finished ->
    length items <= nextIndex s;
  inv_failed : forall k e,
    runners s !! k = Some (Failed e) ->
    is_Some (rejection s)
    /\ exists i x, i < nextIndex s /\ items !! i = Some x
                   /\ final (snd (worker x)) = Rejected e;
  inv_rejection : forall e,
    rejection s = Some e -> exists k, runners s !! k = Some (Failed e);
  inv_done : forall i,
    i < claimed s ->
    (exists k t, Some k <> k0 /\ runners s !! k = Some (Awaiting i t))
    \/ filled (results s) i
    \/ (exists k e x, runners s !! k = Some (Failed e)
                      /\ items !! i = Some x
                      /\ final (snd (worker x)) = Rejected e);
  inv_events :
    trace s ++ pending_events (runners s)
    ≡ₚ flat_map call_events (take (nextIndex s) items)
}.

(** The indices that runner [k] was handed, in order. *)
Definition claims_of (k : nat) (s : pool) : list nat :=
  (filter (fun c : nat * nat => c.1 = k) (claims s)).*2.

(** States of the two variants that correspond: all but the array and
    the cursor is equal, and the cursor of V2 is that of V1 cut off at
    the number of items (V1 goes on counting when runners find the
    queue exhausted). *)
Definition sim (s1 s2 : pool) : Prop :=
  runners s1 = runners s2 /\ trace s1 = trace s2 /\ claims s1 = claims s2
  /\ rejection s1 = rejection s2
  /\ nextIndex s2 = nextIndex s1 `min` length items.

End Pool.

Arguments outcome : clear implicits.
Arguments task : clear implicits.
Arguments runner : clear implicits.
Arguments pool : clear implicits.
Arguments Fulfilled {E T} r.
Arguments Rejected {E T} e.

End Pool.

(** ** Argument parsing: [parseArgs] *)

Module Args.

(** A string is given by its bytes, as the process receives its
    arguments: ASCII characters by their code, the others by their UTF-8
    encoding.

    The white space that [parseInt] skips: the white space and the line
    terminators of ECMAScript. U+00A0 is also accepted as the single code
    unit 160. *)
Definition bytes (codes : list nat) : string :=
  string_of_list_ascii (map ascii_of_nat codes).

Definition white_space : list string :=
  [ bytes [9]; bytes [10]; bytes [11]; bytes [12]; bytes [13]; bytes [32];
    bytes [194; 160];                    (* U+00A0 *)
    bytes [225; 154; 128];               (* U+1680 *)
    bytes [226; 128; 128]; bytes [226; 128; 129]; bytes [226; 128; 130];
    bytes [226; 128; 131]; bytes [226; 128; 132]; bytes [226; 128; 133];
    bytes [226; 128; 134]; bytes [226; 128; 135]; bytes [226; 128; 136];
    bytes [226; 128; 137]; bytes [226; 128; 138];   (* U+2000 .. U+200A *)
    bytes [226; 128; 168]; bytes [226; 128; 169];   (* U+2028, U+2029 *)
    bytes [226; 128; 175];               (* U+202F *)
    bytes [226; 129; 159];               (* U+205F *)
    bytes [227; 128; 128];               (* U+3000 *)
    bytes [239; 187; 191];               (* U+FEFF *)
    bytes [160] ].

(** [strip_prefix p s]: [s] without its prefix [p], when it has it. *)
Fixpoint strip_prefix (p s : string) : option string :=
  match p, s with
  | EmptyString, _ => Some s
  | String a p', String b s' => if Ascii.eqb a b then strip_prefix p' s' else None
  | String _ _, EmptyString => None
  end.

Fixpoint strip_any (ps : list string) (s : string) : option string :=
  match ps with
  | [] => None
  | p :: ps' =>
      match strip_prefix p s with
      | Some r => Some r
      | None => strip_any ps' s
      end
  end.

(** Skipping the leading white space; each round removes one white-space
    character, so as many rounds as [s] has bytes are enough. *)
Fixpoint skip_space_rounds (n : nat) (s : string) : string :=
  match n with
  | 0 => s
  | S n' =>
      match strip_any white_space s with
      | Some r => skip_space_rounds n' r
      | None => s
      end
  end.

Definition skip_space (s : string) : string :=
  skip_space_rounds (String.length s) s.

Definition digit (c : ascii) : option Z :=
  let n := nat_of_ascii c in
  if (48 <=? n) && (n <=? 57) then Some (Z.of_nat (n - 48)) else None.

(** The longest prefix of decimal digits, as a number; [acc] is [None]
    until a digit has been read. *)
Fixpoint digits (acc : option Z) (s : string) : option Z :=
  match s with
  | String c r =>
      match digit c with
      | Some d => digits (Some (10 * default 0%Z acc + d)%Z) r
      | None => acc
      end
  | EmptyString => acc
  end.

(** [parseInt(s, 10)]: white space, an optional sign, then digits, read
    as the Number nearest to the integer they denote; NaN when no digit
    follows. *)
Definition parseInt (s : string) : Js.number :=
  let s := skip_space s in
  let '(negative, s) :=
    match s with
    | String "-" r => (true, r)
    | String "+" r => (false, r)
    | _ => (false, s)
    end in
  match digits None s with
  | Some n => Js.of_integer negative n
  | None => Js.NaN
  end.

(** The object [out]. [dir] is [None] when it is [undefined]. *)
Record opts := Opts {
  dir : option string;
  prefix : string;
  dry : bool;
  concurrency : Js.number
}.

(** [{ dir: '', prefix: '', dry: false, concurrency: 5 }] *)
Definition defaults : opts := Opts (Some EmptyString) EmptyString false (Js.Int 5).

(** [x || d] for [x = args[++i]], which is [undefined] past the end *)
Definition or_else (x : option string) (d : string) : string :=
  match x with
  | Some (String c r) => String c r
  | _ => d
  end.

(** The loop over [args]: an option that takes a value consumes the next
    token, whatever it is. *)
Fixpoint parse (args : list string) (out : opts) : opts :=
  match args with
  | [] => out
  | a :: rest =>
      if String.eqb a "--dir" then
        match rest with
        | x :: rest' => parse rest' (Opts (Some x) (prefix out) (dry out) (concurrency out))
        | [] => Opts None (prefix out) (dry out) (concurrency out)
        end
      else if String.eqb a "--prefix" then
        match rest with
        | x :: rest' =>
            parse rest' (Opts (dir out) (or_else (Some x) "") (dry out) (concurrency out))
        | [] => Opts (dir out) (or_else None "") (dry out) (concurrency out)
        end
      else if String.eqb a "--dry" then
        parse rest (Opts (dir out) (prefix out) true (concurrency out))
      else if String.eqb a "--concurrency" then
        match rest with
        | x :: rest' =>
            parse rest' (Opts (dir out) (prefix out) (dry out)
                              (parseInt (or_else (Some x) "5")))
        | [] => Opts (dir out) (prefix out) (dry out) (parseInt (or_else None "5"))
        end
      else parse rest out
  end.

(** [!out.dir] *)
Definition no_dir (out : opts) : bool :=
  match dir out with
  | Some (String _ _) => false
  | _ => true
  end.

(** [parseArgs()]: [None] stands for the usage message followed by
    [process.exit(1)]. *)
Definition parseArgs (args : list string) : option opts :=
  let out := parse args defaults in
  if no_dir out then None else Some out.

End Args.

(** ** Content-Type Resolver: [mime.lookup(rel) || 'application/octet-stream']

    [mime.lookup] belongs to the mime-types package, which is not part of
    the repository: it is a parameter here. It returns the type that the
    package's static table gives for the extension of the path, or [false]
    ([None]) when the path has no extension or the table has no entry for
    it. *)

Module ContentType.

Definition octet_stream : string := "application/octet-stream".

Definition resolve (lookup : string -> option string) (rel : string) : string :=
  match lookup rel with
  | Some (String c r) => String c r
  | _ => octet_stream
  end.

End ContentType.

(** ** [mime.lookup]

    The table and the lookup belong to the mime-types package, which is
    not part of the repository; they are modelled after that package:
    [lookup(path)] takes [extname('x.' + path)], lower-cased and without
    its dot, and returns the table's entry for it, or [false] when the
    extension is empty or has no entry. *)

Module Mime.

Definition is_dot (c : ascii) : bool := Ascii.eqb c ".".

(** [path.extname] (POSIX) works from the end of the path; the three
    functions below take the characters of the path last first.
    [drop_slashes]: the trailing slashes are passed over. [segment]: the
    last segment ends at the first slash met then. [cut_dot]: the
    characters after the last dot of the segment, and those before it. *)
Fixpoint drop_slashes (l : list ascii) : list ascii :=
  match l with
  | c :: r => if Str.is_slash c then drop_slashes r else l
  | [] => []
  end.

Fixpoint segment (l : list ascii) : list ascii :=
  match l with
  | c :: r => if Str.is_slash c then [] else c :: segment r
  | [] => []
  end.

Fixpoint cut_dot (l : list ascii) : option (list ascii * list ascii) :=
  match l with
  | [] => None
  | c :: r =>
      if is_dot c then Some ([], r)
      else match cut_dot r with
           | Some (a, b) => Some (c :: a, b)
           | None => None
           end
  end.

(** The characters that come next make the segment end: there is none, or
    the first is a slash. *)
Definition stops (rest : list ascii) : Prop :=
  match rest with
  | [] => True
  | c :: _ => Str.is_slash c = true
  end.

(** The segment is [..]. *)
Definition is_dotdot (ext pre : list ascii) : bool :=
  match ext, pre with
  | [], [d] => is_dot d
  | _, _ => false
  end.

(** [path.extname(path)]: from the last dot of the last segment to its
    end; empty when the segment has no dot, when its only dot is its first
    character, and when it is [..]. *)
Definition extname (path : string) : string :=
  let base := segment (drop_slashes (rev (list_ascii_of_string path))) in
  match cut_dot base with
  | None => EmptyString
  | Some (ext, pre) =>
      match pre with
      | [] => EmptyString
      | _ :: _ =>
          if is_dotdot ext pre then EmptyString
          else string_of_list_ascii ("."%char :: rev ext)
      end
  end.

(** [s.toLowerCase()], as far as it bears on a table whose keys are
    ASCII: the ASCII capitals, and the Kelvin sign U+212A, the one
    character beyond ASCII whose lower case is an ASCII letter. *)
Definition to_lower_char (c : ascii) : ascii :=
  let n := nat_of_ascii c in
  if (65 <=? n) && (n <=? 90) then ascii_of_nat (n + 32) else c.

Fixpoint to_lower (s : string) : string :=
  match s with
  | EmptyString => EmptyString
  | String a t =>
      match t with
      | String b (String c r) =>
          if (nat_of_ascii a =? 226) && (nat_of_ascii b =? 132)
             && (nat_of_ascii c =? 170)
          then String "k" (to_lower r)
          else String (to_lower_char a) (to_lower t)
      | _ => String (to_lower_char a) (to_lower t)
      end
  end.

(** [extname('x.' + path).toLowerCase().substr(1)] *)
Definition extension (path : string) : string :=
  match to_lower (extname ("x." +:+ path)) with
  | String _ r => r
  | EmptyString => EmptyString
  end.

(** [mime.lookup(path)] over the table [types]; [None] is [false]. *)
Definition lookup (types : string -> option string) (path : string)
    : option string :=
  match extension path with
  | EmptyString => None
  | String c r => types (String c r)
  end.

(** Entries of the table that mime-types builds from mime-db, for a few
    extensions; the table has many more. *)
Definition excerpt (ext : string) : option string :=
  if String.eqb ext "jpg" then Some "image/jpeg"
  else if String.eqb ext "jpeg" then Some "image/jpeg"
  else if String.eqb ext "png" then Some "image/png"
  else if String.eqb ext "txt" then Some "text/plain"
  else if String.eqb ext "json" then Some "application/json"
  else if String.eqb ext "xyz" then Some "chemical/x-xyz"
  else None.

(** Neither a dot nor a slash occurs in [s]; no slash occurs in [s]. *)
Fixpoint plain (s : string) : bool :=
  match s with
  | EmptyString => true
  | String c r => negb (is_dot c) && negb (Str.is_slash c) && plain r
  end.

Fixpoint no_slash (s : string) : bool :=
  match s with
  | EmptyString => true
  | String c r => negb (Str.is_slash c) && no_slash r
  end.

End Mime.

(** ** The script: [main] *)

Module Sync.

(** What can be thrown: by [fs.readFileSync], by [s3.send], by
    [new Array], by the glob. *)
Inductive error :=
| ReadFailed (abs : string)
| SendFailed (key : string)
| InvalidArrayLength
| GlobFailed.

(** What the script does to the outside. *)
Inductive event :=
| ErrUsage                                       (* console.error('Usage: ...') *)
| ErrMissingEnv                                  (* console.error('Missing S3_BUCKET ...') *)
| LogNoFiles                                     (* 'No files found.' *)
| LogUploading (n : nat) (bucket prefix : string) (* `Uploading ${n} files to ...` *)
| LogDryPut (key : string) (bytes : nat)         (* `[dry] PUT ${key} (${n} bytes)` *)
| Put (bucket key : string) (body : list Byte.byte) (contentType : string)
                                                 (* s3.send(new PutObjectCommand(...)) *)
| LogPut (key : string)                          (* `PUT ${key}` *)
| LogDone                                        (* 'Done.' *)
| ErrCaught (e : error).                         (* console.error(e) in main().catch *)

(** The environment of one run. [glob absDir] is the result of
    [fg(['**/*'], { cwd: absDir, onlyFiles: true, dot: false })], [None]
    when its promise rejects. [readFileSync abs] is [None] when the call
    throws; it describes the file at the time its worker reads it, which
    may be after the glob has listed it. [put_ok key] tells whether the
    store accepts the object. *)
Record world := World {
  argv : list string;
  S3_BUCKET : option string;
  AWS_REGION : option string;
  cwd : string;
  path_resolve : string -> string -> string;
  path_join : string -> string -> string;
  glob : string -> option (list string);
  readFileSync : string -> option (list Byte.byte);
  put_ok : string -> bool;
  mime_lookup : string -> option string
}.

Abbreviation task := (Pool.task unit error event).
Abbreviation pool := (Pool.pool unit error event).

(** The async callback that [main] passes to [limitConcurrency]. The
    read, the key, the content type and the start of the request (or the
    dry-run line) happen in the call itself; the log line of a real
    upload comes after the request has been awaited. *)
Definition upload (v : variant) (w : world) (o : Args.opts)
    (bucket absDir rel : string) : list event * task :=
  let abs := path_join w absDir rel in
  match readFileSync w abs with
  | None => ([], Pool.Settle (Pool.Rejected (ReadFailed abs)))
  | Some data =>
      let key := KeyMapper.key v (Args.prefix o) rel in
      let contentType := ContentType.resolve (mime_lookup w) rel in
      if Args.dry o then
        ([LogDryPut key (length data)], Pool.Settle (Pool.Fulfilled tt))
      else
        ([Put bucket key data contentType],
         if put_ok w key
         then Pool.Await [LogPut key] (Pool.Settle (Pool.Fulfilled tt))
         else Pool.Await [] (Pool.Settle (Pool.Rejected (SendFailed key))))
  end.

(** [!x] for an environment variable *)
Definition unset (x : option string) : bool :=
  match x with
  | Some (String _ _) => false
  | _ => true
  end.

(** A run is over ([Exited code log]) or inside [limitConcurrency]
    ([Uploading ...], with what was logged before). *)
Inductive state :=
| Exited (code : nat) (log : list event)
| Uploading (o : Args.opts) (bucket absDir : string) (entries : list string)
            (log0 : list event) (p : pool).

(** [main] up to [await Promise.all(runners)]. *)
Definition main (v : variant) (w : world) : state :=
  match Args.parseArgs (argv w) with
  | None => Exited 1 [ErrUsage]
  | Some o =>
      if unset (S3_BUCKET w) || unset (AWS_REGION w) then Exited 1 [ErrMissingEnv]
      else
        let bucket := default EmptyString (S3_BUCKET w) in
        let absDir := path_resolve w (cwd w) (default EmptyString (Args.dir o)) in
        match glob w absDir with
        | None => Exited 1 [ErrCaught GlobFailed]
        | Some [] => Exited 0 [LogNoFiles]
        | Some entries =>
            let log0 := [LogUploading (length entries) bucket (Args.prefix o)] in
            match Pool.start (upload v w o bucket absDir) entries v
                             (Args.concurrency o) with
            | None => Exited 1 (log0 ++ [ErrCaught InvalidArrayLength])
            | Some p => Uploading o bucket absDir entries log0 p
            end
        end
  end.

(** What happens next: a runner is resumed, or the promise of
    [limitConcurrency] having settled, [main] ends: with ['Done.'] and
    exit status 0, or in the [catch] of [main()] with
    [process.exit(1)]. *)
Inductive action :=
| Resume (k : nat)
| Finish.

Definition step (v : variant) (w : world) (a : action) (st : state) : option state :=
  match st with
  | Exited _ _ => None
  | Uploading o bucket absDir entries log0 p =>
      match a with
      | Resume k =>
          match Pool.fire (upload v w o bucket absDir) entries v k p with
          | Some p' => Some (Uploading o bucket absDir entries log0 p')
          | None => None
          end
      | Finish =>
          match Pool.settled p with
          | Some (Pool.Fulfilled _) =>
              Some (Exited 0 (log0 ++ Pool.trace p ++ [LogDone]))
          | Some (Pool.Rejected e) =>
              Some (Exited 1 (log0 ++ Pool.trace p ++ [ErrCaught e]))
          | None => None
          end
      end
  end.

Fixpoint run (v : variant) (w : world) (acts : list action) (st : state)
    : option state :=
  match acts with
  | [] => Some st
  | a :: rest =>
      match step v w a st with
      | Some st' => run v w rest st'
      | None => None
      end
  end.

Definition log_of (st : state) : list event :=
  match st with
  | Exited _ log => log
  | Uploading _ _ _ _ log0 p => log0 ++ Pool.trace p
  end.

(** The file can be read when its worker gets to it. *)
Definition readable (w : world) (absDir rel : string) : Prop :=
  is_Some (readFileSync w (path_join w absDir rel)).

(** The line that a dry run logs for a file. *)
Definition dry_line (v : variant) (w : world) (o : Args.opts)
    (absDir rel : string) : event :=
  LogDryPut (KeyMapper.key v (Args.prefix o) rel)
            (length (default [] (readFileSync w (path_join w absDir rel)))).

(** The call of the upload callback on a file fails: the read throws or
    the store refuses the object. *)
Definition fails (v : variant) (w : world) (o : Args.opts)
    (bucket absDir rel : string) (e : error) : Prop :=
  Pool.final (snd (upload v w o bucket absDir rel)) = Pool.Rejected e.

(** A fatal error: no directory on the command line, an environment
    variable missing, the glob failing, or [new Array] refusing the
    length. *)
Definition fatal (v : variant) (w : world) : Prop :=
  match Args.parseArgs (argv w) with
  | None => True
  | Some o =>
      unset (S3_BUCKET w) || unset (AWS_REGION w) = true
      \/ match glob w (path_resolve w (cwd w) (default EmptyString (Args.dir o))) with
         | None => True
         | Some entries =>
             entries <> []
             /\ Pool.start (upload v w o (default EmptyString (S3_BUCKET w))
                              (path_resolve w (cwd w) (default EmptyString (Args.dir o))))
                            entries v (Args.concurrency o) = None
         end
  end.

Definition is_put (e : event) : bool :=
  match e with Put _ _ _ _ => true | _ => false end.

Definition is_dry_line (e : event) : bool :=
  match e with LogDryPut _ _ => true | _ => false end.

Definition is_put_line (e : event) : bool :=
  match e with LogPut _ => true | _ => false end.

End Sync.

(** ** Concrete runs used as examples *)

Module Examples.

(** A world with both environment variables set, in which the glob lists
    [entries], every listed file holds three bytes except the files named
    in [unreadable] (absolute paths), which cannot be read any more, and
    the store accepts every object. *)
Definition world_with (args entries unreadable : list string) : Sync.world :=
  Sync.World args (Some "bucket") (Some "eu-west-1") "/home/u"
    (fun cwd dir => cwd +:+ "/" +:+ dir)
    (fun absDir rel => absDir +:+ "/" +:+ rel)
    (fun _ => Some entries)
    (fun abs => if existsb (String.eqb abs) unreadable then None
                else Some [Byte.x61; Byte.x62; Byte.x63])
    (fun _ => true)
    (fun _ => None).

(** Scenario D: three files, one of them deleted after the enumeration. *)
Definition scenario_D : Sync.world :=
  world_with ["--dir"; "d"] ["a.txt"; "b.txt"; "c.txt"] ["/home/u/d/b.txt"].

(** The same files with one upload at a time, the first file deleted. *)
Definition first_deleted : Sync.world :=
  world_with ["--dir"; "d"; "--concurrency"; "1"] ["a.txt"; "b.txt"; "c.txt"]
             ["/home/u/d/a.txt"].

(** A dry run over the same files, one of them deleted. *)
Definition dry_deleted : Sync.world :=
  world_with ["--dir"; "d"; "--dry"] ["a.txt"; "b.txt"; "c.txt"]
             ["/home/u/d/b.txt"].

(** A dry run over three readable files. *)
Definition dry_ok : Sync.world :=
  world_with ["--dir"; "d"; "--dry"; "--prefix"; "backup/"]
             ["a.txt"; "sub\b.jpg"; "c.txt"] [].

(** A negative concurrency on the command line. *)
Definition negative_concurrency : Sync.world :=
  world_with ["--dir"; "d"; "--concurrency"; "-2"] ["a.txt"] [].

(** Concurrency 0 on the command line. *)
Definition zero_concurrency : Sync.world :=
  world_with ["--dir"; "d"; "--concurrency"; "0"] ["a.txt"] [].

(** A worker over numbers with one suspension per call: it fulfils with
    ten times its item, except for item 7, on which it rejects. *)
Definition times_ten (x : nat) : list string * Pool.task nat string string :=
  if x =? 7 then (["call"], Pool.Settle (Pool.Rejected "seven"))
  else (["call"], Pool.Await ["resumed"] (Pool.Settle (Pool.Fulfilled (10 * x)))).

Definition three_files : list string := ["a.txt"; "b.txt"; "c.txt"].

(** The options of [first_deleted] and the callback that its [main]
    passes to [limitConcurrency]. *)
Definition first_deleted_opts : Args.opts :=
  Args.Opts (Some "d") "" false (Js.Int 1).

Definition first_deleted_worker : string -> list Sync.event * Pool.task unit Sync.error Sync.event :=
  Sync.upload V1 first_deleted first_deleted_opts "bucket" "/home/u/d".

End Examples.

(** ** Notions used to state further properties of the script *)

Module More.

(** The character [c] occurs in [s]. *)
Fixpoint contains (c : ascii) (s : string) : bool :=
  match s with
  | EmptyString => false
  | String d r => Ascii.eqb d c || contains c r
  end.

(** The options of [parseArgs] that take a value. *)
Definition takes_value (a : string) : bool :=
  String.eqb a "--dir" || String.eqb a "--prefix" || String.eqb a "--concurrency".

(** [complete args]: read from a position where an option is expected,
    the tokens end where an option is expected again: no option that takes
    a value is the last token. *)
Fixpoint complete (args : list string) : bool :=
  match args with
  | [] => true
  | a :: rest =>
      if takes_value a then
        match rest with
        | _ :: rest' => complete rest'
        | [] => false
        end
      else complete rest
  end.

(** The decimal digit [d] as a character, a numeral as a string, and the
    number that a numeral denotes. *)
Definition digit_char (d : nat) : ascii := ascii_of_nat (48 + d).

Fixpoint numeral (ds : list nat) : string :=
  match ds with
  | [] => EmptyString
  | d :: r => String (digit_char d) (numeral r)
  end.

Definition numeral_value (ds : list nat) : Z :=
  fold_left (fun acc d => (10 * acc + Z.of_nat d)%Z) ds 0%Z.

(** The string does not go on with a digit. *)
Definition no_digit_ahead (s : string) : bool :=
  match s with
  | String c _ => match Args.digit c with Some _ => false | None => true end
  | EmptyString => true
  end.

(** The string begins with a white-space character; with a sign. *)
Definition begins_with_white (s : string) : bool :=
  match Args.strip_any Args.white_space s with
  | Some _ => true
  | None => false
  end.

Definition begins_with_sign (s : string) : bool :=
  match s with
  | String c _ => Ascii.eqb c "-" || Ascii.eqb c "+"
  | EmptyString => false
  end.

Definition join_all (l : list string) : string := fold_right append EmptyString l.

(** A string as [parseInt] reads it: white-space characters [ws], a sign
    [sign] (possibly none), the digits [ds] (possibly none), and the rest
    [tail], which does not go on with a digit; with neither sign nor digit
    the rest starts where the white space ends. *)
Definition numeral_text (ws : list string) (sign : string) (ds : list nat)
    (tail : string) : string :=
  join_all ws +:+ sign +:+ numeral ds +:+ tail.

Record reads (ws : list string) (sign : string) (ds : list nat)
    (tail : string) : Prop := {
  reads_ws : Forall (fun c => c ∈ Args.white_space) ws;
  reads_sign : sign = EmptyString \/ sign = "+" \/ sign = "-";
  reads_digits : Forall (fun d => d < 10) ds;
  reads_tail : no_digit_ahead tail = true;
  reads_place :
    sign = EmptyString -> ds = [] ->
    begins_with_white tail = false /\ begins_with_sign tail = false
}.

End More.

(** ** What a live run does for one file *)

Module Live.
Import Sync.

(** The request that the callback sends for [rel], and the line it logs
    once the store has accepted the object. *)
Definition put_of (v : variant) (w : world) (o : Args.opts)
    (bucket absDir rel : string) : event :=
  Put bucket (KeyMapper.key v (Args.prefix o) rel)
      (default [] (readFileSync w (path_join w absDir rel)))
      (ContentType.resolve (mime_lookup w) rel).

Definition put_line (v : variant) (o : Args.opts) (rel : string) : event :=
  LogPut (KeyMapper.key v (Args.prefix o) rel).

(** The file can be read when its worker gets to it and the store
    accepts its object. *)
Definition accepted (v : variant) (w : world) (o : Args.opts)
    (absDir rel : string) : Prop :=
  readable w absDir rel
  /\ put_ok w (KeyMapper.key v (Args.prefix o) rel) = true.

(** The requests and the success lines that a live run can owe to [rel]. *)
Definition puts (v : variant) (w : world) (o : Args.opts)
    (bucket absDir rel : string) : list event :=
  match readFileSync w (path_join w absDir rel) with
  | Some _ => [put_of v w o bucket absDir rel]
  | None => []
  end.

Definition put_lines (v : variant) (w : world) (o : Args.opts)
    (absDir rel : string) : list event :=
  match readFileSync w (path_join w absDir rel) with
  | Some _ =>
      if put_ok w (KeyMapper.key v (Args.prefix o) rel)
      then [put_line v o rel] else []
  | None => []
  end.

End Live.

Module MoreExamples.

(** A live run over two readable files with two uploads at a time. *)
Definition live_ok : Sync.world :=
  Examples.world_with ["--dir"; "d"; "--concurrency"; "2"] ["a.txt"; "b.txt"] [].

(** A concurrency that is not a number. *)
Definition nan_concurrency : Sync.world :=
  Examples.world_with ["--dir"; "d"; "--concurrency"; "many"] ["a.txt"] [].

End MoreExamples.

(** ** Counting the calls of a pool *)

Module Tally.

Definition count {X} (f : X -> bool) (l : list X) : nat :=
  length (List.filter f l).

Definition is_value {R} (x : option R) : bool :=
  match x with Some _ => true | None => false end.

Definition is_failed {R E Ev} (r : Pool.runner R E Ev) : bool :=
  match r with Pool.Failed _ => true | _ => false end.

(** The slots of the array that hold a value; the runners that await a
    call of the worker; the runners that have thrown. *)
Definition stored {R} (a : list (option R)) : nat := count is_value a.

Definition in_flight {R E Ev} (rs : list (Pool.runner R E Ev)) : nat :=
  count Pool.is_awaiting rs.

Definition thrown {R E Ev} (rs : list (Pool.runner R E Ev)) : nat :=
  count is_failed rs.

End Tally.

(** ** Comparing the two variants of the script *)

Module Agree.
Import Sync.

Definition exit_code (st : state) : option nat :=
  match st with
  | Exited code _ => Some code
  | Uploading _ _ _ _ _ _ => None
  end.

(** States of the two variants that correspond: the same exit, or the
    same upload with pools that correspond. *)
Definition alike (st1 st2 : state) : Prop :=
  match st1, st2 with
  | Exited c1 l1, Exited c2 l2 => c1 = c2 /\ l1 = l2
  | Uploading o1 b1 d1 e1 l1 p1, Uploading o2 b2 d2 e2 l2 p2 =>
      o1 = o2 /\ b1 = b2 /\ d1 = d2 /\ e1 = e2 /\ l1 = l2 /\ Pool.sim e1 p1 p2
  | _, _ => False
  end.

End Agree.

(* ===================================================================== *)
(** * Part II: properties *)
(* ===================================================================== *)

Module StrFacts.
Import Str.

Lemma split_nonempty sep s : split sep s <> [].
Proof.
  destruct s as [|c r]; simpl; [discriminate|].
  destruct (Ascii.eqb c sep); [discriminate|].
  destruct (split sep r); discriminate.
Qed.

Lemma append_assoc a b c : (a +:+ b) +:+ c = a +:+ b +:+ c.
Proof.
  induction a as [|x a IH]; [reflexivity|].
  change (String x ((a +:+ b) +:+ c) = String x (a +:+ b +:+ c)).
  now rewrite IH.
Qed.

Lemma join_cons_cons sep p q rest :
  join sep (p :: q :: rest) = p +:+ sep +:+ join sep (q :: rest).
Proof. reflexivity. Qed.

Lemma join_String sep c h t :
  join sep (String c h :: t) = String c (join sep (h :: t)).
Proof. destruct t; reflexivity. Qed.

(** Splitting on the backslash and joining with a slash is the global
    replacement of the backslash by the slash. *)
Lemma join_split_backslash s :
  join "/" (split "\" s) = replace_backslash s.
Proof.
  induction s as [|c r IH]; [reflexivity|].
  cbn [split replace_backslash]. unfold is_backslash.
  destruct (Ascii.eqb c "\") eqn:E.
  - pose proof (split_nonempty "\" r) as Hne.
    destruct (split "\" r) as [|h t] eqn:Hs; [contradiction|].
    rewrite join_cons_cons, IH. reflexivity.
  - pose proof (split_nonempty "\" r) as Hne.
    destruct (split "\" r) as [|h t] eqn:Hs; [contradiction|].
    rewrite join_String, IH. reflexivity.
Qed.

End StrFacts.

Module KeyMapperFacts.
Import Str StrFacts KeyMapper.

Lemma replace_backslash_spec s : replace_backslash s = normalize_spec s.
Proof.
  unfold normalize_spec.
  induction s as [|c r IH]; [reflexivity|].
  cbn. rewrite <- IH. reflexivity.
Qed.

Lemma path_part_spec v rel : path_part v rel = normalize_spec rel.
Proof.
  destruct v; cbn [path_part].
  - rewrite join_split_backslash. apply replace_backslash_spec.
  - apply replace_backslash_spec.
Qed.

Lemma skip_slashes_spec s :
  list_ascii_of_string (skip_slashes s)
  = strip_leading_spec (list_ascii_of_string s).
Proof.
  induction s as [|c r IH]; [reflexivity|].
  cbn. unfold is_slash. destruct (Ascii.eqb c "/"); [exact IH | reflexivity].
Qed.

Lemma only_slashes_forallb s :
  only_slashes s = forallb is_slash (list_ascii_of_string s).
Proof. induction s as [|c r IH]; [reflexivity|]. cbn. now rewrite IH. Qed.

Lemma strip_leading_spec_app a b :
  strip_leading_spec (a ++ b)
  = if forallb is_slash a then strip_leading_spec b
    else strip_leading_spec a ++ b.
Proof.
  induction a as [|c a IH]; [reflexivity|].
  cbn. unfold is_slash at 1. destruct (Ascii.eqb c "/"); cbn; [exact IH | reflexivity].
Qed.

Lemma forallb_rev {X} (f : X -> bool) l : forallb f (rev l) = forallb f l.
Proof.
  induction l as [|x l IH]; [reflexivity|].
  cbn. rewrite forallb_app, IH. cbn. rewrite andb_true_r. apply andb_comm.
Qed.

Lemma replace_trailing_spec s :
  list_ascii_of_string (replace_trailing s)
  = rev (strip_leading_spec (rev (list_ascii_of_string s))).
Proof.
  induction s as [|c r IH]; [reflexivity|].
  cbn [replace_trailing matches_trailing list_ascii_of_string rev].
  rewrite strip_leading_spec_app, forallb_rev, <- only_slashes_forallb.
  cbn [only_slashes]. unfold is_slash at 1.
  destruct (only_slashes r) eqn:Hr.
  - rewrite andb_true_r. cbn. unfold is_slash.
    destruct (Ascii.eqb c "/") eqn:Hc; cbn; [reflexivity|].
    f_equal. rewrite IH.
    assert (H : forallb is_slash (rev (list_ascii_of_string r)) = true)
      by now rewrite forallb_rev, <- only_slashes_forallb.
    clear -H. induction (rev (list_ascii_of_string r)) as [|x l IHl]; [reflexivity|].
    cbn in *. apply andb_prop in H as [Hx Hl]. unfold is_slash in Hx.
    rewrite Hx. auto.
  - rewrite andb_false_r. cbn. rewrite rev_app_distr. cbn. now rewrite IH.
Qed.

Lemma replace_edge_slashes_spec s : replace_edge_slashes s = trim_spec s.
Proof.
  unfold replace_edge_slashes, trim_spec.
  rewrite <- skip_slashes_spec, <- replace_trailing_spec.
  now rewrite string_of_list_ascii_of_string.
Qed.

Lemma truthy_eqb s : truthy s = negb (String.eqb s "").
Proof. destruct s; reflexivity. Qed.

End KeyMapperFacts.

Module KeyMapperJoin.
Import Str StrFacts KeyMapper KeyMapperFacts.

Lemma replace_trailing_empty s :
  replace_trailing s = "" <-> only_slashes s = true.
Proof.
  destruct s as [|c r]; cbn; [tauto|].
  destruct (is_slash c && only_slashes r); split; congruence.
Qed.

(** What the global replace leaves never ends with a slash. *)
Lemma replace_trailing_no_slash_end s :
  ends_with_slash (replace_trailing s) = false.
Proof.
  induction s as [|c r IH]; [reflexivity|].
  cbn [replace_trailing matches_trailing only_slashes].
  destruct (is_slash c) eqn:Hc; cbn [andb].
  - destruct (only_slashes r) eqn:Hr; [reflexivity|].
    cbn [ends_with_slash].
    destruct (replace_trailing r) eqn:Ht; [|exact IH].
    apply replace_trailing_empty in Ht. congruence.
  - cbn [ends_with_slash].
    destruct (replace_trailing r) eqn:Ht; [exact Hc | exact IH].
Qed.

Lemma skip_slashes_start s : starts_with_slash (skip_slashes s) = false.
Proof.
  induction s as [|c r IH]; [reflexivity|].
  cbn. destruct (is_slash c) eqn:Hc; [exact IH | exact Hc].
Qed.

Lemma skip_slashes_empty s :
  skip_slashes s = "" <-> only_slashes s = true.
Proof.
  induction s as [|c r IH]; cbn; [tauto|].
  destruct (is_slash c); cbn; [exact IH | split; congruence].
Qed.

Lemma replace_trailing_start s :
  starts_with_slash s = false -> starts_with_slash (replace_trailing s) = false.
Proof.
  destruct s as [|c r]; cbn; [reflexivity|].
  intros Hc. rewrite Hc. cbn. exact Hc.
Qed.

Lemma only_slashes_skip s : only_slashes (skip_slashes s) = only_slashes s.
Proof.
  induction s as [|c r IH]; [reflexivity|].
  cbn. destruct (is_slash c) eqn:Hc; cbn; [exact IH | now rewrite Hc].
Qed.

Lemma replace_edge_slashes_empty s :
  replace_edge_slashes s = "" <-> only_slashes s = true.
Proof.
  unfold replace_edge_slashes.
  rewrite replace_trailing_empty. now rewrite only_slashes_skip.
Qed.

Lemma replace_edge_slashes_start s :
  starts_with_slash (replace_edge_slashes s) = false.
Proof. apply replace_trailing_start, skip_slashes_start. Qed.

Lemma replace_edge_slashes_end s :
  ends_with_slash (replace_edge_slashes s) = false.
Proof. apply replace_trailing_no_slash_end. Qed.

Lemma starts_with_slash_app s t :
  starts_with_slash (s +:+ t)
  = match s with EmptyString => starts_with_slash t | _ => starts_with_slash s end.
Proof. destruct s; reflexivity. Qed.

(** The join: the text is [t], a slash, then [n]. *)
Lemma doubled_slash_after_join t n :
  doubled_slash_at (String.length t) (t +:+ "/" +:+ n) = starts_with_slash n.
Proof.
  induction t as [|c r IH].
  - cbn. destruct n; reflexivity.
  - exact IH.
Qed.

Lemma doubled_slash_before_join t n :
  t <> "" ->
  doubled_slash_at (String.length t - 1) (t +:+ "/" +:+ n) = ends_with_slash t.
Proof.
  induction t as [|c r IH]; [congruence|]. intros _.
  destruct r as [|d r'].
  - change (String c "" +:+ "/" +:+ n) with (String c (String "/" n)).
    unfold doubled_slash_at. cbn. destruct (is_slash c); reflexivity.
  - change (ends_with_slash (String c (String d r')))
      with (ends_with_slash (String d r')).
    rewrite <- IH by discriminate.
    change (String c (String d r') +:+ "/" +:+ n)
      with (String c (String d r' +:+ "/" +:+ n)).
    cbn [String.length]. rewrite !Nat.sub_succ, !Nat.sub_0_r.
    reflexivity.
Qed.

Lemma normalize_relative v P :
  relative P -> starts_with_slash (path_part v P) = false.
Proof.
  rewrite path_part_spec, <- replace_backslash_spec.
  destruct P as [|c r]; cbn; [reflexivity|].
  intros [Hs Hb]. now rewrite Hb.
Qed.

End KeyMapperJoin.

Import Str KeyMapper.

(** C3: the Key Mapper of either variant is the function the specification
    describes: backslashes of the relative path become slashes; a
    non-empty prefix is stripped of its leading and of its trailing slashes
    and joined to the path with one slash; an empty prefix leaves the
    normalized path alone. Being a function, it has a value for every pair
    of strings. Prefix [backup/] and path [sub\b.jpg] give
    [backup/sub/b.jpg]. *)
Theorem key_mapper_algorithm (v : variant) (relativePath prefix : string) :
  key v prefix relativePath = map_spec relativePath prefix
  /\ key v "backup/" "sub\b.jpg" = "backup/sub/b.jpg".
Proof.
  split.
  - unfold key, prefix_part, map_spec.
    rewrite KeyMapperFacts.path_part_spec, KeyMapperFacts.truthy_eqb.
    destruct (String.eqb prefix "") eqn:E; cbn [negb].
    + reflexivity.
    + rewrite KeyMapperFacts.replace_edge_slashes_spec.
      now rewrite StrFacts.append_assoc.
  - destruct v; reflexivity.
Qed.

(** C4, as stated, fails: with the prefix [/] the key of [a.txt] is
    [/a.txt], which begins with a slash. *)
Lemma key_may_begin_with_slash :
  relative "a.txt"
  /\ key V1 "/" "a.txt" = "/a.txt"
  /\ key V2 "/" "a.txt" = "/a.txt"
  /\ starts_with_slash (key V1 "/" "a.txt") = true.
Proof. repeat split. Qed.

(** C4, amended: for a relative path [P] (one that does not start with a
    separator) and any prefix [X], the key for the empty prefix is the
    normalized path; the key for a non-empty prefix is the stripped prefix,
    one slash and the normalized path, with no doubled slash on either side
    of the joining slash; and the key begins with a slash exactly when [X]
    is non-empty and made of slashes only. *)
Theorem key_mapper_join (v : variant) (P X : string) :
  relative P ->
  key v "" P = normalize_spec P
  /\ (X <> "" ->
      let t := replace_edge_slashes X in
      key v X P = t +:+ "/" +:+ normalize_spec P
      /\ doubled_slash_at (String.length t) (key v X P) = false
      /\ (t <> "" -> doubled_slash_at (String.length t - 1) (key v X P) = false))
  /\ starts_with_slash (key v X P) = truthy X && only_slashes X.
Proof.
  intros Hrel. split; [|split].
  - unfold key. cbn. apply KeyMapperFacts.path_part_spec.
  - intros HX t.
    assert (Hkey : key v X P = t +:+ "/" +:+ normalize_spec P).
    { unfold key, prefix_part. destruct X as [|c r]; [congruence|].
      cbn [truthy]. rewrite KeyMapperFacts.path_part_spec.
      now rewrite StrFacts.append_assoc. }
    split; [exact Hkey|]. rewrite Hkey. split.
    + rewrite KeyMapperJoin.doubled_slash_after_join.
      rewrite <- (KeyMapperFacts.path_part_spec v).
      now apply KeyMapperJoin.normalize_relative.
    + intros Ht. rewrite KeyMapperJoin.doubled_slash_before_join by exact Ht.
      apply KeyMapperJoin.replace_edge_slashes_end.
  - unfold key, prefix_part. destruct X as [|c r].
    + cbn [truthy andb String.append].
      now apply KeyMapperJoin.normalize_relative.
    + cbn [truthy andb]. rewrite StrFacts.append_assoc.
      rewrite KeyMapperJoin.starts_with_slash_app.
      destruct (replace_edge_slashes (String c r)) eqn:Ht.
      * apply KeyMapperJoin.replace_edge_slashes_empty in Ht. now rewrite Ht.
      * rewrite <- Ht, KeyMapperJoin.replace_edge_slashes_start.
        symmetry. apply not_true_is_false. intros Hos.
        apply KeyMapperJoin.replace_edge_slashes_empty in Hos. congruence.
Qed.

(** The join at work on the path and prefix of Scenario B. *)
Lemma key_mapper_join_witness :
  relative "sub\b.jpg"
  /\ starts_with_slash (key V1 "backup/" "sub\b.jpg") = false.
Proof.
  split; [cbn; auto|].
  exact (proj2 (proj2 (key_mapper_join V1 "sub\b.jpg" "backup/" (conj eq_refl eq_refl)))).
Defined.

Module JsFacts.

Lemma set_lookup {R} (i j : nat) (r r' : R) (a : list (option R)) :
  Js.set i r a !! j = Some (Some r')
  <-> (j = i /\ r' = r) \/ (j <> i /\ a !! j = Some (Some r')).
Proof.
  unfold Js.set. destruct (i <? length a) eqn:Hi.
  - apply Nat.ltb_lt in Hi. rewrite list_lookup_insert_Some.
    split; [intros [(-> & [= <-] & _)|[? ?]]; auto|].
    intros [[-> ->]|[? ?]]; [left|right]; auto.
  - apply Nat.ltb_ge in Hi.
    rewrite lookup_app_Some, lookup_app_Some, lookup_replicate,
      list_lookup_singleton_Some, length_replicate.
    split.
    + intros [H|[Hle [[? ?]|[Hle' [Hz ?]]]]].
      * right. split; [|done]. apply lookup_lt_Some in H. lia.
      * done.
      * left. split; [lia|congruence].
    + intros [[-> ->]|[Hne H]].
      * right. split; [done|]. right. split; [lia|]. split; [lia|done].
      * by left.
Qed.

Lemma set_length {R} (i : nat) (r : R) (a : list (option R)) :
  length (Js.set i r a) = length a `max` S i.
Proof.
  unfold Js.set. destruct (i <? length a) eqn:Hi.
  - apply Nat.ltb_lt in Hi. cbn. rewrite length_insert. lia.
  - apply Nat.ltb_ge in Hi. cbn.
    rewrite !length_app, length_replicate. simpl. lia.
Qed.

Lemma set_filled_mono {R} (i j : nat) (r : R) (a : list (option R)) :
  Pool.filled a j -> Pool.filled (Js.set i r a) j.
Proof.
  intros [r' Hr']. destruct (decide (j = i)) as [->|Hne].
  - exists r. apply set_lookup. by left.
  - exists r'. apply set_lookup. by right.
Qed.

End JsFacts.

Module PoolFacts.
Import Pool.

Section PoolFacts.
Context {A R E Ev : Type}.
Variable worker : A -> list Ev * task R E Ev.
Variable items : list A.

Local Abbreviation inv := (Pool.inv worker items).
Local Abbreviation iterate := (Pool.iterate worker items).
Local Abbreviation fire := (Pool.fire worker items).
Local Abbreviation exec := (Pool.exec worker items).
Local Abbreviation start := (Pool.start worker items).
Local Abbreviation spawn := (Pool.spawn worker items).
Local Abbreviation claimed := (Pool.claimed items).

Implicit Types (s : pool R E Ev) (rs : list (runner R E Ev)).

Lemma pending_events_insert rs k r0 r' :
rs !! k = Some r0 ->
pending_events (<[k := r']> rs) ++ runner_events r0
≡ₚ pending_events rs ++ runner_events r'.
Proof.
unfold pending_events. revert k.
induction rs as [|r rs IH]; intros [|k] Hk; simplify_eq/=.
- solve_Permutation.
- rewrite <- !app_assoc. rewrite (IH _ Hk). done.
Qed.

Lemma pending_events_snoc rs r' :
pending_events (rs ++ [r']) = pending_events rs ++ runner_events r'.
Proof. unfold pending_events. rewrite flat_map_app. simpl. by rewrite app_nil_r. Qed.

Lemma pending_steps_insert rs k r0 r' :
rs !! k = Some r0 ->
pending_steps (<[k := r']> rs) + runner_steps r0
= pending_steps rs + runner_steps r'.
Proof.
unfold pending_steps. revert k.
induction rs as [|r rs IH]; intros [|k] Hk; simplify_eq/=.
- lia.
- specialize (IH _ Hk). lia.
Qed.

Lemma pending_steps_snoc rs r' :
pending_steps (rs ++ [r']) = pending_steps rs + runner_steps r'.
Proof. unfold pending_steps. rewrite map_app, list_sum_app. simpl. lia. Qed.

Lemma iterate_cases v k s :
(exists x, items !! nextIndex s = Some x
           /\ iterate v k s = call worker k (nextIndex s) x (bump s))
\/ (length items <= nextIndex s
    /\ iterate v k s = (match v with V1 => bump s | V2 => s end, Finished)).
Proof.
unfold Pool.iterate. destruct v.
- destruct (length items <=? nextIndex s) eqn:Hle.
  + right. apply Nat.leb_le in Hle. done.
  + apply Nat.leb_gt in Hle.
    destruct (items !! nextIndex s) as [x|] eqn:Hx; [left; eauto|].
    apply lookup_ge_None in Hx. lia.
- destruct (nextIndex s <? length items) eqn:Hlt.
  + apply Nat.ltb_lt in Hlt.
    destruct (items !! nextIndex s) as [x|] eqn:Hx; [left; eauto|].
    apply lookup_ge_None in Hx. lia.
  + right. apply Nat.ltb_ge in Hlt. done.
Qed.

Lemma inv_pool0 v : inv v None (pool0 items v).
Proof.
split; cbn.
- done.
- intros k i t _ Hk. by rewrite lookup_nil in Hk.
- intros k k' i t t' _ _ Hk. by rewrite lookup_nil in Hk.
- intros i r Hi. destruct v.
  + unfold Js.new_array in Hi. apply lookup_replicate in Hi as [? _]. done.
  + by rewrite lookup_nil in Hi.
- destruct v; cbn; [unfold Js.new_array; by rewrite length_replicate | lia].
- intros k _ Hk. by rewrite lookup_nil in Hk.
- intros k e Hk. by rewrite lookup_nil in Hk.
- done.
- unfold Pool.claimed. cbn. lia.
- done.
Qed.


Lemma iterate_inv v k0 s s' r' rs' :
inv v (Some k0) s ->
(forall e, runners s !! k0 <> Some (Failed e)) ->
iterate v k0 s = (s', r') ->
rs' !! k0 = Some r' ->
(forall k, k <> k0 -> rs' !! k = runners s !! k) ->
pending_events rs' ≡ₚ pending_events (runners s) ++ runner_events r' ->
inv v None (with_runners rs' s').
Proof.
intros [Hc Ha Hd Hf Hl Hfin Hfail Hrej Hdone Hev] Hnf Hit Hk0 Hoth Hpe.
assert (Hne : forall k, k <> k0 -> Some k <> Some k0) by congruence.
destruct (iterate_cases v k0 s) as [(x & Hx & Heq)|(Hle & Heq)];
  rewrite Heq in Hit; injection Hit as <- <-.
- (* the runner claims index [nextIndex s] *)
  pose proof (lookup_lt_Some _ _ _ Hx) as Hlt.
  assert (Hcl : claimed s = nextIndex s) by (unfold Pool.claimed; lia).
  split; cbn -[seq Nat.min].
  + rewrite fmap_app, Hc, Hcl. unfold Pool.claimed. cbn -[seq Nat.min].
    replace (S (nextIndex s) `min` length items) with (S (nextIndex s)) by lia.
    rewrite seq_S. done.
  + intros k i t _ Hk. destruct (decide (k = k0)) as [->|Hkk].
    * rewrite Hk0 in Hk. injection Hk as <- <-.
      split; [|split; [lia|eauto]].
      intros [r Hr]. apply Hf in Hr as [? _]. lia.
    * rewrite Hoth in Hk by done.
      destruct (Ha k i t (Hne _ Hkk) Hk) as (? & ? & ?). split; [done|]. split; [lia|done].
  + intros k k' i t t' _ _ Hk Hk'.
    destruct (decide (k = k0)) as [->|Hkk], (decide (k' = k0)) as [->|Hkk']; [done| | |].
    * rewrite Hk0 in Hk. injection Hk as <- <-. rewrite Hoth in Hk' by done.
      destruct (Ha k' _ t' (Hne _ Hkk') Hk') as (? & ? & ?). lia.
    * rewrite Hk0 in Hk'. injection Hk' as <- <-. rewrite Hoth in Hk by done.
      destruct (Ha k _ t (Hne _ Hkk) Hk) as (? & ? & ?). lia.
    * rewrite Hoth in Hk, Hk' by done. eauto.
  + intros i r Hr. apply Hf in Hr as [? ?]. split; [lia|done].
  + done.
  + intros k _ Hk. destruct (decide (k = k0)) as [->|Hkk].
    * rewrite Hk0 in Hk. done.
    * rewrite Hoth in Hk by done. apply Hfin in Hk; [lia|auto].
  + intros k e Hk. destruct (decide (k = k0)) as [->|Hkk].
    * rewrite Hk0 in Hk. done.
    * rewrite Hoth in Hk by done. apply Hfail in Hk as (? & i & y & ? & ? & ?).
      split; [done|]. exists i, y. split; [lia|done].
  + intros e He. apply Hrej in He as [k Hk]. exists k.
    rewrite Hoth; [done|]. intros ->. by apply Hnf in Hk.
  + unfold Pool.claimed at 1. cbn -[Nat.min]. intros i Hi.
    destruct (decide (i = nextIndex s)) as [->|Hin].
    * left. exists k0, (snd (worker x)). done.
    * assert (Hi' : i < claimed s) by (rewrite Hcl; lia).
      destruct (Hdone i Hi') as [(k & t & Hkk & Hk)|[?|(k & e & y & Hk & ?)]].
      -- left. exists k, t. split; [done|]. rewrite Hoth; [done|congruence].
      -- right. by left.
      -- right. right. exists k, e, y. split; [|done].
         rewrite Hoth; [done|]. intros ->. by apply Hnf in Hk.
  + rewrite (take_S_r _ _ _ Hx), flat_map_app. cbn.
    rewrite app_nil_r, <- Hev, Hpe. unfold call_events.
    solve_Permutation.
- (* the queue is exhausted: the runner returns *)
  set (st := with_runners rs' (match v with V1 => bump s | V2 => s end)).
  assert (Hres : results st = results s) by (by destruct v).
  assert (Htr : trace st = trace s) by (by destruct v).
  assert (Hcs : claims st = claims s) by (by destruct v).
  assert (Hrj : rejection st = rejection s) by (by destruct v).
  assert (Hrs : runners st = rs') by (by destruct v).
  assert (Hni : nextIndex s <= nextIndex st) by (destruct v; cbn; lia).
  assert (Hcl : claimed st = claimed s)
    by (unfold Pool.claimed; destruct v; cbn -[Nat.min]; lia).
  split; rewrite ?Hres, ?Htr, ?Hcs, ?Hrj, ?Hrs, ?Hcl.
  + done.
  + intros k i t _ Hk. destruct (decide (k = k0)) as [->|Hkk].
    * rewrite Hk0 in Hk. done.
    * rewrite Hoth in Hk by done.
      destruct (Ha k i t (Hne _ Hkk) Hk) as (? & ? & ?).
      split; [done|]. split; [lia|done].
  + intros k k' i t t' _ _ Hk Hk'.
    destruct (decide (k = k0)) as [->|Hkk]; [rewrite Hk0 in Hk; done|].
    destruct (decide (k' = k0)) as [->|Hkk']; [rewrite Hk0 in Hk'; done|].
    rewrite Hoth in Hk, Hk' by done. eauto.
  + intros i r Hr. apply Hf in Hr as [? ?]. split; [lia|done].
  + done.
  + intros k _ Hk. lia.
  + intros k e Hk. destruct (decide (k = k0)) as [->|Hkk].
    * rewrite Hk0 in Hk. done.
    * rewrite Hoth in Hk by done. apply Hfail in Hk as (? & i & y & ? & ? & ?).
      split; [done|]. exists i, y. split; [lia|done].
  + intros e He. apply Hrej in He as [k Hk]. exists k.
    rewrite Hoth; [done|]. intros ->. by apply Hnf in Hk.
  + intros i Hi.
    destruct (Hdone i Hi) as [(k & t & Hkk & Hk)|[?|(k & e & y & Hk & ?)]].
    * left. exists k, t. split; [done|]. rewrite Hoth; [done|congruence].
    * right. by left.
    * right. right. exists k, e, y. split; [|done].
      rewrite Hoth; [done|]. intros ->. by apply Hnf in Hk.
  + rewrite (take_ge items (nextIndex st)) by lia.
    rewrite <- (take_ge items (nextIndex s)) by lia.
    rewrite <- Hev, Hpe. cbn. by rewrite app_nil_r.
Qed.


Lemma iterate_runners v k s : runners (iterate v k s).1 = runners s.
Proof.
destruct (iterate_cases v k s) as [(x & _ & ->)|(_ & ->)]; [done|by destruct v].
Qed.

Lemma lookup_snoc_ne {X} (l : list X) (x : X) k :
k <> length l -> (l ++ [x]) !! k = l !! k.
Proof.
intros Hk. destruct (decide (k < length l)).
- by rewrite lookup_app_l.
- rewrite (lookup_ge_None_2 l) by lia.
  apply lookup_ge_None_2. rewrite length_app. simpl. lia.
Qed.

Lemma spawn_inv v s : inv v None s -> inv v None (spawn v s).
Proof.
intros Hinv. unfold Pool.spawn.
destruct (iterate v (length (runners s)) s) as [s' r'] eqn:Hit.
pose proof (iterate_runners v (length (runners s)) s) as Hrs.
rewrite Hit in Hrs. cbn in Hrs. rewrite Hrs.
eapply iterate_inv; [| |exact Hit| | |].
- destruct Hinv as [Hc Ha Hd Hf Hl Hfin Hfail Hrej Hdone Hev].
  split; eauto.
  intros i Hi. destruct (Hdone i Hi) as [(k & t & _ & Hk)|[?|?]]; eauto.
  left. exists k, t. split; [|done].
  apply lookup_lt_Some in Hk. intros [= ->]. lia.
- intros e He. apply lookup_lt_Some in He. lia.
- by rewrite lookup_app_r, Nat.sub_diag.
- intros k Hk. by apply lookup_snoc_ne.
- by rewrite pending_events_snoc.
Qed.

Lemma start_inv v limit s0 : start v limit = Some s0 -> inv v None s0.
Proof.
unfold Pool.start. destruct (runner_count items v limit) as [n|]; [|done].
intros [= <-]. induction n as [|n IH]; [apply inv_pool0|].
rewrite Nat.iter_succ. by apply spawn_inv.
Qed.

Lemma fire_inv v k s s' : inv v None s -> fire v k s = Some s' -> inv v None s'.
Proof.
intros Hinv Hfire. unfold Pool.fire in Hfire.
destruct (runners s !! k) as [[i [[r|e]|evs t]| |]|] eqn:Hk; try done.
- (* the task is fulfilled: store the value and go round the loop *)
  set (s1 := Mk (Js.set i r (results s)) (nextIndex s) (runners s)
                (trace s) (claims s) (rejection s)) in *.
  destruct (iterate v k s1) as [s2 r'] eqn:Hit. injection Hfire as <-.
  pose proof (iterate_runners v k s1) as Hrs.
  rewrite Hit in Hrs. cbn in Hrs. rewrite Hrs.
  destruct Hinv as [Hc Ha Hd Hf Hl Hfin Hfail Hrej Hdone Hev].
  destruct (Ha k i _ ltac:(done) Hk) as (Hnf & Hlt & x & Hx & Hfinal).
  cbn in Hfinal.
  eapply iterate_inv; [| |exact Hit| | |].
  + split; cbn; eauto.
    * intros k' i' t' Hne Hk'.
      destruct (Ha k' i' t' ltac:(done) Hk') as (Hnf' & ? & ?).
      split; [|done]. intros [r0 Hr0]. apply JsFacts.set_lookup in Hr0.
      destruct Hr0 as [[-> _]|[_ Hr0]]; [|apply Hnf'; by exists r0].
      assert (k' = k) by (eapply Hd; eauto; done). congruence.
    * intros i' r0 Hr0. apply JsFacts.set_lookup in Hr0.
      destruct Hr0 as [[-> ->]|[_ Hr0]]; [|eauto].
      split; [done|]. exists x. split; [done|]. congruence.
    * pose proof (lookup_lt_Some _ _ _ Hx).
      destruct v; rewrite JsFacts.set_length; lia.
    * intros i' Hi'.
      destruct (Hdone i' Hi') as [(k' & t' & _ & Hk')|[?|?]]; [|right; left|by right; right].
      -- destruct (decide (k' = k)) as [->|Hkk].
         ++ rewrite Hk in Hk'. injection Hk' as <- <-.
            right. left. exists r. apply JsFacts.set_lookup. by left.
         ++ left. exists k', t'. split; [congruence|done].
      -- by apply JsFacts.set_filled_mono.
  + cbn. intros e. by rewrite Hk.
  + apply list_lookup_insert_eq. by eapply lookup_lt_Some.
  + intros k' Hk'. cbn. by apply list_lookup_insert_ne.
  + cbn. rewrite <- (pending_events_insert _ _ _ r' Hk). cbn. by rewrite app_nil_r.
- (* the task is rejected: the runner throws *)
  injection Hfire as <-.
  destruct Hinv as [Hc Ha Hd Hf Hl Hfin Hfail Hrej Hdone Hev].
  destruct (Ha k i _ ltac:(done) Hk) as (Hnf & Hlt & x & Hx & Hfinal).
  cbn in Hfinal.
  assert (Hlen : k < length (runners s)) by (by eapply lookup_lt_Some).
  split; cbn; eauto.
  + intros k' i' t' _ Hk'. apply list_lookup_insert_Some in Hk'.
    destruct Hk' as [(_ & ? & _)|[? Hk']]; [done|]. by apply (Ha k' i' t').
  + intros k1 k2 i' t1 t2 _ _ Hk1 Hk2.
    apply list_lookup_insert_Some in Hk1, Hk2.
    destruct Hk1 as [(_ & ? & _)|[? Hk1]]; [done|].
    destruct Hk2 as [(_ & ? & _)|[? Hk2]]; [done|].
    eapply Hd; eauto; done.
  + intros k' _ Hk'. apply list_lookup_insert_Some in Hk'.
    destruct Hk' as [(_ & ? & _)|[? Hk']]; [done|]. by apply (Hfin k').
  + intros k' e' Hk'. apply list_lookup_insert_Some in Hk'.
    destruct Hk' as [(_ & [= <-] & _)|[? Hk']].
    * split; [destruct (rejection s); eauto|]. exists i, x. by rewrite <- Hfinal.
    * apply Hfail in Hk' as [[e0 He0] ?]. rewrite He0. eauto.
  + intros e' He'. destruct (rejection s) as [e0|] eqn:Hr.
    * injection He' as <-. destruct (Hrej e0 eq_refl) as [k' Hk'].
      exists k'. rewrite list_lookup_insert_ne; [done|]. intros <-. congruence.
    * injection He' as <-. exists k. by apply list_lookup_insert_eq.
  + intros i' Hi'.
    destruct (Hdone i' Hi') as [(k' & t' & _ & Hk')|[?|(k' & e' & y & Hk' & ?)]].
    * destruct (decide (k' = k)) as [->|Hkk].
      -- rewrite Hk in Hk'. injection Hk' as <- <-.
         right. right. exists k, e, x. rewrite list_lookup_insert_eq by done.
         by rewrite <- Hfinal.
      -- left. exists k', t'. split; [done|]. by rewrite list_lookup_insert_ne.
    * right. by left.
    * right. right. exists k', e', y. split; [|done].
      rewrite list_lookup_insert_ne; [done|]. intros <-. congruence.
  + pose proof (pending_events_insert _ _ _ (Failed e) Hk) as Hp.
    cbn in Hp. rewrite !app_nil_r in Hp.
    rewrite <- Hev. unfold pending_events in *. by rewrite Hp.
- (* the task advances by one suspension *)
  injection Hfire as <-.
  destruct Hinv as [Hc Ha Hd Hf Hl Hfin Hfail Hrej Hdone Hev].
  destruct (Ha k i _ ltac:(done) Hk) as (Hnf & Hlt & x & Hx & Hfinal).
  cbn in Hfinal.
  assert (Hlen : k < length (runners s)) by (by eapply lookup_lt_Some).
  split; cbn; eauto.
  + intros k' i' t' _ Hk'. apply list_lookup_insert_Some in Hk'.
    destruct Hk' as [(_ & [= <- <-] & _)|[? Hk']]; [eauto|]. by apply (Ha k' i' t').
  + intros k1 k2 i' t1 t2 _ _ Hk1 Hk2.
    apply list_lookup_insert_Some in Hk1, Hk2.
    destruct Hk1 as [(? & ? & _)|[? Hk1]];
      destruct Hk2 as [(? & ? & _)|[? Hk2]]; simplify_eq; try done;
      eapply Hd; eauto; done.
  + intros k' _ Hk'. apply list_lookup_insert_Some in Hk'.
    destruct Hk' as [(_ & ? & _)|[? Hk']]; [done|]. by apply (Hfin k').
  + intros k' e' Hk'. apply list_lookup_insert_Some in Hk'.
    destruct Hk' as [(_ & ? & _)|[? Hk']]; [done|]. by apply (Hfail k').
  + intros e' He'. destruct (Hrej e' He') as [k' Hk'].
    exists k'. rewrite list_lookup_insert_ne; [done|]. intros <-. congruence.
  + intros i' Hi'.
    destruct (Hdone i' Hi') as [(k' & t' & _ & Hk')|[?|(k' & e' & y & Hk' & ?)]].
    * destruct (decide (k' = k)) as [->|Hkk].
      -- rewrite Hk in Hk'. injection Hk' as <- <-.
         left. exists k, t. by rewrite list_lookup_insert_eq.
      -- left. exists k', t'. split; [done|]. by rewrite list_lookup_insert_ne.
    * right. by left.
    * right. right. exists k', e', y. split; [|done].
      rewrite list_lookup_insert_ne; [done|]. intros <-. congruence.
  + pose proof (pending_events_insert _ _ _ (Awaiting i t) Hk) as Hp.
    cbn in Hp. rewrite app_assoc in Hp.
    apply Permutation_app_inv_r in Hp.
    rewrite <- Hev, <- Hp. solve_Permutation.
Qed.

Lemma exec_inv v sched s s' :
inv v None s -> exec v sched s = Some s' -> inv v None s'.
Proof.
revert s. induction sched as [|k sched IH]; intros s Hinv Hex; cbn in Hex.
- by injection Hex as <-.
- destruct (fire v k s) as [s1|] eqn:Hf; [|done].
  eapply IH; [|exact Hex]. by eapply fire_inv.
Qed.

End PoolFacts.

Section PoolRuns.
Context {A R E Ev : Type}.
Variable worker : A -> list Ev * task R E Ev.
Variable items : list A.

Local Abbreviation inv := (Pool.inv worker items).
Local Abbreviation iterate := (Pool.iterate worker items).
Local Abbreviation fire := (Pool.fire worker items).
Local Abbreviation exec := (Pool.exec worker items).
Local Abbreviation start := (Pool.start worker items).
Local Abbreviation spawn := (Pool.spawn worker items).
Local Abbreviation claimed := (Pool.claimed items).
Local Abbreviation remaining := (Pool.remaining worker items).
Local Abbreviation steps_of := (fun x : A => task_steps (snd (worker x))).

Implicit Types (s : pool R E Ev) (rs : list (runner R E Ev)).

Lemma task_steps_pos (t : task R E Ev) : 0 < task_steps t.
Proof. destruct t; cbn; lia. Qed.

Lemma iterate_remaining v k s s' r' :
iterate v k s = (s', r') ->
runner_steps r' + list_sum (map steps_of (drop (nextIndex s') items))
= list_sum (map steps_of (drop (nextIndex s) items)).
Proof.
intros Hit.
destruct (iterate_cases worker items v k s) as [(x & Hx & Heq)|(Hle & Heq)];
  rewrite Heq in Hit; injection Hit as <- <-.
- cbn. by rewrite (drop_S _ _ _ Hx).
- rewrite (drop_ge items (nextIndex s)) by done.
  rewrite drop_ge; [done|]. destruct v; cbn; lia.
Qed.

Lemma spawn_remaining v s : remaining (spawn v s) = remaining s.
Proof.
unfold Pool.spawn, Pool.remaining.
destruct (iterate v (length (runners s)) s) as [s' r'] eqn:Hit.
pose proof (iterate_runners worker items v (length (runners s)) s) as Hrs.
rewrite Hit in Hrs. cbn in Hrs. cbn [runners nextIndex with_runners].
rewrite Hrs, pending_steps_snoc, <- (iterate_remaining _ _ _ _ _ Hit). lia.
Qed.

Lemma start_remaining v limit s0 :
start v limit = Some s0 -> remaining s0 = total_steps worker items.
Proof.
unfold Pool.start. destruct (runner_count items v limit) as [n|]; [|done].
intros [= <-]. induction n as [|n IH]; [done|].
by rewrite Nat.iter_succ, spawn_remaining.
Qed.

Lemma spawn_length v s : length (runners (spawn v s)) = S (length (runners s)).
Proof.
unfold Pool.spawn.
destruct (iterate v (length (runners s)) s) as [s' r'] eqn:Hit.
pose proof (iterate_runners worker items v (length (runners s)) s) as Hrs.
rewrite Hit in Hrs. cbn in Hrs. cbn. rewrite length_app, Hrs. cbn. lia.
Qed.

Lemma start_length v limit s0 :
start v limit = Some s0 ->
runner_count items v limit = Some (length (runners s0)).
Proof.
unfold Pool.start. destruct (runner_count items v limit) as [n|]; [|done].
intros [= <-]. f_equal. induction n as [|n IH]; [done|].
by rewrite Nat.iter_succ, spawn_length, <- IH.
Qed.

(** A runner can be resumed exactly when it is suspended. *)
Lemma fire_enabled v k s :
is_Some (fire v k s) <-> exists i t, runners s !! k = Some (Awaiting i t).
Proof.
unfold Pool.fire. split.
- intros [s' Hs'].
  destruct (runners s !! k) as [[i t| |]|]; try done. eauto.
- intros (i & t & ->). destruct t as [[r|e]|evs t]; [|done|done].
  destruct (iterate v k _). done.
Qed.

Lemma fire_length v k s s' :
fire v k s = Some s' -> length (runners s') = length (runners s).
Proof.
unfold Pool.fire.
destruct (runners s !! k) as [[i [[r|e]|evs t]| |]|] eqn:Hk; try done.
- set (s1 := Mk _ _ _ _ _ _).
  destruct (iterate v k s1) as [s2 r'] eqn:Hit. intros [= <-].
  pose proof (iterate_runners worker items v k s1) as Hrs.
  rewrite Hit in Hrs. cbn in Hrs. cbn. by rewrite length_insert, Hrs.
- intros [= <-]. cbn. by rewrite length_insert.
- intros [= <-]. cbn. by rewrite length_insert.
Qed.

Lemma fire_remaining v k s s' :
fire v k s = Some s' -> remaining s = S (remaining s').
Proof.
unfold Pool.fire, Pool.remaining.
destruct (runners s !! k) as [[i [[r|e]|evs t]| |]|] eqn:Hk; try done.
- set (s1 := Mk _ _ _ _ _ _).
  destruct (iterate v k s1) as [s2 r'] eqn:Hit. intros [= <-].
  pose proof (iterate_runners worker items v k s1) as Hrs.
  rewrite Hit in Hrs. cbn [fst runners s1] in Hrs.
  pose proof (iterate_remaining _ _ _ _ _ Hit) as Hrem.
  cbn [nextIndex s1] in Hrem.
  pose proof (pending_steps_insert _ _ _ r' Hk) as Hp.
  cbn [runner_steps task_steps] in Hp.
  cbn [runners nextIndex with_runners]. rewrite Hrs. lia.
- intros [= <-]. cbn [runners nextIndex].
  pose proof (pending_steps_insert _ _ _ (Failed e) Hk) as Hp.
  cbn [runner_steps task_steps] in Hp. lia.
- intros [= <-]. cbn [runners nextIndex].
  pose proof (pending_steps_insert _ _ _ (Awaiting i t) Hk) as Hp.
  cbn [runner_steps task_steps] in Hp. lia.
Qed.

Lemma exec_remaining v sched s s' :
exec v sched s = Some s' -> remaining s = length sched + remaining s'.
Proof.
revert s. induction sched as [|k sched IH]; intros s Hex; cbn in Hex.
- by injection Hex as <-.
- destruct (fire v k s) as [s1|] eqn:Hf; [|done].
  apply fire_remaining in Hf. apply IH in Hex. cbn. lia.
Qed.

Lemma exec_length v sched s s' :
exec v sched s = Some s' -> length (runners s') = length (runners s).
Proof.
revert s. induction sched as [|k sched IH]; intros s Hex; cbn in Hex.
- by injection Hex as <-.
- destruct (fire v k s) as [s1|] eqn:Hf; [|done].
  apply fire_length in Hf. apply IH in Hex. lia.
Qed.

Lemma pending_steps_cons (r : runner R E Ev) rs :
  pending_steps (r :: rs) = runner_steps r + pending_steps rs.
Proof. done. Qed.

(** While resumptions remain in flight, some runner can be resumed. *)
Lemma pending_steps_awaiting rs :
0 < pending_steps rs -> exists k i t, rs !! k = Some (Awaiting i t).
Proof.
unfold pending_steps. induction rs as [|r rs IH]; cbn; [lia|].
destruct r as [i t| |]; cbn.
- intros _. by exists 0, i, t.
- intros H. destruct (IH H) as (k & ?). by exists (S k).
- intros H. destruct (IH H) as (k & ?). by exists (S k).
Qed.

Lemma forallb_lookup {X} (f : X -> bool) (l : list X) :
forallb f l = true <-> forall k x, l !! k = Some x -> f x = true.
Proof.
induction l as [|y l IH]; cbn.
- split; [|done]. intros _ k x Hk. by rewrite lookup_nil in Hk.
- rewrite andb_true_iff, IH. split.
  + intros [Hy Hl] [|k] x Hk; simplify_eq/=; eauto.
  + intros H. split; [by apply (H 0)|]. intros k x Hk. by apply (H (S k)).
Qed.

Lemma all_finished_lookup rs k r :
forallb is_finished rs = true -> rs !! k = Some r -> r = Finished.
Proof.
intros Hall Hk. eapply forallb_lookup in Hall; [|exact Hk]. by destruct r.
Qed.

(** What a fulfilled [Promise.all] means: every index was handed out,
  in order, and every slot holds the value of its item. *)
Lemma settled_fulfilled v s res :
inv v None s ->
settled s = Some (Fulfilled res) ->
runners s <> [] \/ items = [] ->
res = results s
/\ (claims s).*2 = seq 0 (length items)
/\ results s = (fun x => value_of worker x) <$> items
/\ Forall (fulfils worker) items.
Proof.
intros [Hc Ha Hd Hf Hl Hfin Hfail Hrej Hdone Hev] Hset Hne.
unfold settled in Hset.
destruct (rejection s) eqn:Hr; [done|].
destruct (forallb is_finished (runners s)) eqn:Hall; [|done].
injection Hset as <-.
assert (Hcl : claimed s = length items).
{ unfold Pool.claimed. destruct Hne as [Hne| ->]; [|cbn; lia].
  destruct (runners s) as [|r rs] eqn:Hrs; [done|].
  assert (r = Finished) as -> by (by eapply (all_finished_lookup _ 0)).
  assert (length items <= nextIndex s); [|lia].
  apply (Hfin 0); [done|by rewrite ?Hrs]. }
assert (Hall' : forall i x, items !! i = Some x ->
          exists r, results s !! i = Some (Some r)
                    /\ final (snd (worker x)) = Fulfilled r).
{ intros i x Hx. pose proof (lookup_lt_Some _ _ _ Hx) as Hlt.
  destruct (Hdone i) as [(k & t & _ & Hk)|[[r Hr']|(k & e & y & Hk & _)]].
  - lia.
  - by apply (all_finished_lookup _ _ _ Hall) in Hk.
  - exists r. split; [done|]. apply Hf in Hr' as (_ & y & Hy & ?). congruence.
  - by apply (all_finished_lookup _ _ _ Hall) in Hk. }
split; [done|]. split; [by rewrite Hc, Hcl|]. split.
- apply list_eq. intros i. rewrite list_lookup_fmap.
  destruct (items !! i) as [x|] eqn:Hx; cbn.
  + destruct (Hall' i x Hx) as (r & -> & Hfinal).
    unfold value_of. by rewrite Hfinal.
  + apply lookup_ge_None in Hx. apply lookup_ge_None.
    destruct v; lia.
- apply Forall_lookup. intros i x Hx.
  destruct (Hall' i x Hx) as (r & _ & Hfinal).
  exists r. unfold value_of. by rewrite Hfinal.
Qed.

(** Without a rejecting item no runner throws. *)
Lemma no_failure v s :
inv v None s -> Forall (fulfils worker) items ->
rejection s = None /\ forall k e, runners s !! k <> Some (Failed e).
Proof.
intros Hinv Hok.
assert (Hnf : forall k e, runners s !! k <> Some (Failed e)).
{ intros k e Hk. apply (inv_failed _ _ _ _ _ Hinv) in Hk as (_ & i & x & _ & Hx & Hrj).
  eapply Forall_lookup in Hok; [|exact Hx].
  destruct Hok as [r Hr]. unfold value_of in Hr. by rewrite Hrj in Hr. }
split; [|done].
destruct (rejection s) as [e|] eqn:Hr; [|done].
apply (inv_rejection _ _ _ _ _ Hinv) in Hr as [k Hk]. by apply Hnf in Hk.
Qed.

(** When nothing is left to do and nobody threw, the call has returned. *)
Lemma remaining_0_settled v s :
inv v None s -> Forall (fulfils worker) items ->
remaining s = 0 -> settled s = Some (Fulfilled (results s)).
Proof.
intros Hinv Hok Hrem.
destruct (no_failure v s Hinv Hok) as [Hr Hnf].
unfold settled. rewrite Hr.
assert (Hall : forallb is_finished (runners s) = true); [|by rewrite Hall].
apply forallb_lookup. intros k r Hk.
destruct r as [i t| |e]; [|done|by apply Hnf in Hk].
unfold Pool.remaining in Hrem.
assert (0 < pending_steps (runners s)); [|lia].
unfold pending_steps. clear -Hk. revert k Hk.
induction (runners s) as [|r rs IH]; intros [|k] Hk; simplify_eq/=.
- pose proof (task_steps_pos t). lia.
- specialize (IH _ Hk). lia.
Qed.

(** While something is left to do and nobody threw, a runner can be
  resumed. *)
Lemma remaining_pos_enabled v s :
inv v None s -> Forall (fulfils worker) items ->
runners s <> [] ->
0 < remaining s -> exists k s', fire v k s = Some s'.
Proof.
intros Hinv Hok Hne Hrem.
destruct (no_failure v s Hinv Hok) as [Hr Hnf].
destruct (decide (0 < pending_steps (runners s))) as [Hp|Hp].
- apply pending_steps_awaiting in Hp as (k & i & t & Hk).
  destruct (proj2 (fire_enabled v k s)) as [s' Hs']; eauto.
- (* nobody is suspended and nobody threw: all have returned, so the
     queue is exhausted *)
  exfalso. unfold Pool.remaining in Hrem.
  destruct (runners s) as [|r rs] eqn:Hrs; [done|].
  assert (length items <= nextIndex s) as Hle.
  { destruct r as [i t| |e].
    - rewrite ?Hrs in Hp. rewrite pending_steps_cons in Hp.
      cbn [runner_steps] in Hp. pose proof (task_steps_pos t). lia.
    - apply (inv_finished _ _ _ _ _ Hinv 0); [done|by rewrite ?Hrs].
    - exfalso. apply (Hnf 0 e). by rewrite ?Hrs. }
  rewrite drop_ge in Hrem by done.
  change (list_sum (map steps_of [])) with 0 in Hrem. lia.
Qed.

End PoolRuns.

Section PoolSim.
Context {A R E Ev : Type}.
Variable worker : A -> list Ev * task R E Ev.
Variable items : list A.

Local Abbreviation iterate := (Pool.iterate worker items).
Local Abbreviation fire := (Pool.fire worker items).
Local Abbreviation exec := (Pool.exec worker items).
Local Abbreviation start := (Pool.start worker items).
Local Abbreviation spawn := (Pool.spawn worker items).

Implicit Types (s : pool R E Ev) (rs : list (runner R E Ev)).

Local Abbreviation sim := (Pool.sim items).

Lemma sim_iterate k s1 s2 :
sim s1 s2 ->
sim (iterate V1 k s1).1 (iterate V2 k s2).1
/\ (iterate V1 k s1).2 = (iterate V2 k s2).2.
Proof.
intros (Hrs & Htr & Hcl & Hrj & Hni).
destruct (iterate_cases worker items V1 k s1) as [(x & Hx & ->)|(Hle & ->)].
- pose proof (lookup_lt_Some _ _ _ Hx) as Hlt.
  assert (Heq : nextIndex s2 = nextIndex s1) by lia.
  destruct (iterate_cases worker items V2 k s2) as [(y & Hy & ->)|(Hle & _)];
    [|lia].
  rewrite Heq in Hy. assert (y = x) as -> by congruence.
  unfold sim. cbn -[Nat.min]. rewrite Htr, Hcl, Heq. repeat split; try done. lia.
- destruct (iterate_cases worker items V2 k s2) as [(y & Hy & _)|(_ & ->)].
  + apply lookup_lt_Some in Hy. lia.
  + unfold sim. cbn -[Nat.min]. repeat split; try done. lia.
Qed.

Lemma sim_spawn s1 s2 : sim s1 s2 -> sim (spawn V1 s1) (spawn V2 s2).
Proof.
intros Hsim. unfold Pool.spawn.
pose proof Hsim as (Hrs & _). rewrite <- Hrs.
destruct (sim_iterate (length (runners s1)) s1 s2 Hsim) as [Hs Hr].
destruct (iterate V1 _ s1) as [s1' r1], (iterate V2 _ s2) as [s2' r2].
cbn in Hs, Hr. subst r2. destruct Hs as (Hrs' & Htr & Hcl & Hrj & Hni).
unfold sim. cbn -[Nat.min]. by rewrite Hrs'.
Qed.

Lemma sim_fire k s1 s2 :
sim s1 s2 ->
match fire V1 k s1, fire V2 k s2 with
| Some s1', Some s2' => sim s1' s2'
| None, None => True
| _, _ => False
end.
Proof.
intros Hsim. pose proof Hsim as (Hrs & Htr & Hcl & Hrj & Hni).
unfold Pool.fire. rewrite <- Hrs.
destruct (runners s1 !! k) as [[i [[r|e]|evs t]| |]|] eqn:Hk; try done.
- set (t1 := Mk (Js.set i r (results s1)) _ _ _ _ _).
  set (t2 := Mk (Js.set i r (results s2)) _ _ _ _ _).
  assert (Hsim' : sim t1 t2) by done.
  destruct (sim_iterate k t1 t2 Hsim') as [Hs Hr].
  destruct (iterate V1 k t1) as [s1' r1], (iterate V2 k t2) as [s2' r2].
  cbn in Hs, Hr. subst r2. destruct Hs as (Hrs' & ? & ? & ? & ?).
  unfold sim. cbn -[Nat.min]. by rewrite Hrs'.
- unfold sim. cbn -[Nat.min]. by rewrite Htr, Hcl, Hrj.
- unfold sim. cbn -[Nat.min]. by rewrite Htr, Hcl, Hrj.
Qed.

Lemma sim_exec sched s1 s2 :
sim s1 s2 ->
match exec V1 sched s1, exec V2 sched s2 with
| Some s1', Some s2' => sim s1' s2'
| None, None => True
| _, _ => False
end.
Proof.
revert s1 s2. induction sched as [|k sched IH]; intros s1 s2 Hsim; [done|].
cbn. pose proof (sim_fire k s1 s2 Hsim) as Hf.
destruct (fire V1 k s1), (fire V2 k s2); try done. by apply IH.
Qed.

Lemma sim_start (limit : Z) :
(0 <= limit)%Z ->
exists s1 s2, start V1 (Js.Int limit) = Some s1
              /\ start V2 (Js.Int limit) = Some s2 /\ sim s1 s2.
Proof.
intros Hl. unfold Pool.start. cbn.
destruct (0 <=? limit `min` Z.of_nat (length items))%Z eqn:Hle;
  [|apply Z.leb_gt in Hle; lia].
eexists _, _. split; [done|]. split; [done|].
induction (Z.to_nat (limit `min` Z.of_nat (length items))) as [|n IH].
- unfold sim. cbn. done.
- rewrite !Nat.iter_succ. by apply sim_spawn.
Qed.

End PoolSim.

Section PoolStart.
Context {A R E Ev : Type}.
Variable worker : A -> list Ev * task R E Ev.
Variable items : list A.

Local Abbreviation fire := (Pool.fire worker items).
Local Abbreviation exec := (Pool.exec worker items).
Local Abbreviation start := (Pool.start worker items).
Local Abbreviation total := (Pool.total_steps worker items).

Implicit Types (s : pool R E Ev).

Lemma start_Int v (limit : Z) :
(0 <= limit)%Z ->
exists s0, start v (Js.Int limit) = Some s0
           /\ length (runners s0) = Z.to_nat limit `min` length items.
Proof.
intros Hl.
assert (Hc : runner_count items v (Js.Int limit)
             = Some (Z.to_nat limit `min` length items)).
{ destruct v; cbn.
  - f_equal. lia.
  - destruct (0 <=? limit `min` Z.of_nat (length items))%Z eqn:Hle;
      [f_equal; lia | apply Z.leb_gt in Hle; lia]. }
destruct (start v (Js.Int limit)) as [s0|] eqn:Hs.
- exists s0. split; [done|].
  apply start_length in Hs. rewrite Hc in Hs. by injection Hs as <-.
- unfold Pool.start in Hs. by rewrite Hc in Hs.
Qed.

Lemma NoDup_snd_inj (l : list (nat * nat)) k k' i :
NoDup l.*2 -> (k, i) ∈ l -> (k', i) ∈ l -> k' = k.
Proof.
induction l as [|[a b] l IH]; cbn; intros Hnd H1 H2.
- by apply elem_of_nil in H1.
- apply NoDup_cons in Hnd as [Hb Hnd].
  apply elem_of_cons in H1, H2.
  destruct H1 as [H1|H1], H2 as [H2|H2]; simplify_eq.
  + done.
  + exfalso. apply Hb. apply list_elem_of_fmap. by exists (k', b).
  + exfalso. apply Hb. apply list_elem_of_fmap. by exists (k, b).
  + by apply IH.
Qed.

Lemma claims_safe v s :
inv worker items v None s ->
NoDup (claims s).*2
/\ forall k i, (k, i) ∈ claims s ->
     i < length items /\ forall k', (k', i) ∈ claims s -> k' = k.
Proof.
intros Hinv. pose proof (inv_claims _ _ _ _ _ Hinv) as Hc.
assert (Hnd : NoDup (claims s).*2) by (rewrite Hc; apply NoDup_seq).
split; [done|]. intros k i Hki. split.
- assert (Hi : i ∈ (claims s).*2) by (apply list_elem_of_fmap; by exists (k, i)).
  rewrite Hc in Hi. apply elem_of_seq in Hi. unfold claimed in Hi. lia.
- intros k' Hk'. by eapply NoDup_snd_inj.
Qed.

Lemma runners_nonempty v (limit : Z) s0 sched s :
(1 <= limit)%Z -> start v (Js.Int limit) = Some s0 ->
exec v sched s0 = Some s -> runners s <> [] \/ items = [].
Proof.
intros Hl Hs Hex. destruct items as [|x l] eqn:Hit; [by right|left].
rewrite <- Hit in *.
destruct (start_Int v limit) as (s0' & Hs' & Hlen); [lia|].
assert (s0' = s0) as -> by congruence.
apply exec_length in Hex. intros Hnil. rewrite Hnil in Hex. cbn in Hex.
rewrite Hit in Hlen. cbn in Hlen. lia.
Qed.

(** What holds of every run in which no worker call rejects: it takes
  as many resumptions as the tasks have, some runner can be resumed
  until then, and then the call has returned. *)
Lemma run_to_completion v (limit : Z) s0 sched s :
(1 <= limit)%Z -> start v (Js.Int limit) = Some s0 ->
exec v sched s0 = Some s ->
Forall (fulfils worker) items ->
length sched <= total
/\ (length sched < total -> exists k s', fire v k s = Some s')
/\ (length sched = total -> settled s = Some (Fulfilled (results s))).
Proof.
intros Hl Hs Hex Hok.
pose proof (start_inv _ _ _ _ _ Hs) as Hinv0.
pose proof (exec_inv _ _ _ _ _ _ Hinv0 Hex) as Hinv.
pose proof (start_remaining _ _ _ _ _ Hs) as Hr0.
pose proof (exec_remaining _ _ _ _ _ _ Hex) as Hr.
split; [lia|]. split.
- intros Hlt. apply remaining_pos_enabled; [done|done| |lia].
  destruct (runners_nonempty v limit s0 sched s Hl Hs Hex) as [?| ->]; [done|].
  unfold Pool.total_steps in Hlt. cbn in Hlt. lia.
- intros Heq. apply (remaining_0_settled worker items v); [done|done|lia].
Qed.

End PoolStart.

End PoolFacts.

(* ===================================================================== *)
(** * The Bounded Uploader: the claims *)
(* ===================================================================== *)

Section Uploader.
Context {A R E Ev : Type}.
Variable worker : A -> list Ev * Pool.task R E Ev.
Variable items : list A.

Local Abbreviation fire := (Pool.fire worker items).
Local Abbreviation exec := (Pool.exec worker items).
Local Abbreviation start := (Pool.start worker items).
Local Abbreviation total := (Pool.total_steps worker items).

(** C1, amended: with a limit of at least 1, in every state that any
    schedule of resumptions reaches, no index has been handed out twice,
    every index handed out is an index of an item and was handed to one
    runner only. Whenever [limitConcurrency] returns, the indices handed
    out are exactly 0 .. L-1 and the array has L slots, all filled. If no
    worker call rejects, it does return under every schedule: after as
    many resumptions as the tasks need, and until then some runner can be
    resumed. *)
Theorem claims_exactly_once (v : variant) (limit : Z) :
  (1 <= limit)%Z ->
  exists s0, start v (Js.Int limit) = Some s0 /\
    forall sched s, exec v sched s0 = Some s ->
      NoDup (Pool.claims s).*2
      /\ (forall k i, (k, i) ∈ Pool.claims s ->
            i < length items /\ forall k', (k', i) ∈ Pool.claims s -> k' = k)
      /\ (forall res, Pool.settled s = Some (Pool.Fulfilled res) ->
            (Pool.claims s).*2 = seq 0 (length items)
            /\ length res = length items
            /\ forall i, i < length items -> Pool.filled res i)
      /\ (Forall (Pool.fulfils worker) items ->
          length sched <= total
          /\ (length sched < total -> exists k s', fire v k s = Some s')
          /\ (length sched = total ->
              exists res, Pool.settled s = Some (Pool.Fulfilled res))).
Proof.
  intros Hl.
  destruct (PoolFacts.start_Int worker items v limit) as (s0 & Hs & _); [lia|].
  exists s0. split; [done|]. intros sched s Hex.
  pose proof (PoolFacts.start_inv _ _ _ _ _ Hs) as Hinv0.
  pose proof (PoolFacts.exec_inv _ _ _ _ _ _ Hinv0 Hex) as Hinv.
  destruct (PoolFacts.claims_safe worker items v s Hinv) as [Hnd Hcl].
  split; [done|]. split; [done|]. split.
  - intros res Hset.
    destruct (PoolFacts.settled_fulfilled worker items v s _ Hinv Hset)
      as (-> & Hc & Hres & Hok).
    { by eapply PoolFacts.runners_nonempty. }
    split; [done|]. split; [by rewrite Hres, length_fmap|].
    intros i Hi. apply lookup_lt_is_Some in Hi as [x Hx].
    rewrite Hres. unfold Pool.filled. rewrite list_lookup_fmap, Hx. cbn.
    eapply Forall_lookup in Hok; [|exact Hx].
    destruct Hok as [r Hr]. exists r. by rewrite Hr.
  - intros Hok.
    destruct (PoolFacts.run_to_completion worker items v limit s0 sched s Hl Hs Hex Hok)
      as (Hle & Hlt & Heq).
    split; [done|]. split; [done|]. eauto.
Qed.

(** C7: with a limit of at least 1, whatever the schedule, when
    [limitConcurrency] returns its array, the array has one slot per item
    and slot [i] holds the value with which the worker's call on item [i]
    fulfilled. When no call rejects, every schedule leads there: after as
    many resumptions as the tasks need the array is returned, and until
    then some runner can be resumed. *)
Theorem results_follow_items (v : variant) (limit : Z) :
  (1 <= limit)%Z ->
  exists s0, start v (Js.Int limit) = Some s0 /\
    forall sched s, exec v sched s0 = Some s ->
      (forall res, Pool.settled s = Some (Pool.Fulfilled res) ->
         length res = length items
         /\ forall i x, items !! i = Some x ->
              exists r, res !! i = Some (Some r)
                        /\ Pool.final (snd (worker x)) = Pool.Fulfilled r)
      /\ (Forall (Pool.fulfils worker) items ->
          (length sched < total -> exists k s', fire v k s = Some s')
          /\ (length sched = total ->
              exists res, Pool.settled s = Some (Pool.Fulfilled res))).
Proof.
  intros Hl.
  destruct (PoolFacts.start_Int worker items v limit) as (s0 & Hs & _); [lia|].
  exists s0. split; [done|]. intros sched s Hex.
  pose proof (PoolFacts.start_inv _ _ _ _ _ Hs) as Hinv0.
  pose proof (PoolFacts.exec_inv _ _ _ _ _ _ Hinv0 Hex) as Hinv.
  split.
  - intros res Hset.
    destruct (PoolFacts.settled_fulfilled worker items v s _ Hinv Hset)
      as (-> & _ & Hres & Hall).
    { by eapply PoolFacts.runners_nonempty. }
    rewrite Hres. split; [by rewrite length_fmap|].
    intros i x Hx. rewrite list_lookup_fmap, Hx. cbn.
    eapply Forall_lookup in Hall; [|exact Hx].
    destruct Hall as [r Hr]. exists r. rewrite Hr. split; [done|].
    unfold Pool.value_of in Hr.
    destruct (Pool.final (worker x).2); congruence.
  - intros Hok.
    destruct (PoolFacts.run_to_completion worker items v limit s0 sched s Hl Hs Hex Hok)
      as (_ & Hlt & Heq).
    split; [done|]. intros Hlen. eauto.
Qed.

End Uploader.

(** C10, amended: for a limit of at least 1 the two variants of
    [limitConcurrency] cannot be told apart. Both start with the same
    number of runners, and under every schedule both can take the same
    steps and reach states with the same runners, the same indices handed
    to the same runners in the same order, the same events, and the same
    settlement: both pending, both rejected with the same reason, or both
    returning the same array. *)
Theorem variants_agree {A R E Ev : Type}
    (worker : A -> list Ev * Pool.task R E Ev) (items : list A) (limit : Z) :
  (1 <= limit)%Z ->
  exists s1 s2,
    Pool.start worker items V1 (Js.Int limit) = Some s1
    /\ Pool.start worker items V2 (Js.Int limit) = Some s2
    /\ length (Pool.runners s1) = length (Pool.runners s2)
    /\ forall sched,
         match Pool.exec worker items V1 sched s1,
               Pool.exec worker items V2 sched s2 with
         | Some t1, Some t2 =>
             Pool.runners t1 = Pool.runners t2
             /\ Pool.claims t1 = Pool.claims t2
             /\ Pool.trace t1 = Pool.trace t2
             /\ Pool.settled t1 = Pool.settled t2
         | None, None => True
         | _, _ => False
         end.
Proof.
  intros Hl.
  destruct (PoolFacts.sim_start worker items limit) as (s1 & s2 & Hs1 & Hs2 & Hsim);
    [lia|].
  exists s1, s2. split; [done|]. split; [done|]. split.
  { destruct Hsim as (-> & _). done. }
  intros sched.
  pose proof (PoolFacts.sim_exec worker items sched s1 s2 Hsim) as Hex.
  destruct (Pool.exec worker items V1 sched s1) as [t1|] eqn:H1,
           (Pool.exec worker items V2 sched s2) as [t2|] eqn:H2; try done.
  destruct Hex as (Hrs & Htr & Hcl & Hrj & _).
  split; [done|]. split; [done|]. split; [done|].
  pose proof (PoolFacts.exec_inv _ _ _ _ _ _ (PoolFacts.start_inv _ _ _ _ _ Hs1) H1) as Hinv1.
  pose proof (PoolFacts.exec_inv _ _ _ _ _ _ (PoolFacts.start_inv _ _ _ _ _ Hs2) H2) as Hinv2.
  destruct (Pool.settled t1) as [[res1|e1]|] eqn:Hset1.
  - destruct (PoolFacts.settled_fulfilled worker items V1 t1 _ Hinv1 Hset1)
      as (-> & _ & Hres1 & _).
    { exact (PoolFacts.runners_nonempty worker items V1 limit s1 sched t1 Hl Hs1 H1). }
    unfold Pool.settled in *. rewrite <- Hrj, <- Hrs.
    destruct (Pool.rejection t1); [done|].
    destruct (forallb Pool.is_finished (Pool.runners t1)) eqn:Hall; [|done].
    destruct (PoolFacts.settled_fulfilled worker items V2 t2 (Pool.results t2) Hinv2)
      as (_ & _ & Hres2 & _).
    { unfold Pool.settled. by rewrite <- Hrj, <- Hrs, Hall. }
    { exact (PoolFacts.runners_nonempty worker items V2 limit s2 sched t2 Hl Hs2 H2). }
    by rewrite Hres1, Hres2.
  - unfold Pool.settled in *. rewrite <- Hrj, <- Hrs.
    destruct (Pool.rejection t1); [done|].
    by destruct (forallb Pool.is_finished (Pool.runners t1)).
  - unfold Pool.settled in *. rewrite <- Hrj, <- Hrs.
    destruct (Pool.rejection t1); [done|].
    by destruct (forallb Pool.is_finished (Pool.runners t1)).
Qed.

(* ===================================================================== *)
(** * The script *)
(* ===================================================================== *)

Module SyncFacts.
Import Sync.

Section Run.
Variable v : variant.
Variable w : world.
Variable o : Args.opts.
Variables bucket absDir : string.
Variable entries : list string.
Variable log0 : list event.

Local Abbreviation worker := (upload v w o bucket absDir).
Local Abbreviation up := (Uploading o bucket absDir entries log0).
Local Abbreviation exec := (Pool.exec worker entries v).
Local Abbreviation fire := (Pool.fire worker entries v).

(** A run from inside [limitConcurrency] is a schedule of resumptions,
    possibly followed by the end of [main]. *)
Lemma run_cases acts p0 st :
  run v w acts (up p0) = Some st ->
  (exists sched p, acts = Resume <$> sched
                   /\ exec sched p0 = Some p /\ st = up p)
  \/ (exists sched p, acts = (Resume <$> sched) ++ [Finish]
                      /\ exec sched p0 = Some p
                      /\ step v w Finish (up p) = Some st).
Proof.
  revert p0. induction acts as [|a acts IH]; intros p0 Hrun.
  - left. exists [], p0. by injection Hrun as <-.
  - cbn [run] in Hrun. destruct a as [k|].
    + cbn [step] in Hrun.
      destruct (fire k p0) as [p1|] eqn:Hf; [|done].
      destruct (IH p1 Hrun) as [(sched & p & -> & Hex & ->)|(sched & p & -> & Hex & Hst)].
      * left. exists (k :: sched), p. cbn. by rewrite Hf.
      * right. exists (k :: sched), p. cbn. by rewrite Hf.
    + destruct (step v w Finish (up p0)) as [st1|] eqn:Hst; [|done].
      assert (Hex : exists code log, st1 = Exited code log).
      { cbn in Hst. destruct (Pool.settled p0) as [[?|?]|]; simplify_eq; eauto. }
      destruct Hex as (code & log & ->).
      destruct acts as [|a acts]; [|done]. injection Hrun as <-.
      right. by exists [], p0.
Qed.

End Run.

(** What [main] has done when it reaches the uploader. *)
Lemma main_uploading v w o bucket absDir entries log0 p0 :
  main v w = Uploading o bucket absDir entries log0 p0 ->
  Args.parseArgs (argv w) = Some o
  /\ entries <> []
  /\ glob w absDir = Some entries
  /\ log0 = [LogUploading (length entries) bucket (Args.prefix o)]
  /\ Pool.start (upload v w o bucket absDir) entries v (Args.concurrency o)
     = Some p0.
Proof.
  unfold main. destruct (Args.parseArgs (argv w)) as [o'|]; [|done].
  destruct (unset (S3_BUCKET w) || unset (AWS_REGION w)); [done|].
  destruct (glob w _) as [[|rel es]|] eqn:Hg; [done| |done].
  destruct (Pool.start _ _ _ _) as [p|] eqn:Hs; [|done].
  intros [= <- <- <- <- <- <-]. done.
Qed.

End SyncFacts.

Module PoolFailure.
Import Pool.

Section Failure.
Context {A R E Ev : Type}.
Variable worker : A -> list Ev * task R E Ev.
Variable items : list A.

Local Abbreviation iterate := (Pool.iterate worker items).
Local Abbreviation fire := (Pool.fire worker items).
Local Abbreviation exec := (Pool.exec worker items).

Implicit Types (s : pool R E Ev).

Lemma claims_of_snoc k k' i (l : list (nat * nat)) :
  k <> k' ->
  (filter (fun c : nat * nat => c.1 = k) (l ++ [(k', i)])).*2
  = (filter (fun c : nat * nat => c.1 = k) l).*2.
Proof.
  intros Hne. rewrite filter_app, filter_cons_False by (cbn; congruence).
  by rewrite filter_nil, app_nil_r.
Qed.

(** One pass of runner [k'] changes nothing that belongs to another
    runner and leaves the rejection alone. *)
Lemma iterate_other v k k' s :
  k <> k' ->
  claims_of k (iterate v k' s).1 = claims_of k s
  /\ rejection (iterate v k' s).1 = rejection s
  /\ results (iterate v k' s).1 = results s.
Proof.
  intros Hne. unfold claims_of.
  destruct (PoolFacts.iterate_cases worker items v k' s)
    as [(x & _ & ->)|(_ & ->)].
  - cbn. by rewrite claims_of_snoc.
  - by destruct v.
Qed.

Lemma fire_other v k k' s s' :
  fire v k' s = Some s' -> k <> k' ->
  runners s' !! k = runners s !! k /\ claims_of k s' = claims_of k s.
Proof.
  unfold Pool.fire. intros Hf Hne.
  destruct (runners s !! k') as [[i [[r|e]|evs t]| |]|] eqn:Hk; try done.
  - set (s1 := Mk _ _ _ _ _ _) in *.
    destruct (iterate v k' s1) as [s2 r'] eqn:Hit. injection Hf as <-.
    pose proof (PoolFacts.iterate_runners worker items v k' s1) as Hrs.
    destruct (iterate_other v k k' s1 Hne) as (Hc & _).
    rewrite Hit in Hrs, Hc. cbn in Hrs, Hc. cbn. rewrite Hrs.
    split; [by apply list_lookup_insert_ne|done].
  - injection Hf as <-. cbn. split; [by apply list_lookup_insert_ne|done].
  - injection Hf as <-. cbn. split; [by apply list_lookup_insert_ne|done].
Qed.

Lemma fire_failed v k s e :
  runners s !! k = Some (Failed e) -> fire v k s = None.
Proof. unfold Pool.fire. by intros ->. Qed.

Lemma fire_rejection v k s s' e :
  fire v k s = Some s' -> rejection s = Some e -> rejection s' = Some e.
Proof.
  unfold Pool.fire. intros Hf Hr.
  destruct (runners s !! k) as [[i [[r|e']|evs t]| |]|] eqn:Hk; try done.
  - set (s1 := Mk _ _ _ _ _ _) in *.
    destruct (iterate v k s1) as [s2 r'] eqn:Hit. injection Hf as <-. cbn.
    destruct (PoolFacts.iterate_cases worker items v k s1)
      as [(x & _ & Heq)|(_ & Heq)]; rewrite Heq in Hit; injection Hit as <- <-.
    + done.
    + by destruct v.
  - injection Hf as <-. cbn. by rewrite Hr.
  - by injection Hf as <-.
Qed.

(** A runner that has thrown stays as it is: it cannot be resumed and
    is handed no further index; and the rejection stays. *)
Lemma failed_for_good v sched s s' k e :
  exec v sched s = Some s' ->
  runners s !! k = Some (Failed e) ->
  runners s' !! k = Some (Failed e) /\ claims_of k s' = claims_of k s.
Proof.
  revert s. induction sched as [|k' sched IH]; intros s Hex Hk; cbn in Hex.
  - by injection Hex as <-.
  - destruct (fire v k' s) as [s1|] eqn:Hf; [|done].
    assert (k <> k') as Hne.
    { intros ->. by rewrite (fire_failed v k' s e Hk) in Hf. }
    destruct (fire_other v k k' s s1 Hf Hne) as [Hrs Hcl].
    destruct (IH s1 Hex) as [? ?]; [congruence|]. split; [done|congruence].
Qed.

Lemma rejected_for_good v sched s s' e :
  exec v sched s = Some s' -> rejection s = Some e -> rejection s' = Some e.
Proof.
  revert s. induction sched as [|k sched IH]; intros s Hex Hr; cbn in Hex.
  - by injection Hex as <-.
  - destruct (fire v k s) as [s1|] eqn:Hf; [|done].
    eapply IH; [done|]. by eapply fire_rejection.
Qed.

(** Resuming a runner on a rejected call: the runner throws. Nothing is
    stored, nothing more is handed out, [Promise.all] is rejected. *)
Lemma fire_rejected v k s i e :
  runners s !! k = Some (Awaiting i (Settle (Rejected e))) ->
  exists s', fire v k s = Some s'
             /\ runners s' !! k = Some (Failed e)
             /\ claims s' = claims s /\ results s' = results s
             /\ is_Some (rejection s').
Proof.
  intros Hk. unfold Pool.fire. rewrite Hk. eexists. split; [done|]. cbn.
  split; [|split; [done|split; [done|]]].
  - apply list_lookup_insert_eq. by eapply lookup_lt_Some.
  - destruct (rejection s); eauto.
Qed.

End Failure.

End PoolFailure.

Module SyncExit.
Import Sync.

(** Whether [main] reaches the uploader is decided by the fatal errors. *)
Lemma main_fatal v w :
  match main v w with
  | Exited code log => (code = 0 \/ code = 1) /\ (code = 1 <-> fatal v w)
  | Uploading _ _ _ _ _ _ => ~ fatal v w
  end.
Proof.
  unfold main, fatal.
  destruct (Args.parseArgs (argv w)) as [o|]; [|by split; [right|]].
  destruct (unset (S3_BUCKET w) || unset (AWS_REGION w)) eqn:Hu.
  { split; [by right|]. split; [by left|done]. }
  destruct (glob w _) as [[|rel es]|] eqn:Hg.
  - split; [by left|]. split; [done|]. intros [?|[? _]]; done.
  - destruct (Pool.start _ _ _ _) as [p|] eqn:Hs.
    + intros [?|[_ ?]]; done.
    + split; [by right|]. split; [|done]. intros _. right. done.
  - split; [by right|]. split; [|done]. intros _. by right.
Qed.

Lemma claimed_index {A R E Ev} (worker : A -> list Ev * Pool.task R E Ev)
    (items : list A) v (s : Pool.pool R E Ev) i :
  Pool.inv worker items v None s ->
  (exists k, (k, i) ∈ Pool.claims s) <-> i < Pool.claimed items s.
Proof.
  intros Hinv. pose proof (Pool.inv_claims _ _ _ _ _ Hinv) as Hc.
  assert (Hi : i ∈ (Pool.claims s).*2 <-> i < Pool.claimed items s).
  { rewrite Hc, elem_of_seq. lia. }
  rewrite <- Hi, list_elem_of_fmap. split.
  - intros [k Hk]. by exists (k, i).
  - intros [[k j] [-> Hk]]. by exists k.
Qed.

End SyncExit.

(** C2, amended: a failing read or put is not caught at the worker
    boundary. In every state that the uploader reaches: no value is ever
    stored for a file whose call fails; the runner that is resumed on a
    failed call throws, storing nothing and taking no further index; a
    runner that has thrown stays so for the rest of the run and is handed
    no further index, and from then on [main] can end only in its [catch],
    with exit status 1, whatever the other runners have done by then. The
    exit status is 0 or 1, and it is 1 exactly when a fatal error occurred
    before the uploader started, or a call that was made has failed. *)
Theorem failure_ends_the_run (v : variant) (w : Sync.world) :
  match Sync.main v w with
  | Sync.Exited code log =>
      (code = 0 \/ code = 1) /\ (code = 1 <-> Sync.fatal v w)
  | Sync.Uploading o bucket absDir entries log0 p0 =>
      ~ Sync.fatal v w /\
      forall sched p,
        Pool.exec (Sync.upload v w o bucket absDir) entries v sched p0 = Some p ->
        (forall i rel e,
           entries !! i = Some rel -> Sync.fails v w o bucket absDir rel e ->
           ~ Pool.filled (Pool.results p) i)
        /\ (forall k i e,
              Pool.runners p !! k
              = Some (Pool.Awaiting i (Pool.Settle (Pool.Rejected e))) ->
              exists p',
                Pool.fire (Sync.upload v w o bucket absDir) entries v k p = Some p'
                /\ Pool.runners p' !! k = Some (Pool.Failed e)
                /\ Pool.claims p' = Pool.claims p
                /\ Pool.results p' = Pool.results p)
        /\ (forall k e,
              Pool.runners p !! k = Some (Pool.Failed e) ->
              forall sched' p',
                Pool.exec (Sync.upload v w o bucket absDir) entries v sched' p
                = Some p' ->
                Pool.runners p' !! k = Some (Pool.Failed e)
                /\ Pool.claims_of k p' = Pool.claims_of k p
                /\ exists e0,
                     Sync.step v w Sync.Finish
                       (Sync.Uploading o bucket absDir entries log0 p')
                     = Some (Sync.Exited 1
                               (log0 ++ Pool.trace p' ++ [Sync.ErrCaught e0])))
        /\ (forall st,
              Sync.step v w Sync.Finish
                (Sync.Uploading o bucket absDir entries log0 p) = Some st ->
              exists code log,
                st = Sync.Exited code log /\ (code = 0 \/ code = 1)
                /\ (code = 1 <->
                    exists k i rel e,
                      (k, i) ∈ Pool.claims p /\ entries !! i = Some rel
                      /\ Sync.fails v w o bucket absDir rel e))
  end.
Proof.
  pose proof (SyncExit.main_fatal v w) as Hmf.
  destruct (Sync.main v w) as [code log|o bucket absDir entries log0 p0] eqn:Hmain;
    [done|].
  split; [done|]. intros sched p Hex.
  apply SyncFacts.main_uploading in Hmain as (_ & _ & _ & _ & Hs).
  pose proof (PoolFacts.start_inv _ _ _ _ _ Hs) as Hinv0.
  pose proof (PoolFacts.exec_inv _ _ _ _ _ _ Hinv0 Hex) as Hinv.
  split; [|split; [|split]].
  - intros i rel e Hrel Hfail [r Hr].
    apply (Pool.inv_filled _ _ _ _ _ Hinv) in Hr as (_ & x & Hx & Hfin).
    unfold Sync.fails in Hfail. rewrite Hrel in Hx. injection Hx as <-.
    rewrite Hfail in Hfin. done.
  - intros k i e Hk.
    destruct (PoolFailure.fire_rejected (Sync.upload v w o bucket absDir) entries
                v k p i e Hk) as (p' & ? & ? & ? & ? & _).
    by exists p'.
  - intros k e Hk sched' p' Hex'.
    destruct (PoolFailure.failed_for_good _ _ _ _ _ _ _ _ Hex' Hk) as [Hk' Hcl].
    split; [done|]. split; [done|].
    pose proof (PoolFacts.exec_inv _ _ _ _ _ _ Hinv Hex') as Hinv'.
    destruct (Pool.inv_failed _ _ _ _ _ Hinv' k e Hk') as [[e0 He0] _].
    exists e0. cbn. unfold Pool.settled. by rewrite He0.
  - intros st Hst. cbn in Hst. unfold Pool.settled in Hst.
    destruct (Pool.rejection p) as [e|] eqn:Hr.
    + injection Hst as <-. eexists _, _. split; [done|]. split; [by right|].
      split; [intros _|done].
      apply (Pool.inv_rejection _ _ _ _ _ Hinv) in Hr as [k Hk].
      apply (Pool.inv_failed _ _ _ _ _ Hinv) in Hk as (_ & i & rel & Hi & Hrel & Hfin).
      assert (Hcl : exists k', (k', i) ∈ Pool.claims p).
      { eapply SyncExit.claimed_index; [done|].
        apply lookup_lt_Some in Hrel. unfold Pool.claimed. lia. }
      destruct Hcl as [k' Hk']. by exists k', i, rel, e.
    + destruct (forallb Pool.is_finished (Pool.runners p)) eqn:Hall; [|done].
      injection Hst as <-. eexists _, _. split; [done|]. split; [by left|].
      split; [done|]. intros (k & i & rel & e & Hki & Hrel & Hfail). exfalso.
      assert (Hi : i < Pool.claimed entries p).
      { eapply SyncExit.claimed_index; eauto. }
      destruct (Pool.inv_done _ _ _ _ _ Hinv i Hi)
        as [(k' & t & _ & Hk')|[[r Hr']|(k' & e' & y & Hk' & _)]].
      * by apply (PoolFacts.all_finished_lookup _ _ _ Hall) in Hk'.
      * apply (Pool.inv_filled _ _ _ _ _ Hinv) in Hr' as (_ & x & Hx & Hfin).
        unfold Sync.fails in Hfail. rewrite Hrel in Hx. injection Hx as <-.
        rewrite Hfail in Hfin. done.
      * by apply (PoolFacts.all_finished_lookup _ _ _ Hall) in Hk'.
Qed.

Module DryRun.
Import Sync.

Lemma trace_from_calls {A R E Ev} (worker : A -> list Ev * Pool.task R E Ev)
    (items : list A) v (s : Pool.pool R E Ev) (P : Ev -> Prop) :
  Pool.inv worker items v None s ->
  (forall x, x ∈ items -> Forall P (Pool.call_events worker x)) ->
  Forall P (Pool.trace s).
Proof.
  intros Hinv HP. pose proof (Pool.inv_events _ _ _ _ _ Hinv) as Hev.
  apply Forall_forall. intros e He.
  assert (Hin : e ∈ Pool.trace s ++ Pool.pending_events (Pool.runners s))
    by (apply elem_of_app; by left).
  rewrite Hev in Hin. apply list_elem_of_In, in_flat_map in Hin as (x & Hx & Hex).
  apply list_elem_of_In in Hx, Hex.
  assert (Hxi : x ∈ items).
  { apply list_elem_of_lookup in Hx as [i Hi].
    apply lookup_take_Some in Hi as [Hi _]. by eapply list_elem_of_lookup_2. }
  specialize (HP x Hxi). rewrite Forall_forall in HP. by apply HP.
Qed.

Lemma finished_no_pending {R E Ev} (rs : list (Pool.runner R E Ev)) :
  forallb Pool.is_finished rs = true -> Pool.pending_events rs = [].
Proof.
  unfold Pool.pending_events. induction rs as [|r rs IH]; [done|].
  cbn. intros [Hr Hrs]%andb_prop. rewrite IH by done.
  by destruct r.
Qed.

Lemma finished_no_steps {R E Ev} (rs : list (Pool.runner R E Ev)) :
  forallb Pool.is_finished rs = true -> Pool.pending_steps rs = 0.
Proof.
  induction rs as [|r rs IH]; [done|].
  cbn [forallb]. intros [Hr Hrs]%andb_prop.
  rewrite PoolFacts.pending_steps_cons, IH by done.
  by destruct r.
Qed.

(** Once [limitConcurrency] has returned nothing is left to do. *)
Lemma settled_remaining {A R E Ev} (worker : A -> list Ev * Pool.task R E Ev)
    (items : list A) v (s : Pool.pool R E Ev) res :
  Pool.inv worker items v None s ->
  Pool.settled s = Some (Pool.Fulfilled res) ->
  Pool.runners s <> [] \/ items = [] ->
  Pool.remaining worker items s = 0.
Proof.
  intros Hinv Hset Hne.
  destruct (PoolFacts.settled_fulfilled _ _ v s _ Hinv Hset Hne) as (_ & Hcl & _).
  pose proof (Pool.inv_claims _ _ _ _ _ Hinv) as Hc. rewrite Hcl in Hc.
  assert (Hlen : length (seq 0 (length items))
                 = length (seq 0 (Pool.claimed items s))) by congruence.
  rewrite !length_seq in Hlen. unfold Pool.claimed in Hlen.
  unfold Pool.settled in Hset.
  destruct (Pool.rejection s); [done|].
  destruct (forallb Pool.is_finished (Pool.runners s)) eqn:Hall; [|done].
  unfold Pool.remaining. rewrite (finished_no_steps _ Hall).
  rewrite drop_ge by lia. done.
Qed.

Section Dry.
Variable v : variant.
Variable w : world.
Variable o : Args.opts.
Variables bucket absDir : string.
Hypothesis Hdry : Args.dry o = true.

Local Abbreviation worker := (upload v w o bucket absDir).

Lemma upload_dry_no_put rel :
  Forall (fun e => is_put e = false) (Pool.call_events worker rel).
Proof.
  unfold Pool.call_events, upload. rewrite Hdry.
  destruct (readFileSync w _); cbn; repeat constructor.
Qed.

Lemma upload_dry_readable rel :
  readable w absDir rel ->
  Pool.call_events worker rel = [dry_line v w o absDir rel]
  /\ Pool.fulfils worker rel
  /\ Pool.task_steps (snd (worker rel)) = 1.
Proof.
  unfold readable, Pool.call_events, Pool.fulfils, Pool.value_of, dry_line, upload.
  rewrite Hdry. intros [data ->]. cbn. eauto.
Qed.

Lemma upload_dry_fulfils rel :
  Pool.fulfils worker rel -> readable w absDir rel.
Proof.
  unfold readable, Pool.fulfils, Pool.value_of, upload. rewrite Hdry.
  destruct (readFileSync w _); cbn; [eauto|]. by intros [? ?].
Qed.

Lemma dry_total entries :
  Forall (readable w absDir) entries ->
  Pool.total_steps worker entries = length entries
  /\ Forall (Pool.fulfils worker) entries
  /\ flat_map (Pool.call_events worker) entries
     = dry_line v w o absDir <$> entries.
Proof.
  induction 1 as [|rel es Hrel Hes (IH1 & IH2 & IH3)]; [done|].
  destruct (upload_dry_readable rel Hrel) as (Hc & Hf & Hst).
  change (Pool.total_steps worker (rel :: es))
    with (Pool.task_steps (worker rel).2 + Pool.total_steps worker es).
  change (flat_map (Pool.call_events worker) (rel :: es))
    with (Pool.call_events worker rel ++ flat_map (Pool.call_events worker) es).
  rewrite Hst, Hc, IH1, IH3.
  split; [done|]. split; [by constructor|done].
Qed.

End Dry.

Lemma main_exited_no_put v w code log :
  main v w = Exited code log -> Forall (fun e => is_put e = false) log.
Proof.
  unfold main. destruct (Args.parseArgs (argv w)) as [o|].
  2:{ intros [= <- <-]. by repeat constructor. }
  destruct (unset (S3_BUCKET w) || unset (AWS_REGION w)).
  { intros [= <- <-]. by repeat constructor. }
  destruct (glob w _) as [[|rel es]|].
  - intros [= <- <-]. by repeat constructor.
  - destruct (Pool.start _ _ _ _); [done|].
    intros [= <- <-]. by repeat constructor.
  - intros [= <- <-]. by repeat constructor.
Qed.

End DryRun.

(** C6, amended: in every run with the dry flag set no object is ever put
    to the store. With a concurrency of at least 1, a run that ends with
    exit status 0 has logged the announcement, one dry-run line per listed
    file, in some order, and the final line, and nothing else. If moreover
    every listed file can be read when its worker gets to it, every run
    ends so, after one resumption per file; until then some step can be
    taken. *)
Theorem dry_run (v : variant) (w : Sync.world) (o : Args.opts) :
  Args.parseArgs (Sync.argv w) = Some o -> Args.dry o = true ->
  forall acts st,
    Sync.run v w acts (Sync.main v w) = Some st ->
    Forall (fun e => Sync.is_put e = false) (Sync.log_of st)
    /\ forall o' bucket absDir entries log0 p0 C,
         Sync.main v w = Sync.Uploading o' bucket absDir entries log0 p0 ->
         Args.concurrency o = Js.Int C -> (1 <= C)%Z ->
         (forall log,
            st = Sync.Exited 0 log ->
            exists lines,
              log = log0 ++ lines ++ [Sync.LogDone]
              /\ lines ≡ₚ Sync.dry_line v w o absDir <$> entries)
         /\ (Forall (Sync.readable w absDir) entries ->
             length acts <= length entries + 1
             /\ (length acts < length entries + 1 ->
                 exists a st', Sync.step v w a st = Some st')
             /\ (length acts = length entries + 1 ->
                 exists log, st = Sync.Exited 0 log)).
Proof.
  intros Hparse Hdry acts st Hrun.
  destruct (Sync.main v w) as [code log|o' bucket absDir entries log0 p0] eqn:Hmain.
  { split; [|done]. destruct acts as [|a acts]; [|done]. injection Hrun as <-.
    by eapply DryRun.main_exited_no_put. }
  pose proof Hmain as Hm.
  apply SyncFacts.main_uploading in Hm as (Hparse' & Hne & _ & Hlog0 & Hs).
  assert (o' = o) as -> by congruence.
  pose proof (PoolFacts.start_inv _ _ _ _ _ Hs) as Hinv0.
  assert (Hnp : forall p, Pool.inv (Sync.upload v w o bucket absDir) entries v None p ->
                 Forall (fun e => Sync.is_put e = false) (log0 ++ Pool.trace p)).
  { intros p Hinv. apply Forall_app. split; [subst log0; by repeat constructor|].
    eapply DryRun.trace_from_calls; [done|].
    intros rel _. by apply DryRun.upload_dry_no_put. }
  apply SyncFacts.run_cases in Hrun
    as [(sched & p & -> & Hex & ->)|(sched & p & -> & Hex & Hst)];
    pose proof (PoolFacts.exec_inv _ _ _ _ _ _ Hinv0 Hex) as Hinv.
  - (* still uploading *)
    split; [by apply Hnp|].
    intros ? ? ? ? ? ? C [= <- <- <- <- <- <-] HC HC1.
    split; [done|]. intros Hread.
    rewrite HC in Hs. rewrite length_fmap.
    destruct (DryRun.dry_total v w o bucket absDir Hdry entries Hread)
      as (Htot & Hok & _).
    destruct (PoolFacts.run_to_completion _ _ v C p0 sched p HC1 Hs Hex Hok)
      as (Hle & Hlt & Heq).
    rewrite Htot in *. split; [lia|]. split; [|lia].
    intros _. destruct (decide (length sched < length entries)) as [Hl|Hl].
    + destruct (Hlt Hl) as (k & p' & Hf). exists (Sync.Resume k). cbn. rewrite Hf. eauto.
    + exists Sync.Finish. cbn. rewrite Heq by lia. eauto.
  - (* main has ended *)
    cbn in Hst.
    destruct (Pool.settled p) as [[res|e]|] eqn:Hset; [| |done]; injection Hst as <-.
    + split.
      { cbn. rewrite app_assoc. apply Forall_app. split; [by apply Hnp|by repeat constructor]. }
      intros ? ? ? ? ? ? C [= <- <- <- <- <- <-] HC HC1.
      rewrite HC in Hs.
      pose proof (PoolFacts.runners_nonempty _ _ v C p0 sched p HC1 Hs Hex) as Hrn.
      destruct (PoolFacts.settled_fulfilled _ _ v p _ Hinv Hset Hrn)
        as (_ & Hcl & _ & Hok).
      assert (Hread : Forall (Sync.readable w absDir) entries).
      { eapply Forall_impl; [exact Hok|]. intros rel.
        by apply DryRun.upload_dry_fulfils. }
      destruct (DryRun.dry_total v w o bucket absDir Hdry entries Hread)
        as (Htot & _ & Hlines).
      split.
      * intros log [= <-]. exists (Pool.trace p). split; [done|].
        pose proof (Pool.inv_events _ _ _ _ _ Hinv) as Hev.
        unfold Pool.settled in Hset.
        destruct (Pool.rejection p); [done|].
        destruct (forallb Pool.is_finished (Pool.runners p)) eqn:Hall; [|done].
        rewrite (DryRun.finished_no_pending _ Hall), app_nil_r in Hev.
        rewrite take_ge in Hev; [by rewrite Hev, <- Hlines|].
        pose proof (Pool.inv_claims _ _ _ _ _ Hinv) as Hc. rewrite Hcl in Hc.
        assert (Hlen : length (seq 0 (length entries))
                       = length (seq 0 (Pool.claimed entries p))) by congruence.
        rewrite !length_seq in Hlen. unfold Pool.claimed in Hlen. lia.
      * intros _. rewrite length_app, length_fmap. cbn.
        pose proof (DryRun.settled_remaining _ _ v p _ Hinv Hset Hrn) as Hrem.
        pose proof (PoolFacts.start_remaining _ _ _ _ _ Hs) as Hr0.
        pose proof (PoolFacts.exec_remaining _ _ _ _ _ _ Hex) as Hr.
        rewrite Htot in *. split; [lia|]. split; [lia|]. eauto.
    + split.
      { cbn. rewrite app_assoc. apply Forall_app. split; [by apply Hnp|by repeat constructor]. }
      intros ? ? ? ? ? ? C [= <- <- <- <- <- <-] HC HC1.
      split; [done|]. intros Hread. exfalso.
      destruct (DryRun.dry_total v w o bucket absDir Hdry entries Hread)
        as (_ & Hok & _).
      destruct (PoolFacts.no_failure _ _ v p Hinv Hok) as [Hr _].
      unfold Pool.settled in Hset. by rewrite Hr in Hset;
        destruct (forallb Pool.is_finished (Pool.runners p)).
Qed.

(** C8, amended: a concurrency of 0 or less is not rejected when the job is
    built. [parseArgs] checks the directory only and returns the job as
    parsed; with the environment set and files found, [main] goes on to
    the enumeration and announces the upload, and then no worker is
    started: the uploader begins with no runner, nothing handed out and
    nothing done, or, in V2 with a negative concurrency, [new Array] throws
    before any runner exists. *)
Theorem nonpositive_concurrency_accepted (v : variant) (w : Sync.world) (C : Z) :
  Args.no_dir (Args.parse (Sync.argv w) Args.defaults) = false ->
  Args.concurrency (Args.parse (Sync.argv w) Args.defaults) = Js.Int C ->
  (C <= 0)%Z ->
  Args.parseArgs (Sync.argv w) = Some (Args.parse (Sync.argv w) Args.defaults)
  /\ forall entries,
       Sync.unset (Sync.S3_BUCKET w) || Sync.unset (Sync.AWS_REGION w) = false ->
       Sync.glob w (Sync.path_resolve w (Sync.cwd w)
                      (default EmptyString
                         (Args.dir (Args.parse (Sync.argv w) Args.defaults))))
       = Some entries ->
       entries <> [] ->
       (exists o bucket absDir p0,
           Sync.main v w
           = Sync.Uploading o bucket absDir entries
               [Sync.LogUploading (length entries) bucket (Args.prefix o)] p0
           /\ Pool.runners p0 = [] /\ Pool.claims p0 = [] /\ Pool.trace p0 = [])
       \/ (v = V2 /\ (C < 0)%Z
           /\ exists bucket prefix,
               Sync.main v w
               = Sync.Exited 1 [Sync.LogUploading (length entries) bucket prefix;
                                Sync.ErrCaught Sync.InvalidArrayLength]).
Proof.
  intros Hdir HC Hle.
  assert (Hp : Args.parseArgs (Sync.argv w)
               = Some (Args.parse (Sync.argv w) Args.defaults)).
  { unfold Args.parseArgs. by rewrite Hdir. }
  split; [done|]. intros entries Henv Hglob Hne.
  unfold Sync.main. rewrite Hp, Henv, Hglob.
  destruct entries as [|rel es]; [done|].
  unfold Pool.start, Pool.runner_count. rewrite HC.
  destruct v; cbn [Js.math_min Js.to_length Js.new_array_length].
  - left. replace (Z.to_nat (C `min` Z.of_nat (length (rel :: es)))) with 0 by lia.
    eexists _, _, _, _. split; [done|]. done.
  - destruct (0 <=? C `min` Z.of_nat (length (rel :: es)))%Z eqn:H0.
    + left. apply Z.leb_le in H0.
      replace (Z.to_nat (C `min` Z.of_nat (length (rel :: es)))) with 0 by lia.
      eexists _, _, _, _. split; [done|]. done.
    + right. apply Z.leb_gt in H0. split; [done|]. split; [lia|].
      eexists _, _. done.
Qed.

(* ===================================================================== *)
(** * Concrete runs *)
(* ===================================================================== *)

(** C1, as stated, fails: with one runner and the first of three files
    deleted after the enumeration, the runner throws on index 0. Nothing
    can be resumed after that: indices 1 and 2 are never handed out, no
    slot is filled, and [limitConcurrency] rejects instead of returning
    three results. *)
Lemma deleted_file_skips_the_rest :
  exists s0 s,
    Sync.main V1 Examples.first_deleted
    = Sync.Uploading Examples.first_deleted_opts "bucket" "/home/u/d"
        Examples.three_files [Sync.LogUploading 3 "bucket" ""] s0
    /\ Pool.start Examples.first_deleted_worker Examples.three_files V1 (Js.Int 1)
       = Some s0
    /\ Pool.exec Examples.first_deleted_worker Examples.three_files V1 [0] s0 = Some s
    /\ (forall k, Pool.fire Examples.first_deleted_worker Examples.three_files V1 k s
                  = None)
    /\ Pool.claims s = [(0, 0)]
    /\ Pool.results s = [None; None; None]
    /\ Pool.settled s = Some (Pool.Rejected (Sync.ReadFailed "/home/u/d/a.txt")).
Proof.
  eexists _, _. split; [vm_compute; reflexivity|].
  split; [vm_compute; reflexivity|]. split; [vm_compute; reflexivity|].
  split; [|by vm_compute].
  intros [|[|k]]; reflexivity.
Qed.

(** Three items whose calls fulfil, two runners, one schedule: the call
    returns with the indices 0, 1, 2 handed out once each. *)
Lemma claims_exactly_once_witness :
  (1 <= 2)%Z
  /\ Forall (Pool.fulfils Examples.times_ten) [1; 2; 3]
  /\ exists s0 s res,
       Pool.start Examples.times_ten [1; 2; 3] V1 (Js.Int 2) = Some s0
       /\ Pool.exec Examples.times_ten [1; 2; 3] V1 [0; 0; 1; 1; 0; 0] s0 = Some s
       /\ Pool.settled s = Some (Pool.Fulfilled res)
       /\ (Pool.claims s).*2 = [0; 1; 2]
       /\ length res = 3.
Proof.
  assert (H1 : (1 <= 2)%Z) by lia.
  assert (Hok : Forall (Pool.fulfils Examples.times_ten) [1; 2; 3]).
  { repeat constructor; eexists; reflexivity. }
  split; [exact H1|]. split; [exact Hok|].
  destruct (claims_exactly_once Examples.times_ten [1; 2; 3] V1 2 H1)
    as (s0 & Hs & Hall).
  pose proof Hs as Hs'. vm_compute in Hs'. injection Hs' as Hs0.
  destruct (Pool.exec Examples.times_ten [1; 2; 3] V1 [0; 0; 1; 1; 0; 0] s0)
    as [s|] eqn:Hex; [|rewrite <- Hs0 in Hex; vm_compute in Hex; discriminate].
  destruct (Hall _ s Hex) as (_ & _ & Hret & Hc).
  destruct (Hc Hok) as (_ & _ & Hfin).
  destruct (Hfin eq_refl) as (res & Hset).
  destruct (Hret res Hset) as (Hcl & Hlen & _).
  eexists _, s, res. split; [exact Hs|]. split; [exact Hex|].
  split; [exact Hset|]. split; [exact Hcl | exact Hlen].
Defined.

(** C2, as stated, fails. In Scenario D the three runners start at once;
    the read of the deleted file throws in the call itself, so its runner
    is the first that can be resumed, and it throws. [main] then ends in
    its [catch]: the exit status is 1, but no success line was logged for
    the two other files, whose requests had only been started, and no
    result was stored for any file. With one runner and the first file
    deleted, the runner claims nothing after its failure and the run ends
    without the two other files having been touched. *)
Lemma scenario_D_aborts :
  (exists log,
      Sync.run V1 Examples.scenario_D [Sync.Resume 1; Sync.Finish]
        (Sync.main V1 Examples.scenario_D)
      = Some (Sync.Exited 1 log)
      /\ log = [Sync.LogUploading 3 "bucket" "";
                Sync.Put "bucket" "a.txt" [Byte.x61; Byte.x62; Byte.x63]
                  "application/octet-stream";
                Sync.Put "bucket" "c.txt" [Byte.x61; Byte.x62; Byte.x63]
                  "application/octet-stream";
                Sync.ErrCaught (Sync.ReadFailed "/home/u/d/b.txt")]
      /\ List.filter Sync.is_put_line log = [])
  /\ (exists o bucket absDir entries log0 p,
         Sync.run V1 Examples.scenario_D [Sync.Resume 1]
           (Sync.main V1 Examples.scenario_D)
         = Some (Sync.Uploading o bucket absDir entries log0 p)
         /\ Pool.results p = [None; None; None]
         /\ Pool.runners p !! 1
            = Some (Pool.Failed (Sync.ReadFailed "/home/u/d/b.txt")))
  /\ Sync.run V1 Examples.first_deleted [Sync.Resume 0; Sync.Finish]
       (Sync.main V1 Examples.first_deleted)
     = Some (Sync.Exited 1
               [Sync.LogUploading 3 "bucket" "";
                Sync.ErrCaught (Sync.ReadFailed "/home/u/d/a.txt")])
  /\ Sync.run V1 Examples.first_deleted [Sync.Resume 0; Sync.Resume 0]
       (Sync.main V1 Examples.first_deleted)
     = None.
Proof.
  split; [|split; [|split]].
  - eexists. split; [vm_compute; reflexivity|]. split; reflexivity.
  - eexists _, _, _, _, _, _. split; [vm_compute; reflexivity|].
    split; reflexivity.
  - vm_compute. reflexivity.
  - vm_compute. reflexivity.
Qed.

(** Scenario D: the runner of the deleted file throws when it is resumed
    and has claimed nothing more. *)
Lemma failure_ends_the_run_witness :
  exists o bucket absDir entries log0 p0 p',
    Sync.main V1 Examples.scenario_D
    = Sync.Uploading o bucket absDir entries log0 p0
    /\ Pool.runners p0 !! 1
       = Some (Pool.Awaiting 1
                 (Pool.Settle (Pool.Rejected (Sync.ReadFailed "/home/u/d/b.txt"))))
    /\ Pool.fire (Sync.upload V1 Examples.scenario_D o bucket absDir) entries V1 1 p0
       = Some p'
    /\ Pool.runners p' !! 1 = Some (Pool.Failed (Sync.ReadFailed "/home/u/d/b.txt"))
    /\ Pool.claims p' = Pool.claims p0.
Proof.
  pose proof (failure_ends_the_run V1 Examples.scenario_D) as H.
  destruct (Sync.main V1 Examples.scenario_D)
    as [code log|o bucket absDir entries log0 p0] eqn:Hm;
    [vm_compute in Hm; discriminate|].
  vm_compute in Hm. injection Hm as <- <- <- <- <- <-.
  destruct H as [_ H].
  destruct (H [] _ eq_refl) as (_ & Hb & _).
  destruct (Hb 1 1 (Sync.ReadFailed "/home/u/d/b.txt") eq_refl)
    as (p' & Hf & Hk & Hcl & _).
  eexists _, _, _, _, _, _, p'. split; [reflexivity|].
  split; [reflexivity|]. split; [exact Hf|]. split; [exact Hk | exact Hcl].
Defined.

(** C6, as stated, fails: in a dry run over three files of which one was
    deleted after the enumeration, two dry-run lines are logged, none for
    the deleted file, and the run ends in the [catch] of [main]. *)
Lemma dry_run_misses_deleted_file :
  exists log,
    Sync.run V2 Examples.dry_deleted
      [Sync.Resume 0; Sync.Resume 1; Sync.Resume 2; Sync.Finish]
      (Sync.main V2 Examples.dry_deleted)
    = Some (Sync.Exited 1 log)
    /\ Sync.glob Examples.dry_deleted "/home/u/d" = Some Examples.three_files
    /\ List.filter Sync.is_dry_line log
       = [Sync.LogDryPut "a.txt" 3; Sync.LogDryPut "c.txt" 3]
    /\ List.filter Sync.is_put log = [].
Proof.
  eexists. split; [vm_compute; reflexivity|]. repeat split.
Qed.

(** A dry run over three readable files, under the prefix [backup/]. *)
Lemma dry_run_witness :
  exists lines,
    Sync.run V2 Examples.dry_ok
      [Sync.Resume 0; Sync.Resume 1; Sync.Resume 2; Sync.Finish]
      (Sync.main V2 Examples.dry_ok)
    = Some (Sync.Exited 0 ([Sync.LogUploading 3 "bucket" "backup/"]
                           ++ lines ++ [Sync.LogDone]))
    /\ lines ≡ₚ [Sync.LogDryPut "backup/a.txt" 3;
                 Sync.LogDryPut "backup/sub/b.jpg" 3;
                 Sync.LogDryPut "backup/c.txt" 3].
Proof.
  destruct (Sync.run V2 Examples.dry_ok
              [Sync.Resume 0; Sync.Resume 1; Sync.Resume 2; Sync.Finish]
              (Sync.main V2 Examples.dry_ok)) as [st|] eqn:Hrun;
    [|vm_compute in Hrun; discriminate].
  destruct (dry_run V2 Examples.dry_ok
              (Args.Opts (Some "d") "backup/" true (Js.Int 5))
              eq_refl eq_refl _ st Hrun) as [_ H].
  destruct (Sync.main V2 Examples.dry_ok)
    as [code log|o bucket absDir entries log0 p0] eqn:Hm;
    [vm_compute in Hm; discriminate|].
  assert (Hread : Forall (Sync.readable Examples.dry_ok absDir) entries).
  { vm_compute in Hm. injection Hm as <- <- <- <- <- <-.
    repeat constructor; eexists; reflexivity. }
  assert (H5 : (1 <= 5)%Z) by lia.
  destruct (H o bucket absDir entries log0 p0 5%Z eq_refl eq_refl H5)
    as (Hlog & Hend).
  destruct (Hend Hread) as (_ & _ & Hexit).
  vm_compute in Hm. injection Hm as <- <- <- <- <- <-.
  destruct (Hexit eq_refl) as (log & ->).
  destruct (Hlog log eq_refl) as (lines & -> & Hlines).
  exists lines. split; [reflexivity | exact Hlines].
Defined.

(** C8, as stated, fails: [--concurrency 0] is accepted by [parseArgs];
    [main] enumerates, announces one file, starts no worker and ends with
    ['Done.'] and exit status 0. *)
Lemma zero_concurrency_not_rejected :
  Args.parseArgs (Sync.argv Examples.zero_concurrency)
  = Some (Args.Opts (Some "d") "" false (Js.Int 0))
  /\ Sync.run V1 Examples.zero_concurrency [Sync.Finish]
       (Sync.main V1 Examples.zero_concurrency)
     = Some (Sync.Exited 0 [Sync.LogUploading 1 "bucket" ""; Sync.LogDone]).
Proof. split; vm_compute; reflexivity. Qed.

(** [--concurrency -2] passes [parseArgs]. *)
Lemma nonpositive_concurrency_accepted_witness :
  Args.no_dir (Args.parse (Sync.argv Examples.negative_concurrency) Args.defaults)
  = false
  /\ Args.concurrency (Args.parse (Sync.argv Examples.negative_concurrency)
                         Args.defaults) = Js.Int (-2)
  /\ (-2 <= 0)%Z
  /\ Args.parseArgs (Sync.argv Examples.negative_concurrency)
     = Some (Args.parse (Sync.argv Examples.negative_concurrency) Args.defaults).
Proof.
  assert (H : (-2 <= 0)%Z) by lia.
  split; [reflexivity|]. split; [reflexivity|]. split; [exact H|].
  exact (proj1 (nonpositive_concurrency_accepted V2 Examples.negative_concurrency
                  (-2) eq_refl eq_refl H)).
Defined.

(** Concurrency 100 against three items: at most three runners. *)
(** Three items, two runners: slot 1 of the returned array holds the value
    of the call on the second item, though runner 1 ran ahead of runner 0. *)
Lemma results_follow_items_witness :
  (1 <= 2)%Z
  /\ exists s0 s res r,
       Pool.start Examples.times_ten [1; 2; 3] V2 (Js.Int 2) = Some s0
       /\ Pool.exec Examples.times_ten [1; 2; 3] V2 [1; 1; 1; 1; 0; 0] s0 = Some s
       /\ Pool.settled s = Some (Pool.Fulfilled res)
       /\ res !! 1 = Some (Some r)
       /\ Pool.final (snd (Examples.times_ten 2)) = Pool.Fulfilled r.
Proof.
  assert (H1 : (1 <= 2)%Z) by lia.
  split; [exact H1|].
  destruct (results_follow_items Examples.times_ten [1; 2; 3] V2 2 H1)
    as (s0 & Hs & Hall).
  pose proof Hs as Hs'. vm_compute in Hs'. injection Hs' as Hs0.
  destruct (Pool.exec Examples.times_ten [1; 2; 3] V2 [1; 1; 1; 1; 0; 0] s0)
    as [s|] eqn:Hex; [|rewrite <- Hs0 in Hex; vm_compute in Hex; discriminate].
  destruct (Pool.settled s) as [[res|e]|] eqn:Hset;
    [|rewrite <- Hs0 in Hex; vm_compute in Hex; injection Hex as <-;
      vm_compute in Hset; discriminate
     |rewrite <- Hs0 in Hex; vm_compute in Hex; injection Hex as <-;
      vm_compute in Hset; discriminate].
  destruct (Hall _ s Hex) as (Hres & _).
  destruct (Hres res Hset) as (_ & Hidx).
  destruct (Hidx 1 2 eq_refl) as (r & Hr & Hfin).
  eexists _, s, res, r. split; [exact Hs|]. split; [exact Hex|].
  split; [exact Hset|]. split; [exact Hr | exact Hfin].
Defined.

(** C10, as stated, fails for a limit below 1. With limit 0 and one item
    neither variant starts a runner, but V1 returns the array it created
    with one hole and V2 the empty array it started from. With limit -1,
    V1 again returns its array of holes, while in V2 [new Array(-1)]
    throws. *)
Lemma variants_differ_below_1 :
  Pool.settled <$> Pool.start Examples.times_ten [1] V1 (Js.Int 0)
  = Some (Some (Pool.Fulfilled [None]))
  /\ Pool.settled <$> Pool.start Examples.times_ten [1] V2 (Js.Int 0)
     = Some (Some (Pool.Fulfilled []))
  /\ Pool.settled <$> Pool.start Examples.times_ten [1] V1 (Js.Int (-1))
     = Some (Some (Pool.Fulfilled [None]))
  /\ Pool.start Examples.times_ten [1] V2 (Js.Int (-1)) = None.
Proof. repeat split. Qed.

(** Both variants start two runners on three items, one of which makes
    the worker reject. *)
Lemma variants_agree_witness :
  (1 <= 2)%Z
  /\ exists s1 s2,
       Pool.start Examples.times_ten [1; 7; 3] V1 (Js.Int 2) = Some s1
       /\ Pool.start Examples.times_ten [1; 7; 3] V2 (Js.Int 2) = Some s2
       /\ length (Pool.runners s1) = length (Pool.runners s2).
Proof.
  assert (H1 : (1 <= 2)%Z) by lia.
  split; [exact H1|].
  destruct (variants_agree Examples.times_ten [1; 7; 3] 2 H1)
    as (s1 & s2 & Hs1 & Hs2 & Hlen & _).
  exists s1, s2. split; [exact Hs1|]. split; [exact Hs2 | exact Hlen].
Defined.

(* ===================================================================== *)
(** * Further properties *)
(* ===================================================================== *)

Module KeyMore.
Import Str KeyMapper More.

Lemma append_inj_l a b c : a +:+ b = a +:+ c -> b = c.
Proof.
  induction a as [|x a IH]; [done|].
  change (String x (a +:+ b) = String x (a +:+ c) -> b = c).
  intros [= H]. by apply IH.
Qed.

Lemma contains_app c a b : contains c (a +:+ b) = contains c a || contains c b.
Proof.
  induction a as [|x a IH]; [done|].
  change (contains c (String x (a +:+ b)) = contains c (String x a) || contains c b).
  cbn. rewrite IH. by rewrite orb_assoc.
Qed.

Lemma replace_backslash_clean s : contains "\" (replace_backslash s) = false.
Proof.
  induction s as [|c r IH]; [done|].
  cbn. rewrite IH, orb_false_r. unfold is_backslash.
  destruct (Ascii.eqb c "\") eqn:E; [done|exact E].
Qed.

Lemma replace_backslash_id s :
  contains "\" s = false -> replace_backslash s = s.
Proof.
  induction s as [|c r IH]; [done|].
  cbn. intros [Hc Hr]%orb_false_elim. unfold is_backslash.
  rewrite Hc, IH by done. done.
Qed.

Lemma only_slashes_clean s : only_slashes s = true -> contains "\" s = false.
Proof.
  induction s as [|c r IH]; [done|].
  cbn. intros [Hc Hr]%andb_prop. rewrite IH by done.
  unfold is_slash in Hc. apply Ascii.eqb_eq in Hc as ->. done.
Qed.

Lemma skip_slashes_contains s :
  contains "\" (skip_slashes s) = contains "\" s.
Proof.
  induction s as [|c r IH]; [done|].
  cbn. destruct (is_slash c) eqn:Hc; [|done].
  unfold is_slash in Hc. apply Ascii.eqb_eq in Hc as ->. by rewrite IH.
Qed.

Lemma replace_trailing_contains s :
  contains "\" (replace_trailing s) = contains "\" s.
Proof.
  induction s as [|c r IH]; [done|].
  cbn [replace_trailing matches_trailing].
  destruct (only_slashes (String c r)) eqn:Hos.
  - symmetry. by apply only_slashes_clean.
  - cbn. by rewrite IH.
Qed.

Lemma only_slashes_ends s :
  only_slashes s = true -> s <> "" -> ends_with_slash s = true.
Proof.
  induction s as [|c r IH]; [done|]. intros [Hc Hr]%andb_prop _.
  destruct r as [|d r']; [exact Hc|]. by apply IH.
Qed.

Lemma replace_trailing_id s :
  ends_with_slash s = false -> replace_trailing s = s.
Proof.
  induction s as [|c r IH]; [done|]. intros He.
  cbn [replace_trailing matches_trailing].
  destruct (only_slashes (String c r)) eqn:Hos.
  - rewrite only_slashes_ends in He; done.
  - f_equal. destruct r as [|d r']; [done|]. by apply IH.
Qed.

Lemma skip_slashes_id s : starts_with_slash s = false -> skip_slashes s = s.
Proof. destruct s as [|c r]; [done|]. cbn. by intros ->. Qed.

End KeyMore.

Module KeyMore2.
Import Str KeyMapper More KeyMore.

Lemma path_part_replace v rel : path_part v rel = replace_backslash rel.
Proof. destruct v; [apply StrFacts.join_split_backslash|done]. Qed.

Lemma replace_backslash_fixed s :
  replace_backslash s = s <-> contains "\" s = false.
Proof.
  split; [|apply replace_backslash_id].
  intros <-. apply replace_backslash_clean.
Qed.

Lemma prefix_part_contains X :
  contains "\" (prefix_part X) = contains "\" X.
Proof.
  unfold prefix_part. destruct (truthy X) eqn:HX.
  - rewrite contains_app. cbn. rewrite orb_false_r.
    unfold replace_edge_slashes.
    by rewrite replace_trailing_contains, skip_slashes_contains.
  - by destruct X.
Qed.

Lemma key_contains v X P : contains "\" (key v X P) = contains "\" X.
Proof.
  unfold key. rewrite contains_app, prefix_part_contains.
  rewrite path_part_replace, replace_backslash_clean.
  apply orb_false_r.
Qed.

End KeyMore2.

(** X1. The two variants of the script compute the same object key for
    every prefix and every relative path: splitting at backslashes and
    joining with slashes (first variant) is the global replacement of the
    second. *)
Theorem key_same_in_both_variants (prefix rel : string) :
  key V1 prefix rel = key V2 prefix rel.
Proof. unfold key. by rewrite !KeyMore2.path_part_replace. Qed.

(** X2. Backslashes of the relative path never reach the key, those of the
    prefix always do: a key contains a backslash exactly when the prefix
    does. *)
Theorem key_backslash_only_from_prefix (v : variant) (prefix rel : string) :
  More.contains "\" (path_part v rel) = false /\
  More.contains "\" (key v prefix rel) = More.contains "\" prefix.
Proof.
  rewrite KeyMore2.path_part_replace. split.
  - apply KeyMore.replace_backslash_clean.
  - apply KeyMore2.key_contains.
Qed.

(** X3. Normal forms.  Normalising a path twice, in either variant, and
    stripping the slashes of a prefix twice change nothing more; and a key
    mapped again with the empty prefix is unchanged exactly when the prefix
    it was built with has no backslash. *)
Theorem key_normal_forms (v w : variant) (prefix rel : string) :
  path_part w (path_part v rel) = path_part v rel /\
  Str.replace_edge_slashes (Str.replace_edge_slashes prefix)
  = Str.replace_edge_slashes prefix /\
  (key w "" (key v prefix rel) = key v prefix rel
   <-> More.contains "\" prefix = false).
Proof.
  split; [|split].
  - rewrite !KeyMore2.path_part_replace.
    apply KeyMore.replace_backslash_id, KeyMore.replace_backslash_clean.
  - unfold replace_edge_slashes at 1.
    rewrite KeyMore.skip_slashes_id
      by apply KeyMapperJoin.replace_edge_slashes_start.
    apply KeyMore.replace_trailing_id, KeyMapperJoin.replace_edge_slashes_end.
  - change (key w "" (key v prefix rel)) with (path_part w (key v prefix rel)).
    rewrite KeyMore2.path_part_replace, KeyMore2.replace_backslash_fixed.
    by rewrite KeyMore2.key_contains.
Qed.

(** X4. Collisions.  Under one prefix two relative paths get the same key
    exactly when they are equal once their backslashes are replaced; so two
    different paths without backslashes never share a key. *)
Theorem key_collisions (v : variant) (prefix P Q : string) :
  (key v prefix P = key v prefix Q
   <-> Str.replace_backslash P = Str.replace_backslash Q) /\
  (More.contains "\" P = false -> More.contains "\" Q = false ->
   key v prefix P = key v prefix Q -> P = Q).
Proof.
  assert (H : key v prefix P = key v prefix Q
              <-> replace_backslash P = replace_backslash Q).
  { unfold key. rewrite !KeyMore2.path_part_replace. split.
    - apply KeyMore.append_inj_l.
    - by intros ->. }
  split; [exact H|]. intros HP HQ HK. apply H in HK.
  by rewrite !KeyMore.replace_backslash_id in HK.
Qed.

Lemma key_collisions_witness :
  key V1 "/docs/" "a/b.txt" = key V1 "/docs/" "a\b.txt".
Proof.
  apply (proj1 (key_collisions V1 "/docs/" "a/b.txt" "a\b.txt")).
  reflexivity.
Defined.

Module ArgsMore.
Import Args More.

Lemma args_ind2 (P : list string -> Prop) :
  P [] -> (forall a, P [a]) ->
  (forall a x rest, P rest -> P (x :: rest) -> P (a :: x :: rest)) ->
  forall l, P l.
Proof.
  intros H0 H1 H2.
  assert (H : forall l, P l /\ forall a, P (a :: l)).
  { induction l as [|x l [IH1 IH2]]; [by split|].
    split; [apply IH2|]. intros a. by apply H2. }
  intros l. apply H.
Qed.

Ltac flag a s := destruct (String.eqb a s) eqn:?.

Lemma parse_cons a rest out :
  parse (a :: rest) out =
  if String.eqb a "--dir" then
    match rest with
    | x :: rest' => parse rest' (Opts (Some x) (prefix out) (dry out) (concurrency out))
    | [] => Opts None (prefix out) (dry out) (concurrency out)
    end
  else if String.eqb a "--prefix" then
    match rest with
    | x :: rest' =>
        parse rest' (Opts (dir out) (or_else (Some x) "") (dry out) (concurrency out))
    | [] => Opts (dir out) (or_else None "") (dry out) (concurrency out)
    end
  else if String.eqb a "--dry" then
    parse rest (Opts (dir out) (prefix out) true (concurrency out))
  else if String.eqb a "--concurrency" then
    match rest with
    | x :: rest' =>
        parse rest' (Opts (dir out) (prefix out) (dry out)
                          (parseInt (or_else (Some x) "5")))
    | [] => Opts (dir out) (prefix out) (dry out) (parseInt (or_else None "5"))
    end
  else parse rest out.
Proof. done. Qed.

Ltac parse_cases a :=
  rewrite !(parse_cons a);
  flag a "--dir"; [|flag a "--prefix";
    [|flag a "--dry"; [|flag a "--concurrency"]]].

Lemma not_elem_cons (a x : string) l :
  a ∉ x :: l -> (String.eqb x a = false) /\ a ∉ l.
Proof.
  intros H. split.
  - apply String.eqb_neq. intros ->. apply H. by left.
  - intros Hin. apply H. by right.
Qed.

Lemma parse_dir args : forall out,
  "--dir" ∉ args -> dir (parse args out) = dir out.
Proof.
  induction args as [|a|a x rest IH1 IH2] using args_ind2; intros out Hn; [done|..].
  - apply not_elem_cons in Hn as [Ha _]. parse_cases a; try done; congruence.
  - apply not_elem_cons in Hn as [Ha Hn]. pose proof Hn as [_ Hn']%not_elem_cons.
    parse_cases a; try congruence; rewrite ?IH1, ?IH2 by done; done.
Qed.

Lemma parse_prefix args : forall out,
  "--prefix" ∉ args -> prefix (parse args out) = prefix out.
Proof.
  induction args as [|a|a x rest IH1 IH2] using args_ind2; intros out Hn; [done|..].
  - apply not_elem_cons in Hn as [Ha _]. parse_cases a; try done; congruence.
  - apply not_elem_cons in Hn as [Ha Hn]. pose proof Hn as [_ Hn']%not_elem_cons.
    parse_cases a; try congruence; rewrite ?IH1, ?IH2 by done; done.
Qed.

Lemma parse_dry args : forall out,
  "--dry" ∉ args -> dry (parse args out) = dry out.
Proof.
  induction args as [|a|a x rest IH1 IH2] using args_ind2; intros out Hn; [done|..].
  - apply not_elem_cons in Hn as [Ha _]. parse_cases a; try done; congruence.
  - apply not_elem_cons in Hn as [Ha Hn]. pose proof Hn as [_ Hn']%not_elem_cons.
    parse_cases a; try congruence; rewrite ?IH1, ?IH2 by done; done.
Qed.

Lemma parse_concurrency args : forall out,
  "--concurrency" ∉ args -> concurrency (parse args out) = concurrency out.
Proof.
  induction args as [|a|a x rest IH1 IH2] using args_ind2; intros out Hn; [done|..].
  - apply not_elem_cons in Hn as [Ha _]. parse_cases a; try done; congruence.
  - apply not_elem_cons in Hn as [Ha Hn]. pose proof Hn as [_ Hn']%not_elem_cons.
    parse_cases a; try congruence; rewrite ?IH1, ?IH2 by done; done.
Qed.

Lemma parse_app a1 : forall a2 out,
  complete a1 = true -> parse (a1 ++ a2) out = parse a2 (parse a1 out).
Proof.
  induction a1 as [|a|a x rest IH1 IH2] using args_ind2; intros a2 out Hc; [done|..].
  - cbn in Hc. unfold takes_value in Hc.
    change ([a] ++ a2) with (a :: a2).
    parse_cases a; cbn in Hc; done.
  - change ((a :: x :: rest) ++ a2) with (a :: (x :: rest) ++ a2).
    change (complete (a :: x :: rest))
      with (if takes_value a then complete rest else complete (x :: rest)) in Hc.
    unfold takes_value in Hc. rewrite !(parse_cons a).
    change ((x :: rest) ++ a2) with (x :: rest ++ a2) at 1 2 4.
    destruct (String.eqb a "--dir") eqn:E1; [by apply IH1|].
    destruct (String.eqb a "--prefix") eqn:E2; [by apply IH1|].
    destruct (String.eqb a "--dry") eqn:E3.
    { apply String.eqb_eq in E3 as ->.
      change (String.eqb "--dry" "--concurrency") with false in Hc.
      by apply IH2. }
    destruct (String.eqb a "--concurrency") eqn:E4; [by apply IH1|].
    by apply IH2.
Qed.

End ArgsMore.

(** X5. Options that are not on the command line keep their defaults: when
    [parseArgs] returns options, [--dir] was among the tokens, and without
    [--prefix] the prefix is empty, without [--dry] the run is live, and
    without [--concurrency] the concurrency is 5.  Without [--dir] among
    the tokens [parseArgs] prints the usage line and exits. *)
Theorem absent_options_default (args : list string) (o : Args.opts)
  (Hparse : Args.parseArgs args = Some o) :
  "--dir" ∈ args /\
  ("--prefix" ∉ args -> Args.prefix o = "") /\
  ("--dry" ∉ args -> Args.dry o = false) /\
  ("--concurrency" ∉ args -> Args.concurrency o = Js.Int 5).
Proof.
  unfold Args.parseArgs in Hparse.
  destruct (Args.no_dir (Args.parse args Args.defaults)) eqn:Hd; [done|].
  injection Hparse as <-. split; [|split; [|split]].
  - destruct (decide ("--dir" ∈ args)) as [|Hn]; [done|].
    unfold Args.no_dir in Hd. by rewrite ArgsMore.parse_dir in Hd.
  - intros Hn. by rewrite ArgsMore.parse_prefix.
  - intros Hn. by rewrite ArgsMore.parse_dry.
  - intros Hn. by rewrite ArgsMore.parse_concurrency.
Qed.

Lemma absent_options_default_witness :
  Args.parseArgs ["--dir"; "site"] = Some (Args.Opts (Some "site") "" false (Js.Int 5)) /\
  "--dir" ∈ ["--dir"; "site"].
Proof.
  split; [reflexivity|].
  apply (absent_options_default ["--dir"; "site"]
           (Args.Opts (Some "site") "" false (Js.Int 5))).
  reflexivity.
Defined.

(** X6. The argument loop reads the command line piecewise: after tokens
    that end where an option is expected, the remaining tokens are read
    from the options reached so far.  So the last [--dir] and the last
    [--concurrency] win, and [--dry], once read, stays. *)
Theorem parse_piecewise (a1 a2 : list string) (out : Args.opts) (x : string)
  (Hcomplete : More.complete a1 = true) :
  Args.parse (a1 ++ a2) out = Args.parse a2 (Args.parse a1 out) /\
  ("--dir" ∉ a2 ->
   Args.dir (Args.parse (a1 ++ "--dir" :: x :: a2) out) = Some x) /\
  ("--concurrency" ∉ a2 ->
   Args.concurrency (Args.parse (a1 ++ "--concurrency" :: x :: a2) out)
   = Args.parseInt (Args.or_else (Some x) "5")) /\
  ("--dry" ∉ a2 -> Args.dry (Args.parse (a1 ++ "--dry" :: a2) out) = true).
Proof.
  split; [by apply ArgsMore.parse_app|]. split; [|split]; intros Hn.
  - rewrite ArgsMore.parse_app, ArgsMore.parse_cons by done.
    change (String.eqb "--dir" "--dir") with true. cbv iota.
    by rewrite ArgsMore.parse_dir.
  - rewrite ArgsMore.parse_app, ArgsMore.parse_cons by done.
    change (String.eqb "--concurrency" "--dir") with false.
    change (String.eqb "--concurrency" "--prefix") with false.
    change (String.eqb "--concurrency" "--dry") with false.
    change (String.eqb "--concurrency" "--concurrency") with true. cbv iota.
    by rewrite ArgsMore.parse_concurrency.
  - rewrite ArgsMore.parse_app, ArgsMore.parse_cons by done.
    change (String.eqb "--dry" "--dir") with false.
    change (String.eqb "--dry" "--prefix") with false.
    change (String.eqb "--dry" "--dry") with true. cbv iota.
    by rewrite ArgsMore.parse_dry.
Qed.

Lemma parse_piecewise_witness :
  Args.parse (["--dir"; "a"; "--dry"] ++ ["--prefix"; "p"]) Args.defaults
  = Args.parse ["--prefix"; "p"] (Args.parse ["--dir"; "a"; "--dry"] Args.defaults).
Proof.
  apply (parse_piecewise ["--dir"; "a"; "--dry"] ["--prefix"; "p"]
           Args.defaults "b").
  reflexivity.
Defined.

Module ParseIntMore.
Import Args More.

Lemma append_nil_r s : s +:+ "" = s.
Proof.
  induction s as [|c r IH]; [done|].
  change (String c r +:+ "") with (String c (r +:+ "")). by rewrite IH.
Qed.

Lemma length_append a b : String.length (a +:+ b) = String.length a + String.length b.
Proof.
  induction a as [|c r IH]; [done|].
  change (String c r +:+ b) with (String c (r +:+ b)). cbn. by rewrite IH.
Qed.

Lemma strip_prefix_Some p : forall s r, strip_prefix p s = Some r -> s = p +:+ r.
Proof.
  induction p as [|a p IH]; intros s r H; cbn in H.
  - by injection H as ->.
  - destruct s as [|b s]; [done|].
    destruct (Ascii.eqb a b) eqn:E; [|done]. apply Ascii.eqb_eq in E as ->.
    change (String b p +:+ r) with (String b (p +:+ r)). f_equal. by apply IH.
Qed.

Lemma strip_any_Some ps : forall s r,
  strip_any ps s = Some r -> exists c, c ∈ ps /\ s = c +:+ r.
Proof.
  induction ps as [|p ps IH]; intros s r H; cbn in H; [done|].
  destruct (strip_prefix p s) as [r'|] eqn:E.
  - injection H as ->. exists p. split; [by left|by apply strip_prefix_Some].
  - destruct (IH s r H) as (c & Hc & ->). exists c. split; [by right|done].
Qed.

(** No white-space character is the beginning of another one. *)
Lemma strip_any_white c rest :
  c ∈ white_space -> strip_any white_space (c +:+ rest) = Some rest.
Proof.
  unfold white_space. intros H.
  repeat (apply elem_of_cons in H as [->|H]; [reflexivity|]).
  by apply elem_of_nil in H.
Qed.

Lemma white_not_empty c : c ∈ white_space -> 0 < String.length c.
Proof.
  unfold white_space. intros H.
  repeat (apply elem_of_cons in H as [->|H]; [cbn; lia|]).
  by apply elem_of_nil in H.
Qed.

Lemma rounds_enough n : forall m s,
  String.length s <= n -> String.length s <= m ->
  skip_space_rounds n s = skip_space_rounds m s.
Proof.
  induction n as [|n IH]; intros m s Hn Hm.
  - destruct s; [|cbn in Hn; lia]. by destruct m.
  - destruct m as [|m]; [destruct s; [done|cbn in Hm; lia]|].
    cbn [skip_space_rounds].
    destruct (strip_any white_space s) as [r|] eqn:E; [|done].
    destruct (strip_any_Some _ _ _ E) as (c & Hc & ->).
    apply white_not_empty in Hc. rewrite length_append in Hn, Hm.
    apply IH; lia.
Qed.

Lemma skip_space_white c rest :
  c ∈ white_space -> skip_space (c +:+ rest) = skip_space rest.
Proof.
  intros Hc. unfold skip_space. pose proof (white_not_empty c Hc) as Hl.
  rewrite length_append.
  destruct (String.length c) as [|k] eqn:Hk; [lia|].
  change (S k + String.length rest) with (S (k + String.length rest)).
  cbn [skip_space_rounds]. rewrite strip_any_white by done.
  apply rounds_enough; lia.
Qed.

Lemma skip_space_join ws s :
  Forall (fun c => c ∈ white_space) ws ->
  skip_space (join_all ws +:+ s) = skip_space s.
Proof.
  induction 1 as [|c ws Hc _ IH]; [done|].
  change (join_all (c :: ws)) with (c +:+ join_all ws).
  by rewrite StrFacts.append_assoc, skip_space_white.
Qed.

Lemma skip_space_stays s : begins_with_white s = false -> skip_space s = s.
Proof.
  unfold begins_with_white, skip_space. intros H.
  destruct (String.length s); [done|]. cbn [skip_space_rounds].
  by destruct (strip_any white_space s).
Qed.

(** Every string is white-space characters followed by a string that
    begins with none, which is what [skip_space] returns. *)
Lemma skip_space_splits n : forall s,
  String.length s <= n ->
  exists ws, Forall (fun c => c ∈ white_space) ws
             /\ s = join_all ws +:+ skip_space s
             /\ begins_with_white (skip_space s) = false.
Proof.
  induction n as [|n IH]; intros s Hn.
  - destruct s; [|cbn in Hn; lia]. by exists [].
  - destruct (strip_any white_space s) as [r|] eqn:E.
    + destruct (strip_any_Some _ _ _ E) as (c & Hc & ->).
      pose proof (white_not_empty c Hc). rewrite length_append in Hn.
      destruct (IH r ltac:(lia)) as (ws & Hws & Hr & Hb).
      exists (c :: ws). rewrite skip_space_white by done.
      split; [by constructor|]. split; [|done].
      change (join_all (c :: ws)) with (c +:+ join_all ws).
      by rewrite StrFacts.append_assoc, <- Hr.
    + assert (Hb : begins_with_white s = false)
        by (unfold begins_with_white; by rewrite E).
      exists []. rewrite (skip_space_stays s Hb). done.
Qed.

End ParseIntMore.

Module ParseIntDigits.
Import Args More ParseIntMore.

Lemma sign_match (s : string) :
  match s with
  | String "-" r => (true, r)
  | String "+" r => (false, r)
  | _ => (false, s)
  end
  = match s with
    | String c r =>
        if Ascii.eqb c "-" then (true, r)
        else if Ascii.eqb c "+" then (false, r) else (false, s)
    | EmptyString => (false, s)
    end.
Proof.
  destruct s as [|c r]; [done|].
  destruct c as [[] [] [] [] [] [] [] []]; reflexivity.
Qed.

Lemma digit_digit_char d : d < 10 -> digit (digit_char d) = Some (Z.of_nat d).
Proof.
  intros Hd. do 10 (destruct d as [|d]; [reflexivity|]). lia.
Qed.

Lemma digit_char_plain d rest :
  d < 10 ->
  begins_with_white (String (digit_char d) rest) = false
  /\ begins_with_sign (String (digit_char d) rest) = false.
Proof.
  intros Hd. do 10 (destruct d as [|d]; [by split|]). lia.
Qed.

Lemma digit_inv c z : digit c = Some z -> exists d, d < 10 /\ c = digit_char d.
Proof.
  unfold digit, digit_char. intros H.
  destruct ((48 <=? nat_of_ascii c) && (nat_of_ascii c <=? 57)) eqn:E; [|done].
  apply andb_prop in E as [H1 H2].
  apply Nat.leb_le in H1, H2. exists (nat_of_ascii c - 48). split; [lia|].
  replace (48 + (nat_of_ascii c - 48)) with (nat_of_ascii c) by lia.
  by rewrite ascii_nat_embedding.
Qed.

Lemma digits_numeral ds : forall acc tail,
  Forall (fun d => d < 10) ds -> no_digit_ahead tail = true ->
  digits (Some acc) (numeral ds +:+ tail)
  = Some (fold_left (fun a d => (10 * a + Z.of_nat d)%Z) ds acc).
Proof.
  induction ds as [|d ds IH]; intros acc tail Hds Htail.
  - change (numeral [] +:+ tail) with tail.
    destruct tail as [|c r]; [done|].
    cbn in *. by destruct (digit c).
  - inversion Hds as [|? ? Hd Hds']; subst.
    change (numeral (d :: ds) +:+ tail)
      with (String (digit_char d) (numeral ds +:+ tail)).
    cbn [digits]. rewrite digit_digit_char by done.
    cbn [default fold_left]. by apply IH.
Qed.

Lemma digits_read ds tail :
  Forall (fun d => d < 10) ds -> no_digit_ahead tail = true ->
  digits None (numeral ds +:+ tail)
  = match ds with [] => None | _ => Some (numeral_value ds) end.
Proof.
  intros Hds Htail. destruct ds as [|d ds].
  - change (numeral [] +:+ tail) with tail.
    destruct tail as [|c r]; [done|]. cbn in *. by destruct (digit c).
  - inversion Hds as [|? ? Hd Hds']; subst.
    change (numeral (d :: ds) +:+ tail)
      with (String (digit_char d) (numeral ds +:+ tail)).
    cbn [digits]. rewrite digit_digit_char by done.
    cbn [default]. by apply digits_numeral.
Qed.

(** Every string is a run of digits followed by a string that does not
    go on with a digit. *)
Lemma digits_split s :
  exists ds tail, Forall (fun d => d < 10) ds
                  /\ s = numeral ds +:+ tail /\ no_digit_ahead tail = true.
Proof.
  induction s as [|c r (ds & tail & Hds & Hr & Ht)].
  - by exists [], "".
  - destruct (digit c) as [z|] eqn:Hc.
    + destruct (digit_inv c z Hc) as (d & Hd & ->).
      exists (d :: ds), tail. split; [by constructor|]. split; [|done].
      change (numeral (d :: ds) +:+ tail)
        with (String (digit_char d) (numeral ds +:+ tail)). by rewrite <- Hr.
    + exists [], (String c r). split; [done|]. split; [done|].
      cbn. by rewrite Hc.
Qed.

Lemma parseInt_join ws s :
  Forall (fun c => c ∈ white_space) ws ->
  parseInt (join_all ws +:+ s) = parseInt s.
Proof. intros H. unfold parseInt. by rewrite skip_space_join. Qed.

Lemma parseInt_signed (negative : bool) rest :
  parseInt (String (if negative then "-" else "+")%char rest)
  = match digits None rest with
    | Some n => Js.of_integer negative n
    | None => Js.NaN
    end.
Proof.
  unfold parseInt. rewrite skip_space_stays by (by destruct negative).
  by destruct negative.
Qed.

Lemma parseInt_unsigned s :
  begins_with_white s = false -> begins_with_sign s = false ->
  parseInt s
  = match digits None s with
    | Some n => Js.of_integer false n
    | None => Js.NaN
    end.
Proof.
  intros Hw Hs. unfold parseInt. rewrite skip_space_stays by done.
  rewrite sign_match. destruct s as [|c r]; [done|].
  cbn in Hs. apply orb_false_elim in Hs as [-> ->]. done.
Qed.

End ParseIntDigits.

Module JsRound.

Lemma of_integer_exact n :
  (0 < n < 2 ^ 53)%Z ->
  Js.of_integer false n = Js.Int n /\ Js.of_integer true n = Js.Int (- n).
Proof.
  intros [H0 H1]. unfold Js.of_integer.
  destruct (Z.eqb_spec n 0) as [->|_]; [lia|].
  destruct (Z.ltb_spec n (2 ^ 53)) as [_|?]; [done|lia].
Qed.

(** Above [2^53], [nearest] keeps 53 significant bits and is off by at
    most half a unit of the last bit kept; when it is off by exactly half
    a unit, the significand it keeps is even. *)
Lemma nearest_rounds n :
  (2 ^ 53 <= n)%Z ->
  let e := (Z.log2 n - 52)%Z in
  exists q,
    Js.nearest n = (q * 2 ^ e)%Z
    /\ (2 ^ 52 <= q <= 2 ^ 53)%Z
    /\ (2 * Z.abs (Js.nearest n - n) <= 2 ^ e)%Z
    /\ ((2 * Z.abs (Js.nearest n - n) = 2 ^ e)%Z -> Z.even q = true).
Proof.
  intros Hn e.
  assert (H53 : (53 <= Z.log2 n)%Z).
  { change 53%Z with (Z.log2 (2 ^ 53)). by apply Z.log2_le_mono. }
  assert (He : (1 <= e)%Z) by (subst e; lia).
  destruct (Z.log2_spec n ltac:(lia)) as [Hlo Hhi].
  replace (Z.log2 n) with (e + 52)%Z in Hlo by (subst e; lia).
  replace (Z.succ (Z.log2 n)) with (e + 53)%Z in Hhi by (subst e; lia).
  rewrite Z.pow_add_r in Hlo, Hhi by lia.
  assert (Hpe : (2 ^ e = 2 * 2 ^ (e - 1))%Z).
  { rewrite <- Z.pow_succ_r by lia. f_equal. lia. }
  assert (Hpos : (0 < 2 ^ (e - 1))%Z) by (apply Z.pow_pos_nonneg; lia).
  unfold Js.nearest. fold e.
  destruct (Z.leb_spec e 0) as [?|_]; [lia|].
  rewrite Z.shiftr_div_pow2, Z.land_ones, !Z.shiftl_mul_pow2 by lia.
  rewrite Z.mul_1_l.
  set (q := (n / 2 ^ e)%Z). set (r := (n mod 2 ^ e)%Z).
  assert (Hdiv : (n = 2 ^ e * q + r)%Z) by (apply Z.div_mod; lia).
  assert (Hr : (0 <= r < 2 ^ e)%Z) by (apply Z.mod_pos_bound; lia).
  assert (Hq : (2 ^ 52 <= q < 2 ^ 53)%Z).
  { subst q. split.
    - apply Z.div_le_lower_bound; lia.
    - apply Z.div_lt_upper_bound; lia. }
  set (h := (2 ^ (e - 1))%Z) in *.
  destruct (Z.ltb_spec h r) as [Hlt|Hge]; cbn [orb].
  - exists (q + 1)%Z. split; [done|]. split; [lia|]. split; [lia|]. lia.
  - destruct (Z.eqb_spec r h) as [Heq|Hne]; cbn [andb].
    + destruct (Z.odd q) eqn:Hodd.
      * exists (q + 1)%Z. split; [done|]. split; [lia|]. split; [lia|].
        intros _. rewrite Z.even_add, <- Z.negb_odd, Hodd. done.
      * exists q. split; [done|]. split; [lia|]. split; [lia|].
        intros _. by rewrite <- Z.negb_odd, Hodd.
    + exists q. split; [done|]. split; [lia|]. split; [lia|]. lia.
Qed.

End JsRound.

(** X7. What [parseInt(s, 10)] gives for the value of [--concurrency].
    Every string is, in one way that [parseInt] follows, a run of
    white-space characters (the white space and line terminators of
    ECMAScript), an optional sign, a run of decimal digits and a rest that
    does not go on with a digit.  Without a digit the result is NaN.  With
    digits the result is the Number nearest to the integer they denote,
    negated after a minus sign, whatever the rest is: the integer itself
    below 2^53, the negative zero for a negated zero, and above 2^53 the
    integer rounded to 53 significant bits, to nearest with ties to the
    even significand, or an infinity when that is 2^1024 or more. *)
Theorem parseInt_reads_numeral :
  (forall ws sign ds tail,
     More.reads ws sign ds tail ->
     Args.parseInt (More.numeral_text ws sign ds tail)
     = match ds with
       | [] => Js.NaN
       | _ => Js.of_integer (String.eqb sign "-") (More.numeral_value ds)
       end)
  /\ (forall s, exists ws sign ds tail,
        More.reads ws sign ds tail /\ s = More.numeral_text ws sign ds tail)
  /\ (forall n, (0 < n < 2 ^ 53)%Z ->
        Js.of_integer false n = Js.Int n /\ Js.of_integer true n = Js.Int (- n))
  /\ (Js.of_integer false 0 = Js.Int 0 /\ Js.of_integer true 0 = Js.NegZero)
  /\ (forall negative n, (2 ^ 53 <= n)%Z ->
        exists q,
          let m := (q * 2 ^ (Z.log2 n - 52))%Z in
          (2 ^ 52 <= q <= 2 ^ 53)%Z
          /\ (2 * Z.abs (m - n) <= 2 ^ (Z.log2 n - 52))%Z
          /\ ((2 * Z.abs (m - n) = 2 ^ (Z.log2 n - 52))%Z -> Z.even q = true)
          /\ Js.of_integer negative n
             = if (2 ^ 1024 <=? m)%Z then Js.Inf negative
               else Js.Int (if negative then - m else m)).
Proof.
  split; [|split; [|split; [|split]]].
  - intros ws sign ds tail [Hws Hsign Hds Htail Hplace].
    unfold More.numeral_text.
    rewrite ParseIntDigits.parseInt_join by done.
    destruct Hsign as [->|[->| ->]].
    + change ("" +:+ More.numeral ds +:+ tail) with (More.numeral ds +:+ tail).
      rewrite ParseIntDigits.parseInt_unsigned.
      * rewrite ParseIntDigits.digits_read by done. by destruct ds.
      * destruct ds as [|d ds]; [by apply Hplace|].
        inversion Hds; subst. by apply ParseIntDigits.digit_char_plain.
      * destruct ds as [|d ds]; [by apply Hplace|].
        inversion Hds; subst. by apply ParseIntDigits.digit_char_plain.
    + change ("+" +:+ More.numeral ds +:+ tail)
        with (String (if false then "-" else "+")%char (More.numeral ds +:+ tail)).
      rewrite ParseIntDigits.parseInt_signed, ParseIntDigits.digits_read by done.
      by destruct ds.
    + change ("-" +:+ More.numeral ds +:+ tail)
        with (String (if true then "-" else "+")%char (More.numeral ds +:+ tail)).
      rewrite ParseIntDigits.parseInt_signed, ParseIntDigits.digits_read by done.
      by destruct ds.
  - intros s.
    destruct (ParseIntMore.skip_space_splits (String.length s) s (Nat.le_refl _))
      as (ws & Hws & Hs & Hb).
    destruct (Args.skip_space s) as [|c r] eqn:Hskip.
    { exists ws, "", [], "". split; [|by rewrite Hs at 1].
      constructor; [done|by left|done|done|done]. }
    destruct (Ascii.eqb c "-") eqn:Hm; [|destruct (Ascii.eqb c "+") eqn:Hp].
    + apply Ascii.eqb_eq in Hm as ->.
      destruct (ParseIntDigits.digits_split r) as (ds & tail & Hds & -> & Ht).
      exists ws, "-", ds, tail. split; [|by rewrite Hs at 1].
      constructor; [done|by right; right|done|done|done].
    + apply Ascii.eqb_eq in Hp as ->.
      destruct (ParseIntDigits.digits_split r) as (ds & tail & Hds & -> & Ht).
      exists ws, "+", ds, tail. split; [|by rewrite Hs at 1].
      constructor; [done|by right; left|done|done|done].
    + destruct (ParseIntDigits.digits_split (String c r))
        as (ds & tail & Hds & Heq & Ht).
      exists ws, "", ds, tail. split.
      * constructor; [done|by left|done|done|]. intros _ ->.
        change (More.numeral [] +:+ tail) with tail in Heq. subst tail.
        split; [done|]. cbn. by rewrite Hm, Hp.
      * unfold More.numeral_text. rewrite Hs at 1. by rewrite Heq.
  - apply JsRound.of_integer_exact.
  - done.
  - intros negative n Hn.
    destruct (JsRound.nearest_rounds n Hn) as (q & Hq & Hb & Hh & He).
    exists q. cbv zeta. rewrite <- Hq. split; [done|]. split; [done|].
    split; [done|]. unfold Js.of_integer.
    destruct (Z.eqb_spec n 0) as [->|_]; [lia|].
    destruct (Z.ltb_spec n (2 ^ 53)) as [?|_]; [lia|]. done.
Qed.

(** A no-break space and a space, a minus sign, the digits 12 and a rest;
    a word; and a numeral just above 2^53. *)
Lemma parseInt_reads_numeral_witness :
  Args.parseInt (Args.bytes [194; 160; 32] +:+ "-12abc") = Js.Int (-12)
  /\ Args.parseInt "many" = Js.NaN
  /\ Args.parseInt "9007199254740993" = Js.Int 9007199254740992.
Proof.
  split; [|split].
  - apply (proj1 parseInt_reads_numeral
             [Args.bytes [194; 160]; Args.bytes [32]] "-" [1; 2] "abc").
    split; [repeat constructor|auto|repeat constructor|done|done].
  - apply (proj1 parseInt_reads_numeral [] "" [] "many").
    split; [repeat constructor|auto|repeat constructor|done|done].
  - apply (proj1 parseInt_reads_numeral [] ""
             [9; 0; 0; 7; 1; 9; 9; 2; 5; 4; 7; 4; 0; 9; 9; 3] "").
    split; [repeat constructor|auto|repeat constructor|done|done].
Defined.

Module PoolMore.
Import Pool.

Section Monotone.
Context {A R E Ev : Type}.
Variable worker : A -> list Ev * task R E Ev.
Variable items : list A.

Local Abbreviation inv := (Pool.inv worker items).
Local Abbreviation iterate := (Pool.iterate worker items).
Local Abbreviation fire := (Pool.fire worker items).
Local Abbreviation exec := (Pool.exec worker items).
Local Abbreviation start := (Pool.start worker items).

Implicit Types (s : pool R E Ev).

(** [grows s s']: nothing that [s] has recorded is lost in [s']. *)
Local Abbreviation grows s s' :=
  ((forall j r, results s !! j = Some (Some r) -> results s' !! j = Some (Some r))
   /\ nextIndex s <= nextIndex s'
   /\ trace s `prefix_of` trace s'
   /\ claims s `prefix_of` claims s'
   /\ (forall e, rejection s = Some e -> rejection s' = Some e)).

Lemma iterate_grows v k s :
  results (iterate v k s).1 = results s
  /\ nextIndex s <= nextIndex (iterate v k s).1
  /\ trace s `prefix_of` trace (iterate v k s).1
  /\ claims s `prefix_of` claims (iterate v k s).1
  /\ rejection (iterate v k s).1 = rejection s.
Proof.
  destruct (PoolFacts.iterate_cases worker items v k s)
    as [(x & _ & ->)|(_ & ->)].
  - cbn. repeat split; [lia|by eexists|by eexists].
  - destruct v; cbn; repeat split; try lia; reflexivity.
Qed.

Lemma fire_grows v k s s' :
  inv v None s -> fire v k s = Some s' -> grows s s'.
Proof.
  intros Hinv Hf. unfold Pool.fire in Hf.
  destruct (runners s !! k) as [[i [[r|e]|evs t]| |]|] eqn:Hk; try done.
  - set (s1 := Mk _ _ _ _ _ _) in *.
    destruct (iterate v k s1) as [s2 r'] eqn:Hit. injection Hf as <-.
    destruct (iterate_grows v k s1) as (Hr & Hn & Ht & Hc & Hj).
    rewrite Hit in Hr, Hn, Ht, Hc, Hj. cbn in Hr, Hn, Ht, Hc, Hj. cbn.
    rewrite Hr, Hj. repeat split; try done.
    intros j r0 Hj0. apply JsFacts.set_lookup. right. split; [|done].
    intros ->. destruct Hinv as [_ Ha _ _ _ _ _ _ _ _].
    destruct (Ha k i _ ltac:(done) Hk) as [Hnf _].
    apply Hnf. by exists r0.
  - injection Hf as <-. cbn. repeat split; try done; try reflexivity.
    intros e0 ->. done.
  - injection Hf as <-. cbn. repeat split; try done. by eexists.
Qed.

Lemma exec_grows v sched : forall s s',
  inv v None s -> exec v sched s = Some s' -> grows s s'.
Proof.
  induction sched as [|k sched IH]; intros s s' Hinv Hex; cbn in Hex.
  - injection Hex as <-. repeat split; try done; reflexivity.
  - destruct (fire v k s) as [s1|] eqn:Hf; [|done].
    destruct (fire_grows v k s s1 Hinv Hf) as (H1 & H2 & H3 & H4 & H5).
    destruct (IH s1 s' (PoolFacts.fire_inv worker items v k s s1 Hinv Hf) Hex)
      as (G1 & G2 & G3 & G4 & G5).
    repeat split; [auto|lia|by etrans|by etrans|auto].
Qed.

End Monotone.

End PoolMore.

Section UploaderMore.
Context {A R E Ev : Type}.
Variable worker : A -> list Ev * Pool.task R E Ev.
Variable items : list A.

Local Abbreviation fire := (Pool.fire worker items).
Local Abbreviation exec := (Pool.exec worker items).
Local Abbreviation start := (Pool.start worker items).
Local Abbreviation total := (Pool.total_steps worker items).

(** X8. The worker is called on the items in their order: whatever the
    limit (also one that is not a number of runners) and whatever the
    schedule, the n-th call of the worker is the call on item n, and the
    calls made so far are those on the first items, without a gap. *)
Theorem worker_called_in_item_order (v : variant) (limit : Js.number)
    (s0 s : Pool.pool R E Ev) (sched : list nat)
  (Hstart : start v limit = Some s0)
  (Hexec : exec v sched s0 = Some s) :
  (Pool.claims s).*2 = seq 0 (length (Pool.claims s))
  /\ length (Pool.claims s) <= length items
  /\ forall n k i, Pool.claims s !! n = Some (k, i) -> i = n.
Proof.
  pose proof (PoolFacts.start_inv _ _ _ _ _ Hstart) as Hinv0.
  pose proof (PoolFacts.exec_inv _ _ _ _ _ _ Hinv0 Hexec) as [Hc _ _ _ _ _ _ _ _ _].
  assert (Hlen : length (Pool.claims s) = Pool.claimed items s).
  { rewrite <- (length_fmap snd), Hc. apply length_seq. }
  rewrite Hlen. split; [done|]. split; [unfold Pool.claimed; lia|].
  intros n k i Hn.
  assert (Hi : (Pool.claims s).*2 !! n = Some i)
    by (by rewrite list_lookup_fmap, Hn).
  rewrite Hc in Hi. apply lookup_seq in Hi. lia.
Qed.

(** X9. Nothing that the uploader has recorded is lost later in the run: a
    result that is stored stays in its slot with its value, the cursor
    does not go back, the events so far and the calls so far stay the
    beginning of the later ones, and once [Promise.all] is rejected the
    reason stays the one of the first runner that threw. *)
Theorem progress_is_kept (v : variant) (limit : Js.number)
    (s0 s s' : Pool.pool R E Ev) (sched sched' : list nat)
  (Hstart : start v limit = Some s0)
  (Hexec : exec v sched s0 = Some s)
  (Hlater : exec v sched' s = Some s') :
  (forall i r, Pool.results s !! i = Some (Some r) ->
               Pool.results s' !! i = Some (Some r))
  /\ Pool.nextIndex s <= Pool.nextIndex s'
  /\ Pool.trace s `prefix_of` Pool.trace s'
  /\ Pool.claims s `prefix_of` Pool.claims s'
  /\ (forall e, Pool.settled s = Some (Pool.Rejected e) ->
                Pool.settled s' = Some (Pool.Rejected e)).
Proof.
  pose proof (PoolFacts.start_inv _ _ _ _ _ Hstart) as Hinv0.
  pose proof (PoolFacts.exec_inv _ _ _ _ _ _ Hinv0 Hexec) as Hinv.
  destruct (PoolMore.exec_grows worker items v sched' s s' Hinv Hlater)
    as (H1 & H2 & H3 & H4 & H5).
  repeat split; try done.
  intros e. unfold Pool.settled.
  destruct (Pool.rejection s) as [e0|] eqn:He0.
  - intros [= ->]. by rewrite (H5 e).
  - by destruct (forallb _ _).
Qed.

(** X10. Every run of the uploader is finite, also when worker calls
    fail and whatever the limit: the resumptions made and those still
    owed add up to the resumptions that the calls on all items need, and
    when none is owed no runner can be resumed. *)
Theorem runs_are_finite (v : variant) (limit : Js.number)
    (s0 s : Pool.pool R E Ev) (sched : list nat)
  (Hstart : start v limit = Some s0)
  (Hexec : exec v sched s0 = Some s) :
  length sched + Pool.remaining worker items s = total
  /\ length sched <= total
  /\ (length sched = total -> forall k, fire v k s = None).
Proof.
  pose proof (PoolFacts.start_remaining _ _ _ _ _ Hstart) as H0.
  pose proof (PoolFacts.exec_remaining _ _ _ _ _ _ Hexec) as H1.
  split; [lia|]. split; [lia|]. intros Hlen k.
  destruct (fire v k s) as [s1|] eqn:Hf; [|done].
  pose proof (PoolFacts.fire_remaining _ _ _ _ _ _ Hf). lia.
Qed.

(** X11. The events of a run are those of the worker's calls, each once:
    at any time the events so far are among the events of the calls on
    all items, counted with multiplicity; and when [limitConcurrency]
    returns, started with a limit of at least 1, they are exactly the
    events of the calls on all items, in some order. *)
Theorem events_are_those_of_the_calls (v : variant) (limit : Z)
    (s0 s : Pool.pool R E Ev) (sched : list nat)
  (Hstart : start v (Js.Int limit) = Some s0)
  (Hexec : exec v sched s0 = Some s) :
  Pool.trace s ⊆+ flat_map (Pool.call_events worker) items
  /\ ((1 <= limit)%Z ->
      forall res, Pool.settled s = Some (Pool.Fulfilled res) ->
        Pool.trace s ≡ₚ flat_map (Pool.call_events worker) items).
Proof.
  pose proof (PoolFacts.start_inv _ _ _ _ _ Hstart) as Hinv0.
  pose proof (PoolFacts.exec_inv _ _ _ _ _ _ Hinv0 Hexec) as Hinv.
  pose proof Hinv as [Hc _ _ _ _ _ _ _ _ Hev].
  split.
  - etrans; [apply (submseteq_inserts_r (Pool.pending_events (Pool.runners s)));
             reflexivity|].
    rewrite Hev.
    rewrite <- (take_drop (Pool.nextIndex s) items) at 2.
    rewrite flat_map_app. by apply submseteq_inserts_r.
  - intros Hl res Hset.
    pose proof (PoolFacts.runners_nonempty worker items v limit s0 sched s
                  Hl Hstart Hexec) as Hne.
    destruct (PoolFacts.settled_fulfilled worker items v s res Hinv Hset Hne)
      as (_ & Hcl & _ & _).
    rewrite Hc in Hcl.
    assert (Hn : Pool.claimed items s = length items).
    { apply (f_equal length) in Hcl. by rewrite !length_seq in Hcl. }
    unfold Pool.settled in Hset.
    destruct (Pool.rejection s); [done|].
    destruct (forallb Pool.is_finished (Pool.runners s)) eqn:Hfin; [|done].
    rewrite (DryRun.finished_no_pending _ Hfin), app_nil_r in Hev.
    rewrite Hev, take_ge; [done|]. unfold Pool.claimed in Hn. lia.
Qed.

End UploaderMore.

(** Three items of which the second makes the worker reject, two
    runners; runner 0 is resumed twice, then runner 1 throws. *)
Lemma worker_called_in_item_order_witness :
  exists s0 s,
    Pool.start Examples.times_ten [1; 7; 3] V1 (Js.Int 2) = Some s0
    /\ Pool.exec Examples.times_ten [1; 7; 3] V1 [0; 0; 1] s0 = Some s
    /\ (Pool.claims s).*2 = seq 0 (length (Pool.claims s)).
Proof.
  destruct (Pool.start Examples.times_ten [1; 7; 3] V1 (Js.Int 2))
    as [s0|] eqn:Hs; [|vm_compute in Hs; discriminate].
  pose proof Hs as Hs'. vm_compute in Hs'. injection Hs' as Hs0.
  destruct (Pool.exec Examples.times_ten [1; 7; 3] V1 [0; 0; 1] s0)
    as [s|] eqn:Hex; [|rewrite <- Hs0 in Hex; vm_compute in Hex; discriminate].
  exists s0, s. split; [reflexivity|]. split; [exact Hex|].
  exact (proj1 (worker_called_in_item_order Examples.times_ten [1; 7; 3] V1
                  (Js.Int 2) s0 s [0; 0; 1] Hs Hex)).
Defined.

Lemma progress_is_kept_witness :
  exists s0 s s',
    Pool.start Examples.times_ten [1; 7; 3] V2 (Js.Int 2) = Some s0
    /\ Pool.exec Examples.times_ten [1; 7; 3] V2 [0; 0] s0 = Some s
    /\ Pool.exec Examples.times_ten [1; 7; 3] V2 [1; 0; 0] s = Some s'
    /\ Pool.trace s `prefix_of` Pool.trace s'.
Proof.
  destruct (Pool.start Examples.times_ten [1; 7; 3] V2 (Js.Int 2))
    as [s0|] eqn:Hs; [|vm_compute in Hs; discriminate].
  pose proof Hs as Hs'. vm_compute in Hs'. injection Hs' as Hs0.
  destruct (Pool.exec Examples.times_ten [1; 7; 3] V2 [0; 0] s0)
    as [s|] eqn:Hex; [|rewrite <- Hs0 in Hex; vm_compute in Hex; discriminate].
  pose proof Hex as Hex'. rewrite <- Hs0 in Hex'. vm_compute in Hex'.
  injection Hex' as Hs1.
  destruct (Pool.exec Examples.times_ten [1; 7; 3] V2 [1; 0; 0] s)
    as [s'|] eqn:Hex2; [|rewrite <- Hs1 in Hex2; vm_compute in Hex2; discriminate].
  exists s0, s, s'. split; [reflexivity|]. split; [exact Hex|].
  split; [exact Hex2|].
  exact (proj1 (proj2 (proj2 (progress_is_kept Examples.times_ten [1; 7; 3] V2
                  (Js.Int 2) s0 s s' [0; 0] [1; 0; 0] Hs Hex Hex2)))).
Defined.

Lemma runs_are_finite_witness :
  exists s0 s,
    Pool.start Examples.times_ten [1; 7; 3] V1 (Js.Int 2) = Some s0
    /\ Pool.exec Examples.times_ten [1; 7; 3] V1 [0; 0; 1] s0 = Some s
    /\ 3 <= Pool.total_steps Examples.times_ten [1; 7; 3].
Proof.
  destruct (Pool.start Examples.times_ten [1; 7; 3] V1 (Js.Int 2))
    as [s0|] eqn:Hs; [|vm_compute in Hs; discriminate].
  pose proof Hs as Hs'. vm_compute in Hs'. injection Hs' as Hs0.
  destruct (Pool.exec Examples.times_ten [1; 7; 3] V1 [0; 0; 1] s0)
    as [s|] eqn:Hex; [|rewrite <- Hs0 in Hex; vm_compute in Hex; discriminate].
  exists s0, s. split; [reflexivity|]. split; [exact Hex|].
  exact (proj1 (proj2 (runs_are_finite Examples.times_ten [1; 7; 3] V1
                  (Js.Int 2) s0 s [0; 0; 1] Hs Hex))).
Defined.

Lemma events_are_those_of_the_calls_witness :
  exists s0 s,
    Pool.start Examples.times_ten [1; 2; 3] V1 (Js.Int 2) = Some s0
    /\ Pool.exec Examples.times_ten [1; 2; 3] V1 [1; 0; 0] s0 = Some s
    /\ Pool.trace s ⊆+ flat_map (Pool.call_events Examples.times_ten) [1; 2; 3].
Proof.
  destruct (Pool.start Examples.times_ten [1; 2; 3] V1 (Js.Int 2))
    as [s0|] eqn:Hs; [|vm_compute in Hs; discriminate].
  pose proof Hs as Hs'. vm_compute in Hs'. injection Hs' as Hs0.
  destruct (Pool.exec Examples.times_ten [1; 2; 3] V1 [1; 0; 0] s0)
    as [s|] eqn:Hex; [|rewrite <- Hs0 in Hex; vm_compute in Hex; discriminate].
  exists s0, s. split; [reflexivity|]. split; [exact Hex|].
  exact (proj1 (events_are_those_of_the_calls Examples.times_ten [1; 2; 3] V1
                  2 s0 s [1; 0; 0] Hs Hex)).
Defined.

Module OneRunner.
Import Pool.

Section OneRunner.
Context {A R E Ev : Type}.
Variable worker : A -> list Ev * task R E Ev.
Variable items : list A.

Local Abbreviation iterate := (Pool.iterate worker items).
Local Abbreviation fire := (Pool.fire worker items).
Local Abbreviation exec := (Pool.exec worker items).
Local Abbreviation start := (Pool.start worker items).
Local Abbreviation spawn := (Pool.spawn worker items).
Local Abbreviation events_upto n :=
  (flat_map (Pool.call_events worker) (take n items)).

Implicit Types (s : pool R E Ev).

(** With at most one runner the events so far and those of the call in
    flight are the events of the calls on the first items, in order. *)
Local Abbreviation in_order s :=
  (length (runners s) <= 1
   /\ trace s ++ pending_events (runners s) = events_upto (nextIndex s)).

Lemma iterate_in_order v k s s2 r' :
  trace s = events_upto (nextIndex s) ->
  iterate v k s = (s2, r') ->
  trace s2 ++ runner_events r' = events_upto (nextIndex s2).
Proof.
  intros Ht Hit.
  destruct (PoolFacts.iterate_cases worker items v k s)
    as [(x & Hx & Heq)|(Hle & Heq)]; rewrite Heq in Hit.
  - unfold call in Hit. injection Hit as <- <-. cbn.
    rewrite (take_S_r _ _ _ Hx), flat_map_app, Ht, <- app_assoc. cbn.
    by rewrite app_nil_r.
  - injection Hit as <- <-. cbn. rewrite app_nil_r.
    destruct v; cbn; rewrite Ht, !take_ge by lia; done.
Qed.

Lemma spawn_in_order v s :
  runners s = [] -> trace s = events_upto (nextIndex s) ->
  in_order (spawn v s).
Proof.
  intros Hrs Ht. unfold Pool.spawn.
  destruct (iterate v (length (runners s)) s) as [s2 r'] eqn:Hit.
  pose proof (PoolFacts.iterate_runners worker items v (length (runners s)) s) as Hr.
  rewrite Hit in Hr. cbn in Hr. cbn. rewrite Hr, Hrs. cbn. split; [lia|].
  rewrite app_nil_r. by eapply iterate_in_order.
Qed.

Lemma fire_in_order v k s s' :
  in_order s -> fire v k s = Some s' -> in_order s'.
Proof.
  intros [Hlen Ht] Hf. unfold Pool.fire in Hf.
  destruct (runners s) as [|r0 [|r1 rs]] eqn:Hrs; [done| |cbn in Hlen; lia].
  destruct k as [|k]; [|done]. cbn in Hf, Ht. rewrite app_nil_r in Ht.
  destruct r0 as [i [[r|e]|evs t]| |]; try done.
  - set (s1 := Mk _ _ _ _ _ _) in *.
    destruct (iterate v 0 s1) as [s2 r'] eqn:Hit. injection Hf as <-.
    pose proof (PoolFacts.iterate_runners worker items v 0 s1) as Hr.
    rewrite Hit in Hr. cbn in Hr. cbn. rewrite Hr. cbn. split; [lia|].
    rewrite app_nil_r. eapply iterate_in_order; [|exact Hit].
    cbn. by rewrite app_nil_r in Ht.
  - injection Hf as <-. cbn. split; [lia|]. by rewrite app_nil_r in *.
  - injection Hf as <-. cbn. split; [lia|].
    by rewrite app_nil_r, <- app_assoc.
Qed.

Lemma exec_in_order v sched : forall s s',
  in_order s -> exec v sched s = Some s' -> in_order s'.
Proof.
  induction sched as [|k sched IH]; intros s s' Hs Hex; cbn in Hex.
  - by injection Hex as <-.
  - destruct (fire v k s) as [s1|] eqn:Hf; [|done].
    eapply IH; [|exact Hex]. by eapply fire_in_order.
Qed.

Lemma start_in_order v (limit : Z) s0 :
  (limit <= 1)%Z -> start v (Js.Int limit) = Some s0 -> in_order s0.
Proof.
  intros Hl Hs. unfold Pool.start in Hs.
  destruct (runner_count items v (Js.Int limit)) as [n|] eqn:Hn; [|done].
  injection Hs as <-.
  assert (n <= 1).
  { destruct v; cbn in Hn.
    - injection Hn as <-. lia.
    - destruct (0 <=? _)%Z; [|done]. injection Hn as <-. lia. }
  destruct n as [|[|n]]; [| |lia].
  - cbn. split; [lia|done].
  - cbn [Nat.iter nat_rect]. by apply spawn_in_order.
Qed.

End OneRunner.

End OneRunner.

Section Sequential.
Context {A R E Ev : Type}.
Variable worker : A -> list Ev * Pool.task R E Ev.
Variable items : list A.

(** X12. With a limit of 1 the uploader works through the items one
    after the other: at any time the events so far are a beginning of the
    events of the calls on the items, taken in the order of the items with
    each call's events together; and when [limitConcurrency] returns they
    are exactly those, in that order. *)
Theorem one_at_a_time (v : variant) (s0 s : Pool.pool R E Ev) (sched : list nat)
  (Hstart : Pool.start worker items v (Js.Int 1) = Some s0)
  (Hexec : Pool.exec worker items v sched s0 = Some s) :
  Pool.trace s `prefix_of` flat_map (Pool.call_events worker) items
  /\ forall res, Pool.settled s = Some (Pool.Fulfilled res) ->
       Pool.trace s = flat_map (Pool.call_events worker) items.
Proof.
  assert (Hl : (1 <= 1)%Z) by lia.
  destruct (OneRunner.exec_in_order worker items v sched s0 s
              (OneRunner.start_in_order worker items v 1 s0 Hl Hstart) Hexec)
    as [_ Ht].
  split.
  - exists (Pool.pending_events (Pool.runners s)
            ++ flat_map (Pool.call_events worker) (drop (Pool.nextIndex s) items)).
    rewrite app_assoc, Ht, <- flat_map_app. by rewrite take_drop.
  - intros res Hset.
    pose proof (PoolFacts.start_inv _ _ _ _ _ Hstart) as Hinv0.
    pose proof (PoolFacts.exec_inv _ _ _ _ _ _ Hinv0 Hexec) as Hinv.
    pose proof Hinv as [Hc _ _ _ _ _ _ _ _ _].
    pose proof (PoolFacts.runners_nonempty worker items v 1 s0 sched s
                  Hl Hstart Hexec) as Hne.
    destruct (PoolFacts.settled_fulfilled worker items v s res Hinv Hset Hne)
      as (_ & Hcl & _ & _).
    rewrite Hc in Hcl.
    assert (Hn : Pool.claimed items s = length items).
    { apply (f_equal length) in Hcl. by rewrite !length_seq in Hcl. }
    unfold Pool.settled in Hset.
    destruct (Pool.rejection s); [done|].
    destruct (forallb Pool.is_finished (Pool.runners s)) eqn:Hfin; [|done].
    rewrite (DryRun.finished_no_pending _ Hfin), app_nil_r in Ht.
    rewrite Ht, take_ge; [done|]. unfold Pool.claimed in Hn. lia.
Qed.

End Sequential.

Lemma one_at_a_time_witness :
  exists s0 s,
    Pool.start Examples.times_ten [1; 2; 3] V1 (Js.Int 1) = Some s0
    /\ Pool.exec Examples.times_ten [1; 2; 3] V1 [0; 0; 0] s0 = Some s
    /\ Pool.trace s
       `prefix_of` flat_map (Pool.call_events Examples.times_ten) [1; 2; 3].
Proof.
  destruct (Pool.start Examples.times_ten [1; 2; 3] V1 (Js.Int 1))
    as [s0|] eqn:Hs; [|vm_compute in Hs; discriminate].
  pose proof Hs as Hs'. vm_compute in Hs'. injection Hs' as Hs0.
  destruct (Pool.exec Examples.times_ten [1; 2; 3] V1 [0; 0; 0] s0)
    as [s|] eqn:Hex; [|rewrite <- Hs0 in Hex; vm_compute in Hex; discriminate].
  exists s0, s. split; [reflexivity|]. split; [exact Hex|].
  exact (proj1 (one_at_a_time Examples.times_ten [1; 2; 3] V1 s0 s [0; 0; 0]
                  Hs Hex)).
Defined.

Module LiveRun.
Import Sync Live.

Lemma filter_submseteq_mono {X} (f : X -> bool) (l k : list X) :
  l ⊆+ k -> List.filter f l ⊆+ List.filter f k.
Proof.
  induction 1 as [|x l k _ IH|x y l|x l k _ IH|l k m _ IH1 _ IH2]; cbn.
  - done.
  - destruct (f x); [by constructor|done].
  - destruct (f x), (f y); try done. by constructor.
  - destruct (f x); [by constructor|done].
  - by etrans.
Qed.

Lemma trace_among_calls {A R E Ev} (worker : A -> list Ev * Pool.task R E Ev)
    (items : list A) v (s : Pool.pool R E Ev) :
  Pool.inv worker items v None s ->
  Pool.trace s ⊆+ flat_map (Pool.call_events worker) items.
Proof.
  intros Hinv. pose proof (Pool.inv_events _ _ _ _ _ Hinv) as Hev.
  etrans; [apply (submseteq_inserts_r (Pool.pending_events (Pool.runners s)));
           reflexivity|].
  rewrite Hev.
  rewrite <- (take_drop (Pool.nextIndex s) items) at 2.
  rewrite flat_map_app. by apply submseteq_inserts_r.
Qed.

Lemma main_exited_quiet v w code log :
  main v w = Exited code log ->
  List.filter is_put log = [] /\ List.filter is_put_line log = []
  /\ List.filter is_dry_line log = [].
Proof.
  unfold main. destruct (Args.parseArgs (argv w)) as [o|].
  2:{ by intros [= <- <-]. }
  destruct (unset (S3_BUCKET w) || unset (AWS_REGION w)).
  { by intros [= <- <-]. }
  destruct (glob w _) as [[|rel es]|].
  - by intros [= <- <-].
  - destruct (Pool.start _ _ _ _); [done|]. by intros [= <- <-].
  - by intros [= <- <-].
Qed.

Section Live.
Variable v : variant.
Variable w : world.
Variable o : Args.opts.
Variables bucket absDir : string.
Hypothesis Hlive : Args.dry o = false.

Local Abbreviation worker := (upload v w o bucket absDir).

Lemma upload_live_events rel :
  List.filter is_put (Pool.call_events worker rel) = puts v w o bucket absDir rel
  /\ List.filter is_put_line (Pool.call_events worker rel) = put_lines v w o absDir rel
  /\ List.filter is_dry_line (Pool.call_events worker rel) = [].
Proof.
  unfold Pool.call_events, upload, puts, put_lines, put_of, put_line.
  rewrite Hlive.
  destruct (readFileSync w _); [|done].
  by destruct (put_ok w _).
Qed.

Lemma live_events entries :
  List.filter is_put (flat_map (Pool.call_events worker) entries)
  = flat_map (puts v w o bucket absDir) entries
  /\ List.filter is_put_line (flat_map (Pool.call_events worker) entries)
     = flat_map (put_lines v w o absDir) entries
  /\ List.filter is_dry_line (flat_map (Pool.call_events worker) entries) = [].
Proof.
  induction entries as [|rel es (IH1 & IH2 & IH3)]; [done|].
  destruct (upload_live_events rel) as (H1 & H2 & H3).
  cbn [flat_map]. rewrite !List.filter_app, IH1, IH2, IH3, H1, H2, H3. done.
Qed.

Lemma upload_live_accepted rel :
  accepted v w o absDir rel ->
  Pool.call_events worker rel = [put_of v w o bucket absDir rel; put_line v o rel]
  /\ Pool.fulfils worker rel
  /\ Pool.task_steps (snd (worker rel)) = 2.
Proof.
  unfold accepted, readable, Pool.call_events, Pool.fulfils, Pool.value_of,
    put_of, put_line, upload.
  rewrite Hlive. intros [[data ->] ->]. cbn. eauto.
Qed.

Lemma upload_live_fulfils rel :
  Pool.fulfils worker rel -> accepted v w o absDir rel.
Proof.
  unfold accepted, readable, Pool.fulfils, Pool.value_of, upload. rewrite Hlive.
  destruct (readFileSync w _); cbn; [|by intros [? ?]].
  destruct (put_ok w _); cbn; [eauto|]. by intros [? ?].
Qed.

Lemma live_total entries :
  Forall (accepted v w o absDir) entries ->
  Pool.total_steps worker entries = 2 * length entries
  /\ Forall (Pool.fulfils worker) entries
  /\ flat_map (Pool.call_events worker) entries
     = flat_map (fun rel => [put_of v w o bucket absDir rel; put_line v o rel])
                entries.
Proof.
  induction 1 as [|rel es Hrel Hes (IH1 & IH2 & IH3)]; [done|].
  destruct (upload_live_accepted rel Hrel) as (Hc & Hf & Hst).
  change (Pool.total_steps worker (rel :: es))
    with (Pool.task_steps (worker rel).2 + Pool.total_steps worker es).
  cbn [flat_map].
  rewrite Hst, Hc, IH1, IH3.
  split; [cbn [length]; lia|]. split; [by constructor|done].
Qed.

End Live.

End LiveRun.

Module LiveLog.

Lemma log_accounting (v : variant) (w : Sync.world) (o : Args.opts)
    (acts : list Sync.action) (st : Sync.state)
  (Hparse : Args.parseArgs (Sync.argv w) = Some o)
  (Hlive : Args.dry o = false)
  (Hrun : Sync.run v w acts (Sync.main v w) = Some st) :
  let bucket := default EmptyString (Sync.S3_BUCKET w) in
  let absDir := Sync.path_resolve w (Sync.cwd w) (default EmptyString (Args.dir o)) in
  let entries := default [] (Sync.glob w absDir) in
  List.filter Sync.is_put (Sync.log_of st)
    ⊆+ flat_map (Live.puts v w o bucket absDir) entries
  /\ List.filter Sync.is_put_line (Sync.log_of st)
       ⊆+ flat_map (Live.put_lines v w o absDir) entries
  /\ List.filter Sync.is_dry_line (Sync.log_of st) = [].
Proof.
  intros bucket absDir entries.
  destruct (Sync.main v w) as [code log|o' bucket' absDir' entries' log0 p0] eqn:Hmain.
  { destruct acts as [|a acts]; [|done]. injection Hrun as <-.
    destruct (LiveRun.main_exited_quiet v w code log Hmain) as (H1 & H2 & H3).
    cbn [Sync.log_of]. rewrite H1, H2, H3.
    split; [apply submseteq_nil_l|]. split; [apply submseteq_nil_l|done]. }
  assert (Hshape : o' = o /\ bucket' = bucket /\ absDir' = absDir
                   /\ entries' = entries
                   /\ log0 = [Sync.LogUploading (length entries) bucket (Args.prefix o)]).
  { unfold Sync.main in Hmain. rewrite Hparse in Hmain.
    destruct (Sync.unset (Sync.S3_BUCKET w) || Sync.unset (Sync.AWS_REGION w));
      [done|].
    subst entries. fold bucket absDir in Hmain.
    destruct (Sync.glob w absDir) as [[|rel es]|]; [done| |done].
    destruct (Pool.start _ _ _ _); [|done]. by injection Hmain as <- <- <- <- <- _. }
  destruct Hshape as (-> & -> & -> & -> & Hlog0).
  apply SyncFacts.main_uploading in Hmain as (_ & _ & _ & _ & Hs).
  pose proof (PoolFacts.start_inv _ _ _ _ _ Hs) as Hinv0.
  destruct (LiveRun.live_events v w o bucket absDir Hlive entries) as (E1 & E2 & E3).
  assert (Htrace : forall p,
            Pool.inv (Sync.upload v w o bucket absDir) entries v None p ->
            List.filter Sync.is_put (Pool.trace p)
              ⊆+ flat_map (Live.puts v w o bucket absDir) entries
            /\ List.filter Sync.is_put_line (Pool.trace p)
                 ⊆+ flat_map (Live.put_lines v w o absDir) entries
            /\ List.filter Sync.is_dry_line (Pool.trace p) = []).
  { intros p Hinv. pose proof (LiveRun.trace_among_calls _ _ _ _ Hinv) as Hsub.
    rewrite <- E1, <- E2. split; [by apply LiveRun.filter_submseteq_mono|].
    split; [by apply LiveRun.filter_submseteq_mono|].
    apply (LiveRun.filter_submseteq_mono Sync.is_dry_line) in Hsub.
    rewrite E3 in Hsub. by apply submseteq_nil_r. }
  apply SyncFacts.run_cases in Hrun
    as [(sched & p & -> & Hex & ->)|(sched & p & -> & Hex & Hst)];
    pose proof (PoolFacts.exec_inv _ _ _ _ _ _ Hinv0 Hex) as Hinv;
    destruct (Htrace p Hinv) as (T1 & T2 & T3).
  - cbn [Sync.log_of]. rewrite !List.filter_app, Hlog0. cbn [List.filter Sync.is_put
      Sync.is_put_line Sync.is_dry_line app]. done.
  - cbn in Hst.
    destruct (Pool.settled p) as [[res|e]|]; [| |done]; injection Hst as <-;
      cbn [Sync.log_of]; rewrite !List.filter_app, Hlog0;
      cbn [List.filter Sync.is_put Sync.is_put_line Sync.is_dry_line app];
      rewrite !app_nil_r; done.
Qed.

End LiveLog.

Module Late.
Import Pool.

Section Late.
Context {A R E Ev : Type}.
Variable worker : A -> list Ev * task R E Ev.
Variable items : list A.
Variable Q : Ev -> Prop.
Hypothesis Hlate : forall x, Forall Q (task_events (snd (worker x))).

Local Abbreviation iterate := (Pool.iterate worker items).
Local Abbreviation fire := (Pool.fire worker items).
Local Abbreviation exec := (Pool.exec worker items).
Local Abbreviation start := (Pool.start worker items).
Local Abbreviation spawn := (Pool.spawn worker items).

Implicit Types (s : pool R E Ev) (rs : list (runner R E Ev)).

(** The events still to come from the calls in flight all satisfy [Q]. *)
Local Abbreviation late rs :=
  (forall k r, rs !! k = Some r -> Forall Q (runner_events r)).

Lemma iterate_late v k s : Forall Q (runner_events (iterate v k s).2).
Proof.
  destruct (PoolFacts.iterate_cases worker items v k s)
    as [(x & _ & ->)|(_ & ->)]; cbn; [apply Hlate|constructor].
Qed.

Lemma spawn_late v s : late (runners s) -> late (runners (spawn v s)).
Proof.
  intros Hl. unfold Pool.spawn.
  pose proof (iterate_late v (length (runners s)) s) as Hr.
  pose proof (PoolFacts.iterate_runners worker items v (length (runners s)) s) as Hrs.
  destruct (iterate v (length (runners s)) s) as [s' r']. cbn in Hr, Hrs. cbn.
  rewrite Hrs. intros k r [Hk|[_ Hk]]%lookup_app_Some; [by eapply Hl|].
  apply list_lookup_singleton_Some in Hk as [_ <-]. done.
Qed.

Lemma fire_late v k s s' :
  late (runners s) -> fire v k s = Some s' -> late (runners s').
Proof.
  intros Hl Hf. unfold Pool.fire in Hf.
  destruct (runners s !! k) as [[i [[r|e]|evs t]| |]|] eqn:Hk; try done.
  - set (s1 := Mk _ _ _ _ _ _) in *.
    pose proof (iterate_late v k s1) as Hr.
    pose proof (PoolFacts.iterate_runners worker items v k s1) as Hrs.
    destruct (iterate v k s1) as [s2 r']. injection Hf as <-.
    cbn in Hr, Hrs. cbn. rewrite Hrs.
    intros k' r0 [(<- & <- & _)|[_ Hk']]%list_lookup_insert_Some;
      [done|by eapply Hl].
  - injection Hf as <-. cbn.
    intros k' r0 [(<- & <- & _)|[_ Hk']]%list_lookup_insert_Some;
      [constructor|by eapply Hl].
  - injection Hf as <-. cbn.
    intros k' r0 [(<- & <- & _)|[_ Hk']]%list_lookup_insert_Some;
      [|by eapply Hl].
    specialize (Hl k _ Hk). cbn in Hl. by apply Forall_app in Hl as [_ ?].
Qed.

Lemma exec_late v sched : forall s s',
  late (runners s) -> exec v sched s = Some s' -> late (runners s').
Proof.
  induction sched as [|k sched IH]; intros s s' Hl Hex; cbn in Hex.
  - by injection Hex as <-.
  - destruct (fire v k s) as [s1|] eqn:Hf; [|done].
    eapply IH; [|exact Hex]. by eapply fire_late.
Qed.

Lemma start_late v limit s0 : start v limit = Some s0 -> late (runners s0).
Proof.
  unfold Pool.start. destruct (runner_count items v limit) as [n|]; [|done].
  intros [= <-]. induction n as [|n IH].
  - intros k r Hk. cbn in Hk. by rewrite lookup_nil in Hk.
  - rewrite Nat.iter_succ. by apply spawn_late.
Qed.

Lemma pending_late rs : late rs -> Forall Q (pending_events rs).
Proof.
  intros Hl. apply Forall_forall. intros e He.
  apply list_elem_of_In, in_flat_map in He as (r & Hr & He).
  apply list_elem_of_In, list_elem_of_lookup in Hr as [k Hk].
  specialize (Hl k r Hk). rewrite Forall_forall in Hl.
  by apply Hl, list_elem_of_In.
Qed.

End Late.

End Late.

Module LiveOrder.
Import Sync Live.

Lemma filter_none {X} (f : X -> bool) l :
  Forall (fun x => f x = false) l -> List.filter f l = [].
Proof. induction 1 as [|x l Hx _ IH]; [done|]. cbn. by rewrite Hx. Qed.

Lemma filter_length_perm {X} (f : X -> bool) l k :
  l ≡ₚ k -> length (List.filter f l) = length (List.filter f k).
Proof.
  intros H. apply Nat.le_antisymm; apply submseteq_length,
    LiveRun.filter_submseteq_mono; by rewrite H.
Qed.

Section Order.
Variable v : variant.
Variable w : world.
Variable o : Args.opts.
Variables bucket absDir : string.
Hypothesis Hlive : Args.dry o = false.

Local Abbreviation worker := (upload v w o bucket absDir).

Lemma upload_late rel :
  Forall (fun e => is_put e = false) (Pool.task_events (snd (worker rel))).
Proof.
  unfold upload. destruct (readFileSync w _); [|constructor].
  rewrite Hlive. destruct (put_ok w _); cbn; repeat constructor.
Qed.

Lemma lines_le_puts es :
  length (flat_map (put_lines v w o absDir) es)
  <= length (flat_map (puts v w o bucket absDir) es).
Proof.
  induction es as [|rel es IH]; [done|].
  cbn [flat_map]. rewrite !length_app. unfold put_lines at 1, puts at 1.
  destruct (readFileSync w _); [|done].
  destruct (put_ok w _); cbn [length]; lia.
Qed.

(** Success lines never outnumber the requests sent. *)
Lemma trace_lines_le_puts entries limit p0 sched p :
  Pool.start worker entries v limit = Some p0 ->
  Pool.exec worker entries v sched p0 = Some p ->
  length (List.filter is_put_line (Pool.trace p))
  <= length (List.filter is_put (Pool.trace p)).
Proof.
  intros Hs Hex.
  pose proof (PoolFacts.start_inv _ _ _ _ _ Hs) as Hinv0.
  pose proof (PoolFacts.exec_inv _ _ _ _ _ _ Hinv0 Hex) as Hinv.
  pose proof (Pool.inv_events _ _ _ _ _ Hinv) as Hev.
  pose proof (Late.pending_late _ _
                (Late.exec_late worker entries _ upload_late v sched p0 p
                   (Late.start_late worker entries _ upload_late v limit p0 Hs)
                   Hex)) as Hpend.
  destruct (LiveRun.live_events v w o bucket absDir Hlive
              (take (Pool.nextIndex p) entries)) as (E1 & E2 & _).
  pose proof (filter_length_perm is_put _ _ Hev) as H1.
  pose proof (filter_length_perm is_put_line _ _ Hev) as H2.
  rewrite List.filter_app, length_app in H1, H2.
  rewrite (filter_none is_put _ Hpend) in H1. rewrite E1 in H1. rewrite E2 in H2.
  pose proof (lines_le_puts (take (Pool.nextIndex p) entries)). cbn in H1. lia.
Qed.

End Order.

Lemma log_lines_le_puts v w o acts st :
  Args.parseArgs (argv w) = Some o -> Args.dry o = false ->
  run v w acts (main v w) = Some st ->
  length (List.filter is_put_line (log_of st))
  <= length (List.filter is_put (log_of st)).
Proof.
  intros Hparse Hlive Hrun.
  destruct (main v w) as [code log|o' bucket absDir entries log0 p0] eqn:Hmain.
  { destruct acts as [|a acts]; [|done]. injection Hrun as <-.
    destruct (LiveRun.main_exited_quiet v w code log Hmain) as (H1 & H2 & _).
    cbn [log_of]. by rewrite H1, H2. }
  apply SyncFacts.main_uploading in Hmain as (Hparse' & _ & _ & Hlog0 & Hs).
  assert (o' = o) as -> by congruence.
  apply SyncFacts.run_cases in Hrun
    as [(sched & p & -> & Hex & ->)|(sched & p & -> & Hex & Hst)];
    pose proof (trace_lines_le_puts v w o bucket absDir Hlive entries _ p0 sched p
                  Hs Hex) as Hle.
  - cbn [log_of]. rewrite !List.filter_app, !length_app, Hlog0. cbn. lia.
  - cbn in Hst.
    destruct (Pool.settled p) as [[res|e]|]; [| |done]; injection Hst as <-;
      cbn [log_of]; rewrite !List.filter_app, !length_app, Hlog0; cbn; lia.
Qed.

End LiveOrder.

(** X13. A live run that goes well.  Without the dry flag and with a
    concurrency of at least 1, a run that ends with exit status 0 has
    logged the announcement, then for every listed file one request to
    the store, with the file's key, bytes and content type, and one
    success line, in some order, and the final line, and nothing else.  If
    every listed file can be read when its worker gets to it and the
    store accepts every object, every run ends so, after two resumptions
    per file; until then some step can be taken. *)
Theorem live_run (v : variant) (w : Sync.world) (o : Args.opts)
    (acts : list Sync.action) (st : Sync.state)
  (Hparse : Args.parseArgs (Sync.argv w) = Some o)
  (Hlive : Args.dry o = false)
  (Hrun : Sync.run v w acts (Sync.main v w) = Some st) :
  forall o' bucket absDir entries log0 p0 C,
    Sync.main v w = Sync.Uploading o' bucket absDir entries log0 p0 ->
    Args.concurrency o = Js.Int C -> (1 <= C)%Z ->
    (forall log,
       st = Sync.Exited 0 log ->
       exists lines,
         log = log0 ++ lines ++ [Sync.LogDone]
         /\ lines ≡ₚ flat_map (fun rel => [Live.put_of v w o bucket absDir rel;
                                           Live.put_line v o rel]) entries)
    /\ (Forall (Live.accepted v w o absDir) entries ->
        length acts <= 2 * length entries + 1
        /\ (length acts < 2 * length entries + 1 ->
            exists a st', Sync.step v w a st = Some st')
        /\ (length acts = 2 * length entries + 1 ->
            exists log, st = Sync.Exited 0 log)).
Proof.
  intros o' bucket absDir entries log0 p0 C Hmain HC HC1.
  rewrite Hmain in Hrun.
  apply SyncFacts.main_uploading in Hmain as (Hparse' & Hne & _ & Hlog0 & Hs).
  assert (o' = o) as -> by congruence.
  pose proof (PoolFacts.start_inv _ _ _ _ _ Hs) as Hinv0.
  rewrite HC in Hs.
  apply SyncFacts.run_cases in Hrun
    as [(sched & p & -> & Hex & ->)|(sched & p & -> & Hex & Hst)];
    pose proof (PoolFacts.exec_inv _ _ _ _ _ _ Hinv0 Hex) as Hinv.
  - split; [done|]. intros Hacc. rewrite length_fmap.
    destruct (LiveRun.live_total v w o bucket absDir Hlive entries Hacc)
      as (Htot & Hok & _).
    destruct (PoolFacts.run_to_completion _ _ v C p0 sched p HC1 Hs Hex Hok)
      as (Hle & Hlt & Heq).
    rewrite Htot in *. split; [lia|]. split; [|lia].
    intros _. destruct (decide (length sched < 2 * length entries)) as [Hl|Hl].
    + destruct (Hlt Hl) as (k & p' & Hf). exists (Sync.Resume k). cbn.
      rewrite Hf. eauto.
    + exists Sync.Finish. cbn. rewrite Heq by lia. eauto.
  - cbn in Hst.
    destruct (Pool.settled p) as [[res|e]|] eqn:Hset; [| |done]; injection Hst as <-.
    + pose proof (PoolFacts.runners_nonempty _ _ v C p0 sched p HC1 Hs Hex) as Hrn.
      destruct (PoolFacts.settled_fulfilled _ _ v p _ Hinv Hset Hrn)
        as (_ & Hcl & _ & Hok).
      assert (Hacc : Forall (Live.accepted v w o absDir) entries).
      { eapply Forall_impl; [exact Hok|]. intros rel.
        by apply LiveRun.upload_live_fulfils. }
      destruct (LiveRun.live_total v w o bucket absDir Hlive entries Hacc)
        as (Htot & _ & Hlines).
      split.
      * intros log [= <-]. exists (Pool.trace p). split; [done|].
        pose proof (Pool.inv_events _ _ _ _ _ Hinv) as Hev.
        unfold Pool.settled in Hset.
        destruct (Pool.rejection p); [done|].
        destruct (forallb Pool.is_finished (Pool.runners p)) eqn:Hall; [|done].
        rewrite (DryRun.finished_no_pending _ Hall), app_nil_r in Hev.
        rewrite take_ge in Hev; [by rewrite Hev, <- Hlines|].
        pose proof (Pool.inv_claims _ _ _ _ _ Hinv) as Hc. rewrite Hcl in Hc.
        assert (Hlen : length (seq 0 (length entries))
                       = length (seq 0 (Pool.claimed entries p))) by congruence.
        rewrite !length_seq in Hlen. unfold Pool.claimed in Hlen. lia.
      * intros _. rewrite length_app, length_fmap. cbn [length].
        pose proof (DryRun.settled_remaining _ _ v p _ Hinv Hset Hrn) as Hrem.
        pose proof (PoolFacts.start_remaining _ _ _ _ _ Hs) as Hr0.
        pose proof (PoolFacts.exec_remaining _ _ _ _ _ _ Hex) as Hr.
        rewrite Htot in *. split; [lia|]. split; [lia|]. eauto.
    + split; [done|]. intros Hacc. exfalso.
      destruct (LiveRun.live_total v w o bucket absDir Hlive entries Hacc)
        as (_ & Hok & _).
      destruct (PoolFacts.no_failure _ _ v p Hinv Hok) as [Hr _].
      unfold Pool.settled in Hset. by rewrite Hr in Hset;
        destruct (forallb Pool.is_finished (Pool.runners p)).
Qed.

(** X14. No file is put twice.  In a live run, at any time and also when
    reads or requests fail, whatever the concurrency: the requests sent so
    far are among one request per listed file that can be read, with that
    file's key, bytes and content type, so there are never more requests
    than listed files; the success lines logged so far are among one line
    per listed file that can be read and that the store accepts; and no
    dry-run line is logged. *)
Theorem no_file_put_twice (v : variant) (w : Sync.world) (o : Args.opts)
    (acts : list Sync.action) (st : Sync.state)
  (Hparse : Args.parseArgs (Sync.argv w) = Some o)
  (Hlive : Args.dry o = false)
  (Hrun : Sync.run v w acts (Sync.main v w) = Some st) :
  let bucket := default EmptyString (Sync.S3_BUCKET w) in
  let absDir := Sync.path_resolve w (Sync.cwd w) (default EmptyString (Args.dir o)) in
  let entries := default [] (Sync.glob w absDir) in
  List.filter Sync.is_put (Sync.log_of st)
    ⊆+ flat_map (Live.puts v w o bucket absDir) entries
  /\ length (List.filter Sync.is_put (Sync.log_of st)) <= length entries
  /\ List.filter Sync.is_put_line (Sync.log_of st)
       ⊆+ flat_map (Live.put_lines v w o absDir) entries
  /\ length (List.filter Sync.is_put_line (Sync.log_of st))
     <= length (List.filter Sync.is_put (Sync.log_of st))
  /\ List.filter Sync.is_dry_line (Sync.log_of st) = [].
Proof.
  intros bucket absDir entries.
  destruct (LiveLog.log_accounting v w o acts st Hparse Hlive Hrun)
    as (Hputs & Hlines & Hdry).
  fold bucket absDir entries in Hputs, Hlines.
  split; [done|]. split; [|split; [done|split; [|done]]].
  - apply submseteq_length in Hputs. etrans; [exact Hputs|].
    clear. induction entries as [|rel es IH]; [done|].
    cbn [flat_map]. rewrite length_app. unfold Live.puts at 1.
    destruct (Sync.readFileSync w _); cbn [length]; lia.
  - exact (LiveOrder.log_lines_le_puts v w o acts st Hparse Hlive Hrun).
Qed.

(** Two readable files that the store accepts, two runners. *)
Lemma live_run_witness :
  exists lines,
    Sync.run V1 MoreExamples.live_ok
      [Sync.Resume 0; Sync.Resume 1; Sync.Resume 0; Sync.Resume 1; Sync.Finish]
      (Sync.main V1 MoreExamples.live_ok)
    = Some (Sync.Exited 0 ([Sync.LogUploading 2 "bucket" ""]
                           ++ lines ++ [Sync.LogDone]))
    /\ lines ≡ₚ [Sync.Put "bucket" "a.txt" [Byte.x61; Byte.x62; Byte.x63]
                   "application/octet-stream";
                 Sync.LogPut "a.txt";
                 Sync.Put "bucket" "b.txt" [Byte.x61; Byte.x62; Byte.x63]
                   "application/octet-stream";
                 Sync.LogPut "b.txt"].
Proof.
  destruct (Sync.run V1 MoreExamples.live_ok
              [Sync.Resume 0; Sync.Resume 1; Sync.Resume 0; Sync.Resume 1;
               Sync.Finish]
              (Sync.main V1 MoreExamples.live_ok)) as [st|] eqn:Hrun;
    [|vm_compute in Hrun; discriminate].
  pose proof (live_run V1 MoreExamples.live_ok
                (Args.Opts (Some "d") "" false (Js.Int 2)) _ st
                eq_refl eq_refl Hrun) as H.
  destruct (Sync.main V1 MoreExamples.live_ok)
    as [code log|o bucket absDir entries log0 p0] eqn:Hm;
    [vm_compute in Hm; discriminate|].
  assert (Hacc : Forall (Live.accepted V1 MoreExamples.live_ok
                           (Args.Opts (Some "d") "" false (Js.Int 2)) absDir)
                        entries).
  { vm_compute in Hm. injection Hm as <- <- <- <- <- <-.
    repeat constructor; eexists; reflexivity. }
  assert (H2 : (1 <= 2)%Z) by lia.
  destruct (H o bucket absDir entries log0 p0 2%Z eq_refl eq_refl H2)
    as (Hlog & Hend).
  destruct (Hend Hacc) as (_ & _ & Hexit).
  vm_compute in Hm. injection Hm as <- <- <- <- <- <-.
  destruct (Hexit eq_refl) as (log & ->).
  destruct (Hlog log eq_refl) as (lines & -> & Hlines).
  exists lines. split; [reflexivity | exact Hlines].
Defined.

(** Scenario D: the read of the second file fails and [main] ends in its
    [catch]; the two requests that were sent are those for the two other
    files. *)
Lemma no_file_put_twice_witness :
  exists st,
    Sync.run V1 Examples.scenario_D [Sync.Resume 1; Sync.Finish]
      (Sync.main V1 Examples.scenario_D) = Some st
    /\ List.filter Sync.is_put (Sync.log_of st)
       ⊆+ [Sync.Put "bucket" "a.txt" [Byte.x61; Byte.x62; Byte.x63]
             "application/octet-stream";
           Sync.Put "bucket" "c.txt" [Byte.x61; Byte.x62; Byte.x63]
             "application/octet-stream"].
Proof.
  destruct (Sync.run V1 Examples.scenario_D [Sync.Resume 1; Sync.Finish]
              (Sync.main V1 Examples.scenario_D)) as [st|] eqn:Hrun;
    [|vm_compute in Hrun; discriminate].
  exists st. split; [reflexivity|].
  exact (proj1 (no_file_put_twice V1 Examples.scenario_D
                  (Args.Opts (Some "d") "" false (Js.Int 5)) _ st
                  eq_refl eq_refl Hrun)).
Defined.

(** X15. A concurrency that is not a positive number: [NaN] (the value of
    [--concurrency] has no digit to read), zero or negative.  With the
    environment set and files listed, the first variant announces the
    upload, starts no runner, and ends with ['Done.'] and exit status 0
    without having read or sent a file; the second variant does the same
    for zero, and for [NaN] and negative numbers ends in the [catch] of
    [main] with the RangeError of [new Array] and exit status 1. *)
Theorem run_without_runners (v : variant) (w : Sync.world) (o : Args.opts)
    (entries : list string)
  (Hparse : Args.parseArgs (Sync.argv w) = Some o)
  (Henv : Sync.unset (Sync.S3_BUCKET w) || Sync.unset (Sync.AWS_REGION w) = false)
  (Hglob : Sync.glob w (Sync.path_resolve w (Sync.cwd w)
                          (default EmptyString (Args.dir o))) = Some entries)
  (Hfiles : entries <> [])
  (Hconc : Args.concurrency o = Js.NaN
           \/ exists C, Args.concurrency o = Js.Int C /\ (C <= 0)%Z) :
  let announce := Sync.LogUploading (length entries)
                    (default EmptyString (Sync.S3_BUCKET w)) (Args.prefix o) in
  (v = V1 \/ Args.concurrency o = Js.Int 0 ->
   Sync.run v w [Sync.Finish] (Sync.main v w)
   = Some (Sync.Exited 0 [announce; Sync.LogDone])
   /\ forall k, Sync.run v w [Sync.Resume k] (Sync.main v w) = None)
  /\ (v = V2 -> Args.concurrency o <> Js.Int 0 ->
      Sync.main v w
      = Sync.Exited 1 [announce; Sync.ErrCaught Sync.InvalidArrayLength]).
Proof.
  intros announce. subst announce.
  unfold Sync.main. rewrite Hparse, Henv, Hglob.
  destruct entries as [|rel es]; [done|].
  unfold Pool.start, Pool.runner_count.
  split.
  - intros Hv.
    assert (Hn : match v with
                 | V1 => Some (Js.to_length
                           (Js.math_min (Args.concurrency o) (length (rel :: es))))
                 | V2 => Js.new_array_length
                           (Js.math_min (Args.concurrency o) (length (rel :: es)))
                 end = Some 0).
    { destruct Hv as [-> | Hz].
      - destruct Hconc as [->|(C & -> & HC)]; [done|].
        cbn [Js.math_min Js.to_length]. f_equal. lia.
      - rewrite Hz. by destruct v. }
    rewrite Hn. cbn [Nat.iter nat_rect]. split; [by destruct v|].
    intros k. cbn. by destruct k.
  - intros -> Hnz.
    destruct Hconc as [->|(C & HCe & HC)]; [done|].
    rewrite HCe in *.
    cbn [Js.math_min Js.new_array_length].
    destruct (0 <=? C `min` Z.of_nat (length (rel :: es)))%Z eqn:H0; [|done].
    apply Z.leb_le in H0. exfalso. apply Hnz. f_equal. lia.
Qed.

(** [--concurrency many]: the first variant reports success and has
    uploaded nothing. *)
Lemma run_without_runners_witness :
  Sync.run V1 MoreExamples.nan_concurrency [Sync.Finish]
    (Sync.main V1 MoreExamples.nan_concurrency)
  = Some (Sync.Exited 0 [Sync.LogUploading 1 "bucket" ""; Sync.LogDone]).
Proof.
  apply (proj1 (run_without_runners V1 MoreExamples.nan_concurrency
                  (Args.Opts (Some "d") "" false Js.NaN) ["a.txt"]
                  eq_refl eq_refl eq_refl ltac:(discriminate)
                  (or_introl eq_refl)) (or_introl eq_refl)).
Defined.

Module TallyFacts.
Import Pool Tally.

Lemma count_app {X} (f : X -> bool) l k : count f (l ++ k) = count f l + count f k.
Proof. unfold count. by rewrite List.filter_app, length_app. Qed.

Lemma count_cons {X} (f : X -> bool) x l :
  count f (x :: l) = Nat.b2n (f x) + count f l.
Proof. unfold count. cbn. by destruct (f x). Qed.

Lemma count_le {X} (f g : X -> bool) l :
  (forall x, f x && g x = false) -> count f l + count g l <= length l.
Proof.
  intros H. induction l as [|x l IH]; [done|].
  rewrite !count_cons. cbn [length]. specialize (H x).
  destruct (f x), (g x); cbn in *; try done; lia.
Qed.

Lemma count_insert {X} (f : X -> bool) l : forall k x y,
  l !! k = Some x ->
  count f (<[k := y]> l) + Nat.b2n (f x) = count f l + Nat.b2n (f y).
Proof.
  induction l as [|z l IH]; intros k x y Hk; [done|].
  destruct k as [|k]; cbn in Hk.
  - injection Hk as ->. cbn [insert list_insert]. rewrite !count_cons. lia.
  - change (<[S k := y]> (z :: l)) with (z :: <[k := y]> l).
    rewrite !count_cons. specialize (IH k x y Hk). lia.
Qed.

Lemma stored_holes {R} n : stored (replicate n (@None R)) = 0.
Proof.
  unfold stored. induction n as [|n IH]; [done|].
  cbn [replicate]. by rewrite count_cons, IH.
Qed.

Lemma stored_set {R} (i : nat) (r : R) (a : list (option R)) :
  ~ filled a i -> stored (Js.set i r a) = S (stored a).
Proof.
  intros Hnf. unfold Js.set, stored.
  destruct (i <? length a) eqn:Hi.
  - apply Nat.ltb_lt in Hi.
    destruct (lookup_lt_is_Some_2 a i Hi) as [x Hx].
    destruct x as [r0|]; [exfalso; apply Hnf; by exists r0|].
    pose proof (count_insert is_value a i None (Some r) Hx) as H.
    cbn in H. lia.
  - rewrite !count_app. fold (@stored R (replicate (i - length a) None)).
    rewrite stored_holes. cbn. lia.
Qed.

Section Tally.
Context {A R E Ev : Type}.
Variable worker : A -> list Ev * task R E Ev.
Variable items : list A.

Local Abbreviation inv := (Pool.inv worker items).
Local Abbreviation iterate := (Pool.iterate worker items).
Local Abbreviation fire := (Pool.fire worker items).
Local Abbreviation exec := (Pool.exec worker items).
Local Abbreviation start := (Pool.start worker items).
Local Abbreviation spawn := (Pool.spawn worker items).
Local Abbreviation claimed := (Pool.claimed items).

Implicit Types (s : pool R E Ev).

(** Every call made so far is stored, in flight, or has thrown. *)
Local Abbreviation tally s :=
  (claimed s
   = stored (results s) + in_flight (runners s) + thrown (runners s)).

Lemma iterate_tally v k s s' r' :
  iterate v k s = (s', r') ->
  claimed s' = claimed s + Nat.b2n (is_awaiting r')
  /\ is_failed r' = false
  /\ results s' = results s /\ runners s' = runners s.
Proof.
  intros Hit.
  destruct (PoolFacts.iterate_cases worker items v k s)
    as [(x & Hx & Heq)|(Hle & Heq)]; rewrite Heq in Hit.
  - unfold call in Hit. injection Hit as <- <-.
    apply lookup_lt_Some in Hx. unfold Pool.claimed. cbn -[Nat.min].
    repeat split. lia.
  - injection Hit as <- <-. unfold Pool.claimed.
    destruct v; cbn -[Nat.min]; repeat split; lia.
Qed.

Lemma spawn_tally v s : tally s -> tally (spawn v s).
Proof.
  intros Ht. unfold Pool.spawn.
  destruct (iterate v (length (runners s)) s) as [s' r'] eqn:Hit.
  destruct (iterate_tally _ _ _ _ _ Hit) as (Hc & Hf & Hr & Hrs).
  unfold in_flight, thrown, Pool.claimed in *.
  cbn [runners results nextIndex with_runners].
  rewrite !count_app, !count_cons, Hr, Hrs, Hf.
  change (count is_awaiting []) with 0. change (count is_failed []) with 0.
  cbn [Nat.b2n]. lia.
Qed.

Lemma fire_tally v k s s' :
  inv v None s -> tally s -> fire v k s = Some s' -> tally s'.
Proof.
  intros Hinv Ht Hf. unfold Pool.fire in Hf.
  destruct (runners s !! k) as [[i [[r|e]|evs t]| |]|] eqn:Hk; try done.
  - set (s1 := Mk _ _ _ _ _ _) in *.
    destruct (iterate v k s1) as [s2 r'] eqn:Hit. injection Hf as <-.
    destruct (iterate_tally _ _ _ _ _ Hit) as (Hc & Hfl & Hr & Hrs).
    destruct Hinv as [_ Ha _ _ _ _ _ _ _ _].
    destruct (Ha k i _ ltac:(done) Hk) as [Hnf _].
    pose proof (stored_set i r (results s) Hnf) as Hst.
    pose proof (count_insert is_awaiting (runners s) k _ r' Hk) as H1.
    pose proof (count_insert is_failed (runners s) k _ r' Hk) as H2.
    unfold in_flight, thrown, Pool.claimed in *.
    cbn [runners results nextIndex with_runners s1 Nat.b2n is_awaiting is_failed] in *.
    rewrite Hr, Hrs, Hst. rewrite Hfl in H2. cbn [Nat.b2n] in H2. lia.
  - injection Hf as <-.
    pose proof (count_insert is_awaiting (runners s) k _ (Failed e) Hk) as H1.
    pose proof (count_insert is_failed (runners s) k _ (Failed e) Hk) as H2.
    unfold in_flight, thrown, Pool.claimed in *.
    cbn [runners results nextIndex Nat.b2n is_awaiting is_failed] in *. lia.
  - injection Hf as <-.
    pose proof (count_insert is_awaiting (runners s) k _ (Awaiting i t) Hk) as H1.
    pose proof (count_insert is_failed (runners s) k _ (Awaiting i t) Hk) as H2.
    unfold in_flight, thrown, Pool.claimed in *.
    cbn [runners results nextIndex Nat.b2n is_awaiting is_failed] in *. lia.
Qed.

Lemma exec_tally v sched : forall s s',
  inv v None s -> tally s -> exec v sched s = Some s' -> tally s'.
Proof.
  induction sched as [|k sched IH]; intros s s' Hinv Ht Hex; cbn in Hex.
  - by injection Hex as <-.
  - destruct (fire v k s) as [s1|] eqn:Hf; [|done].
    eapply IH; [|by eapply fire_tally|exact Hex].
    by eapply PoolFacts.fire_inv.
Qed.

Lemma start_tally v limit s0 : start v limit = Some s0 -> tally s0.
Proof.
  unfold Pool.start. destruct (runner_count items v limit) as [n|]; [|done].
  intros [= <-]. induction n as [|n IH].
  - unfold Pool.claimed, pool0. cbn [Nat.iter nat_rect results runners nextIndex].
    change (in_flight (@nil (runner R E Ev))) with 0.
    change (thrown (@nil (runner R E Ev))) with 0.
    destruct v; [|done]. unfold Js.new_array. by rewrite stored_holes.
  - rewrite Nat.iter_succ. by apply spawn_tally.
Qed.

End Tally.

End TallyFacts.

Section Bounded.
Context {A R E Ev : Type}.
Variable worker : A -> list Ev * Pool.task R E Ev.
Variable items : list A.

(** X16. The uploader is bounded.  At any time every call of the worker
    made so far has its result stored, is in flight, or has thrown, and
    there is one runner for each call in flight or thrown: with a limit
    [C >= 0] never more than [min(C, L)] calls are in flight, and never
    more calls have been started than results are stored plus
    [min(C, L)]. *)
Theorem bounded_in_flight (v : variant) (C : Z)
    (s0 s : Pool.pool R E Ev) (sched : list nat)
  (HC : (0 <= C)%Z)
  (Hstart : Pool.start worker items v (Js.Int C) = Some s0)
  (Hexec : Pool.exec worker items v sched s0 = Some s) :
  Pool.claimed items s
  = Tally.stored (Pool.results s) + Tally.in_flight (Pool.runners s)
    + Tally.thrown (Pool.runners s)
  /\ Tally.in_flight (Pool.runners s) + Tally.thrown (Pool.runners s)
     <= Z.to_nat C `min` length items
  /\ length (Pool.claims s)
     <= Tally.stored (Pool.results s) + Z.to_nat C `min` length items.
Proof.
  pose proof (PoolFacts.start_inv _ _ _ _ _ Hstart) as Hinv0.
  pose proof (PoolFacts.exec_inv _ _ _ _ _ _ Hinv0 Hexec) as Hinv.
  pose proof (TallyFacts.exec_tally worker items v sched s0 s Hinv0
                (TallyFacts.start_tally worker items v _ s0 Hstart) Hexec) as Ht.
  assert (Hlen : length (Pool.runners s) = Z.to_nat C `min` length items).
  { rewrite (PoolFacts.exec_length _ _ _ _ _ _ Hexec).
    destruct (PoolFacts.start_Int worker items v C HC) as (s0' & Hs0' & Hl).
    congruence. }
  assert (Hb : Tally.in_flight (Pool.runners s) + Tally.thrown (Pool.runners s)
               <= length (Pool.runners s)).
  { apply TallyFacts.count_le. by intros [| |]. }
  split; [done|]. split; [lia|].
  assert (Hcl : length (Pool.claims s) = Pool.claimed items s).
  { rewrite <- (length_fmap snd), (Pool.inv_claims _ _ _ _ _ Hinv).
    apply length_seq. }
  lia.
Qed.

End Bounded.

Lemma bounded_in_flight_witness :
  exists s0 s,
    Pool.start Examples.times_ten [1; 7; 3; 4] V2 (Js.Int 2) = Some s0
    /\ Pool.exec Examples.times_ten [1; 7; 3; 4] V2 [0; 0; 1] s0 = Some s
    /\ Tally.in_flight (Pool.runners s) + Tally.thrown (Pool.runners s) <= 2.
Proof.
  assert (HC : (0 <= 2)%Z) by lia.
  destruct (Pool.start Examples.times_ten [1; 7; 3; 4] V2 (Js.Int 2))
    as [s0|] eqn:Hs; [|vm_compute in Hs; discriminate].
  pose proof Hs as Hs'. vm_compute in Hs'. injection Hs' as Hs0.
  destruct (Pool.exec Examples.times_ten [1; 7; 3; 4] V2 [0; 0; 1] s0)
    as [s|] eqn:Hex; [|rewrite <- Hs0 in Hex; vm_compute in Hex; discriminate].
  exists s0, s. split; [reflexivity|]. split; [exact Hex|].
  exact (proj1 (proj2 (bounded_in_flight Examples.times_ten [1; 7; 3; 4] V2 2
                  s0 s [0; 0; 1] HC Hs Hex))).
Defined.

Module AgreeFacts.
Import Pool.

Section Ext.
Context {A R E Ev : Type}.
Variables worker worker' : A -> list Ev * task R E Ev.
Variable items : list A.
Hypothesis Hext : forall x, worker x = worker' x.

Implicit Types (s : pool R E Ev).

Lemma iterate_ext v k s :
  Pool.iterate worker items v k s = Pool.iterate worker' items v k s.
Proof.
  unfold Pool.iterate, call. destruct v.
  - destruct (length items <=? nextIndex s); [done|].
    destruct (items !! nextIndex s) as [x|]; [|done]. by rewrite Hext.
  - destruct (nextIndex s <? length items); [|done].
    destruct (items !! nextIndex s) as [x|]; [|done]. by rewrite Hext.
Qed.

Lemma spawn_ext v s : Pool.spawn worker items v s = Pool.spawn worker' items v s.
Proof. unfold Pool.spawn. by rewrite iterate_ext. Qed.

Lemma start_ext v limit :
  Pool.start worker items v limit = Pool.start worker' items v limit.
Proof.
  unfold Pool.start. destruct (runner_count items v limit) as [n|]; [|done].
  f_equal. induction n as [|n IH]; [done|].
  by rewrite !Nat.iter_succ, IH, spawn_ext.
Qed.

Lemma fire_ext v k s : Pool.fire worker items v k s = Pool.fire worker' items v k s.
Proof.
  unfold Pool.fire.
  destruct (runners s !! k) as [[i [[r|e]|evs t]| |]|]; try done.
  by rewrite iterate_ext.
Qed.

Lemma exec_ext v sched : forall s,
  Pool.exec worker items v sched s = Pool.exec worker' items v sched s.
Proof.
  induction sched as [|k sched IH]; intros s; [done|].
  cbn. rewrite fire_ext. by destruct (Pool.fire worker' items v k s).
Qed.

End Ext.

Import Sync Agree.

Lemma upload_variants w o bucket absDir rel :
  upload V1 w o bucket absDir rel = upload V2 w o bucket absDir rel.
Proof.
  unfold upload, KeyMapper.key. by rewrite !KeyMore2.path_part_replace.
Qed.

Lemma main_alike w :
  (forall o, Args.parseArgs (argv w) = Some o ->
             exists C, Args.concurrency o = Js.Int C /\ (0 <= C)%Z) ->
  alike (main V1 w) (main V2 w).
Proof.
  intros HC. unfold main.
  destruct (Args.parseArgs (argv w)) as [o|]; [|done].
  destruct (HC o eq_refl) as (C & -> & HC0).
  destruct (unset (S3_BUCKET w) || unset (AWS_REGION w)); [done|].
  destruct (glob w _) as [[|rel es]|]; [done| |done].
  set (b := default EmptyString (S3_BUCKET w)).
  set (d := path_resolve w (cwd w) (default EmptyString (Args.dir o))).
  rewrite <- (start_ext (upload V1 w o b d) (upload V2 w o b d) (rel :: es)
                (upload_variants w o b d) V2).
  destruct (PoolFacts.sim_start (upload V1 w o b d) (rel :: es) C HC0)
    as (s1 & s2 & -> & -> & Hsim).
  cbn. done.
Qed.

Lemma step_alike w a st1 st2 :
  alike st1 st2 ->
  match step V1 w a st1, step V2 w a st2 with
  | Some st1', Some st2' => alike st1' st2'
  | None, None => True
  | _, _ => False
  end.
Proof.
  destruct st1 as [c1 l1|o b d es l0 p1], st2 as [c2 l2|o2 b2 d2 es2 l2 p2];
    try done.
  intros (<- & <- & <- & <- & <- & Hsim). destruct a as [k|]; cbn [step].
  - rewrite <- (fire_ext (upload V1 w o b d) (upload V2 w o b d) es
                  (upload_variants w o b d) V2).
    pose proof (PoolFacts.sim_fire (upload V1 w o b d) es k p1 p2 Hsim) as Hf.
    destruct (Pool.fire _ es V1 k p1), (Pool.fire _ es V2 k p2); try done.
  - destruct Hsim as (Hrs & Htr & _ & Hrj & _).
    unfold settled. rewrite <- Hrj, <- Hrs, <- Htr.
    destruct (rejection p1); [done|].
    by destruct (forallb is_finished (runners p1)).
Qed.

Lemma run_alike w acts : forall st1 st2,
  alike st1 st2 ->
  match run V1 w acts st1, run V2 w acts st2 with
  | Some st1', Some st2' => alike st1' st2'
  | None, None => True
  | _, _ => False
  end.
Proof.
  induction acts as [|a acts IH]; intros st1 st2 Hal; [done|].
  cbn [run]. pose proof (step_alike w a st1 st2 Hal) as Hs.
  destruct (step V1 w a st1), (step V2 w a st2); try done. by apply IH.
Qed.

Lemma alike_observed st1 st2 :
  alike st1 st2 -> log_of st1 = log_of st2 /\ exit_code st1 = exit_code st2.
Proof.
  destruct st1, st2; try done.
  - by intros [-> ->].
  - intros (_ & _ & _ & _ & -> & _ & Htr & _). cbn. by rewrite Htr.
Qed.

End AgreeFacts.

(** X17. The two variants of the script cannot be told apart when the
    concurrency is a number that is not negative: under every schedule
    both take the same steps, log the same lines and send the same
    requests in the same order, and end with the same exit status. *)
Theorem scripts_agree (w : Sync.world) (acts : list Sync.action)
  (Hconc : forall o, Args.parseArgs (Sync.argv w) = Some o ->
                     exists C, Args.concurrency o = Js.Int C /\ (0 <= C)%Z) :
  match Sync.run V1 w acts (Sync.main V1 w), Sync.run V2 w acts (Sync.main V2 w) with
  | Some st1, Some st2 =>
      Sync.log_of st1 = Sync.log_of st2
      /\ Agree.exit_code st1 = Agree.exit_code st2
  | None, None => True
  | _, _ => False
  end.
Proof.
  pose proof (AgreeFacts.run_alike w acts _ _ (AgreeFacts.main_alike w Hconc)) as H.
  destruct (Sync.run V1 w acts _), (Sync.run V2 w acts _); try done.
  by apply AgreeFacts.alike_observed.
Qed.

Lemma scripts_agree_witness :
  exists st1 st2,
    Sync.run V1 Examples.scenario_D [Sync.Resume 1; Sync.Finish]
      (Sync.main V1 Examples.scenario_D) = Some st1
    /\ Sync.run V2 Examples.scenario_D [Sync.Resume 1; Sync.Finish]
         (Sync.main V2 Examples.scenario_D) = Some st2
    /\ Sync.log_of st1 = Sync.log_of st2.
Proof.
  assert (Hc : forall o, Args.parseArgs (Sync.argv Examples.scenario_D) = Some o ->
                 exists C, Args.concurrency o = Js.Int C /\ (0 <= C)%Z).
  { intros o [= <-]. exists 5%Z. split; [reflexivity|lia]. }
  pose proof (scripts_agree Examples.scenario_D [Sync.Resume 1; Sync.Finish] Hc) as H.
  destruct (Sync.run V1 Examples.scenario_D [Sync.Resume 1; Sync.Finish]
              (Sync.main V1 Examples.scenario_D)) as [st1|] eqn:H1;
    [|vm_compute in H1; discriminate].
  destruct (Sync.run V2 Examples.scenario_D [Sync.Resume 1; Sync.Finish]
              (Sync.main V2 Examples.scenario_D)) as [st2|] eqn:H2;
    [|vm_compute in H2; discriminate].
  exists st1, st2. split; [reflexivity|]. split; [reflexivity|]. exact (proj1 H).
Defined.

Module Requests.
Import Sync.

Lemma put_logged_env v w acts st b key body ct :
  run v w acts (main v w) = Some st ->
  Put b key body ct ∈ log_of st ->
  unset (S3_BUCKET w) = false.
Proof.
  intros Hrun Hin.
  destruct (main v w) as [code log|o' b' d' es' log0 p0] eqn:Hmain.
  - destruct acts as [|a acts]; [|done]. injection Hrun as <-.
    destruct (LiveRun.main_exited_quiet v w code log Hmain) as (H1 & _).
    assert (Hf : Put b key body ct ∈ List.filter is_put log).
    { apply list_elem_of_In, List.filter_In. split; [by apply list_elem_of_In|done]. }
    cbn [log_of] in Hin. rewrite H1 in Hf. by apply elem_of_nil in Hf.
  - unfold main in Hmain. destruct (Args.parseArgs (argv w)); [|done].
    destruct (unset (S3_BUCKET w)); [done|done].
Qed.

End Requests.

(** X18. Every request of a live run is well formed: it goes to the
    bucket named by [S3_BUCKET], which is not empty; it is the request for
    one of the listed files, with the key mapped from that file's path,
    the bytes read from that file, and the content type resolved for its
    path, which is not empty; and when the prefix has no backslash neither
    has the key. *)
Theorem requests_well_formed (v : variant) (w : Sync.world) (o : Args.opts)
    (acts : list Sync.action) (st : Sync.state)
    (b key : string) (body : list Byte.byte) (ct : string)
  (Hparse : Args.parseArgs (Sync.argv w) = Some o)
  (Hlive : Args.dry o = false)
  (Hrun : Sync.run v w acts (Sync.main v w) = Some st)
  (Hsent : Sync.Put b key body ct ∈ Sync.log_of st) :
  let absDir := Sync.path_resolve w (Sync.cwd w) (default EmptyString (Args.dir o)) in
  Sync.S3_BUCKET w = Some b /\ b <> ""
  /\ ct <> ""
  /\ (More.contains "\" (Args.prefix o) = false -> More.contains "\" key = false)
  /\ exists entries rel,
       Sync.glob w absDir = Some entries /\ rel ∈ entries
       /\ key = KeyMapper.key v (Args.prefix o) rel
       /\ Sync.readFileSync w (Sync.path_join w absDir rel) = Some body
       /\ ct = ContentType.resolve (Sync.mime_lookup w) rel.
Proof.
  intros absDir.
  pose proof (Requests.put_logged_env v w acts st b key body ct Hrun Hsent) as Henv.
  destruct (LiveLog.log_accounting v w o acts st Hparse Hlive Hrun) as (Hputs & _).
  fold absDir in Hputs.
  assert (Hf : Sync.Put b key body ct ∈ List.filter Sync.is_put (Sync.log_of st)).
  { apply list_elem_of_In, List.filter_In. split; [by apply list_elem_of_In|done]. }
  apply (elem_of_submseteq _ _ _ Hf) in Hputs.
  apply list_elem_of_In, in_flat_map in Hputs as (rel & Hrel & Hput).
  apply list_elem_of_In in Hrel, Hput.
  unfold Live.puts, Live.put_of in Hput.
  destruct (Sync.readFileSync w (Sync.path_join w absDir rel)) as [data|] eqn:Hread;
    [|by apply elem_of_nil in Hput].
  apply list_elem_of_singleton in Hput. cbn [default] in Hput.
  injection Hput as Hb Hkey Hbody Hct.
  destruct (Sync.S3_BUCKET w) as [[|c r]|] eqn:Hbucket; try done.
  cbn in Hb. subst b key body ct.
  split; [done|]. split; [done|]. split.
  { unfold ContentType.resolve.
    by destruct (Sync.mime_lookup w rel) as [[|? ?]|]. }
  split; [intros Hp; by rewrite KeyMore2.key_contains|].
  destruct (Sync.glob w absDir) as [entries|] eqn:Hglob;
    [|by apply elem_of_nil in Hrel].
  exists entries, rel. done.
Qed.

(** Scenario D: the request for the first file. *)
Lemma requests_well_formed_witness :
  exists st,
    Sync.run V1 Examples.scenario_D [Sync.Resume 1; Sync.Finish]
      (Sync.main V1 Examples.scenario_D) = Some st
    /\ Sync.S3_BUCKET Examples.scenario_D = Some "bucket".
Proof.
  destruct (Sync.run V1 Examples.scenario_D [Sync.Resume 1; Sync.Finish]
              (Sync.main V1 Examples.scenario_D)) as [st|] eqn:Hrun;
    [|vm_compute in Hrun; discriminate].
  exists st. split; [reflexivity|].
  assert (Hin : Sync.Put "bucket" "a.txt" [Byte.x61; Byte.x62; Byte.x63]
                  "application/octet-stream" ∈ Sync.log_of st).
  { vm_compute in Hrun. injection Hrun as <-. cbn [Sync.log_of].
    apply list_elem_of_In. right. left. reflexivity. }
  exact (proj1 (requests_well_formed V1 Examples.scenario_D
                  (Args.Opts (Some "d") "" false (Js.Int 5))
                  [Sync.Resume 1; Sync.Finish] st
                  "bucket" "a.txt" [Byte.x61; Byte.x62; Byte.x63]
                  "application/octet-stream" eq_refl eq_refl Hrun Hin)).
Defined.

Module Settles.
Import Pool.

Section Settles.
Context {A R E Ev : Type}.
Variable worker : A -> list Ev * task R E Ev.
Variable items : list A.

Local Abbreviation inv := (Pool.inv worker items).
Local Abbreviation fire := (Pool.fire worker items).
Local Abbreviation exec := (Pool.exec worker items).
Local Abbreviation remaining := (Pool.remaining worker items).

Implicit Types (s : pool R E Ev) (rs : list (runner R E Ev)).

Lemma unfinished_lookup rs :
  forallb is_finished rs = false ->
  exists k r, rs !! k = Some r /\ is_finished r = false.
Proof.
  induction rs as [|r rs IH]; [done|]. cbn [forallb].
  destruct (is_finished r) eqn:Hr.
  - intros (k & r' & Hk & Hr')%IH. by exists (S k), r'.
  - intros _. by exists 0, r.
Qed.

(** A pool that has not settled has a runner that can be resumed. *)
Lemma pending_enabled v s :
  inv v None s -> settled s = None -> exists k s', fire v k s = Some s'.
Proof.
  intros Hinv Hset. unfold settled in Hset.
  destruct (rejection s) as [e|] eqn:Hrej; [done|].
  destruct (forallb is_finished (runners s)) eqn:Hfin; [done|].
  destruct (unfinished_lookup _ Hfin) as (k & r & Hk & Hr).
  destruct r as [i t| |e]; [|done|].
  - destruct (proj2 (PoolFacts.fire_enabled worker items v k s)) as [s' Hs'];
      [by eauto|]. by exists k, s'.
  - destruct (Pool.inv_failed _ _ _ _ _ Hinv k e Hk) as [[e0 He0] _]. congruence.
Qed.

Lemma settles_within v n : forall s,
  inv v None s -> remaining s <= n ->
  exists sched s', exec v sched s = Some s' /\ is_Some (settled s')
                   /\ length sched <= remaining s.
Proof.
  induction n as [|n IH]; intros s Hinv Hrem.
  - destruct (settled s) as [o|] eqn:Hset.
    + exists [], s. split; [done|]. split; [by rewrite Hset|cbn; lia].
    + destruct (pending_enabled v s Hinv Hset) as (k & s1 & Hf).
      pose proof (PoolFacts.fire_remaining _ _ _ _ _ _ Hf). lia.
  - destruct (settled s) as [o|] eqn:Hset.
    + exists [], s. split; [done|]. split; [by rewrite Hset|cbn; lia].
    + destruct (pending_enabled v s Hinv Hset) as (k & s1 & Hf).
      pose proof (PoolFacts.fire_remaining _ _ _ _ _ _ Hf) as Hr.
      destruct (IH s1 (PoolFacts.fire_inv _ _ _ _ _ _ Hinv Hf) ltac:(lia))
        as (sched & s' & Hex & Hs' & Hlen).
      exists (k :: sched), s'. cbn. rewrite Hf. split; [done|]. split; [done|lia].
Qed.

End Settles.

End Settles.

(** X19. The script always comes to an end.  From every state that a run
    reaches, whatever the concurrency and whether or not reads and
    requests fail, there is a way on to the end of [main]: some runners
    are resumed until [Promise.all] settles, and [main] ends with exit
    status 0 or 1, having kept every line logged so far. *)
Theorem run_can_end (v : variant) (w : Sync.world)
    (acts : list Sync.action) (st : Sync.state)
  (Hrun : Sync.run v w acts (Sync.main v w) = Some st) :
  exists acts' code log,
    Sync.run v w acts' st = Some (Sync.Exited code log)
    /\ (code = 0 \/ code = 1)
    /\ Sync.log_of st `prefix_of` log.
Proof.
  destruct (Sync.main v w) as [code log|o bucket absDir entries log0 p0] eqn:Hmain.
  { destruct acts as [|a acts]; [|done]. injection Hrun as <-.
    exists [], code, log. split; [done|]. split; [|done].
    pose proof (SyncExit.main_fatal v w) as H. rewrite Hmain in H. tauto. }
  apply SyncFacts.main_uploading in Hmain as (_ & _ & _ & _ & Hs).
  pose proof (PoolFacts.start_inv _ _ _ _ _ Hs) as Hinv0.
  apply SyncFacts.run_cases in Hrun
    as [(sched & p & -> & Hex & ->)|(sched & p & -> & Hex & Hst)];
    pose proof (PoolFacts.exec_inv _ _ _ _ _ _ Hinv0 Hex) as Hinv.
  - destruct (Settles.settles_within (Sync.upload v w o bucket absDir) entries v
                _ p Hinv (Nat.le_refl _))
      as (sched' & p' & Hex' & [out Hset] & _).
    destruct (PoolMore.exec_grows _ _ v sched' p p' Hinv Hex')
      as (_ & _ & [evs Htr] & _).
    assert (Hgo : Sync.run v w (Sync.Resume <$> sched')
                    (Sync.Uploading o bucket absDir entries log0 p)
                  = Some (Sync.Uploading o bucket absDir entries log0 p')).
    { clear -Hex'. revert p Hex'.
      induction sched' as [|k sched' IH]; intros p Hex'; cbn in *.
      - by injection Hex' as <-.
      - destruct (Pool.fire _ entries v k p) as [p1|]; [|done]. by apply IH. }
    assert (Happ : forall a1 a2 st0 st1,
              Sync.run v w a1 st0 = Some st1 ->
              Sync.run v w (a1 ++ a2) st0 = Sync.run v w a2 st1).
    { induction a1 as [|a a1 IH]; intros a2 st0 st1 H; cbn in *.
      - by injection H as <-.
      - destruct (Sync.step v w a st0); [|done]. by apply IH. }
    destruct out as [res|e].
    + exists ((Sync.Resume <$> sched') ++ [Sync.Finish]), 0,
        (log0 ++ Pool.trace p' ++ [Sync.LogDone]).
      rewrite (Happ _ _ _ _ Hgo). cbn. rewrite Hset.
      split; [done|]. split; [by left|].
      rewrite Htr. exists (evs ++ [Sync.LogDone]). by rewrite <- !app_assoc.
    + exists ((Sync.Resume <$> sched') ++ [Sync.Finish]), 1,
        (log0 ++ Pool.trace p' ++ [Sync.ErrCaught e]).
      rewrite (Happ _ _ _ _ Hgo). cbn. rewrite Hset.
      split; [done|]. split; [by right|].
      rewrite Htr. exists (evs ++ [Sync.ErrCaught e]). by rewrite <- !app_assoc.
  - cbn in Hst.
    destruct (Pool.settled p) as [[res|e]|]; [| |done]; injection Hst as <-.
    + exists [], 0, (log0 ++ Pool.trace p ++ [Sync.LogDone]).
      split; [done|]. split; [by left|done].
    + exists [], 1, (log0 ++ Pool.trace p ++ [Sync.ErrCaught e]).
      split; [done|]. split; [by right|done].
Qed.

(** Scenario D after the failing runner was resumed. *)
Lemma run_can_end_witness :
  exists st acts' code log,
    Sync.run V1 Examples.scenario_D [Sync.Resume 1]
      (Sync.main V1 Examples.scenario_D) = Some st
    /\ Sync.run V1 Examples.scenario_D acts' st = Some (Sync.Exited code log).
Proof.
  destruct (Sync.run V1 Examples.scenario_D [Sync.Resume 1]
              (Sync.main V1 Examples.scenario_D)) as [st|] eqn:Hrun;
    [|vm_compute in Hrun; discriminate].
  destruct (run_can_end V1 Examples.scenario_D [Sync.Resume 1] st Hrun)
    as (acts' & code & log & Hend & _).
  exists st, acts', code, log. split; [reflexivity | exact Hend].
Defined.

Module Launch.
Import Pool.

Section Launch.
Context {A R E Ev : Type}.
Variable worker : A -> list Ev * task R E Ev.
Variable items : list A.

Local Abbreviation iterate := (Pool.iterate worker items).
Local Abbreviation fire := (Pool.fire worker items).
Local Abbreviation exec := (Pool.exec worker items).
Local Abbreviation start := (Pool.start worker items).
Local Abbreviation spawn := (Pool.spawn worker items).

Implicit Types (s : pool R E Ev).

(** The state after the first [n] runners were created: runner [k] has
    called the worker on item [k] and awaits it. *)
Lemma spawned_shape v n :
  n <= length items ->
  let s := Nat.iter n (spawn v) (pool0 items v) in
  nextIndex s = n
  /\ runners s = imap (fun k x => Awaiting k (snd (worker x))) (take n items)
  /\ claims s = (fun k => (k, k)) <$> seq 0 n
  /\ trace s = flat_map (fun x => fst (worker x)) (take n items).
Proof.
  induction n as [|n IH]; intros Hn; cbv zeta.
  - by destruct v.
  - rewrite Nat.iter_succ.
    destruct (IH ltac:(lia)) as (Hi & Hr & Hc & Ht).
    set (s := Nat.iter n (spawn v) (pool0 items v)) in *.
    unfold Pool.spawn.
    assert (Hlen : length (runners s) = n).
    { rewrite Hr, length_imap, length_take. lia. }
    destruct (PoolFacts.iterate_cases worker items v (length (runners s)) s)
      as [(x & Hx & ->)|(Hle & _)]; [|lia].
    rewrite Hi in Hx. unfold call, with_runners, bump.
    cbn [fst snd nextIndex runners claims trace results rejection].
    rewrite (take_S_r _ _ _ Hx), imap_app, seq_S, fmap_app, flat_map_app.
    rewrite Hlen, Hi, Hr, Hc, Ht, length_take, Nat.min_l by lia.
    cbn. rewrite Nat.add_0_r, app_nil_r. done.
Qed.

(** Every call of the worker is made by one of the runners. *)
Local Abbreviation owned s :=
  (forall k i, (k, i) ∈ claims s -> k < length (runners s)).

Lemma iterate_claims v k s k' i :
  (k', i) ∈ claims (iterate v k s).1 -> (k', i) ∈ claims s \/ k' = k.
Proof.
  destruct (PoolFacts.iterate_cases worker items v k s)
    as [(x & _ & ->)|(_ & ->)].
  - cbn. intros [H|H]%elem_of_app; [by left|].
    apply list_elem_of_singleton in H. right. congruence.
  - destruct v; cbn; auto.
Qed.

Lemma spawn_owned v s : owned s -> owned (spawn v s).
Proof.
  intros Ho k i. unfold Pool.spawn.
  pose proof (iterate_claims v (length (runners s)) s k i) as Hc.
  pose proof (PoolFacts.iterate_runners worker items v (length (runners s)) s) as Hr.
  destruct (iterate v (length (runners s)) s) as [s' r']. cbn in Hc, Hr. cbn.
  rewrite length_app, Hr. cbn. intros [H| ->]%Hc; [|lia].
  specialize (Ho k i H). lia.
Qed.

Lemma fire_owned v k s s' : owned s -> fire v k s = Some s' -> owned s'.
Proof.
  intros Ho Hf. pose proof (PoolFacts.fire_length _ _ _ _ _ _ Hf) as Hlen.
  intros k' i. rewrite Hlen. unfold Pool.fire in Hf.
  destruct (runners s !! k) as [[j [[r|e]|evs t]| |]|] eqn:Hk; try done.
  - set (s1 := Mk _ _ _ _ _ _) in *.
    pose proof (iterate_claims v k s1 k' i) as Hc.
    destruct (iterate v k s1) as [s2 r']. injection Hf as <-. cbn in Hc. cbn.
    intros [H| ->]%Hc; [by apply (Ho k' i)|]. by eapply lookup_lt_Some.
  - injection Hf as <-. cbn. apply Ho.
  - injection Hf as <-. cbn. apply Ho.
Qed.

Lemma exec_owned v sched : forall s s',
  owned s -> exec v sched s = Some s' -> owned s'.
Proof.
  induction sched as [|k sched IH]; intros s s' Ho Hex; cbn in Hex.
  - by injection Hex as <-.
  - destruct (fire v k s) as [s1|] eqn:Hf; [|done].
    eapply IH; [|exact Hex]. by eapply fire_owned.
Qed.

Lemma start_owned v limit s0 : start v limit = Some s0 -> owned s0.
Proof.
  unfold Pool.start. destruct (runner_count items v limit) as [n|]; [|done].
  intros [= <-]. induction n as [|n IH].
  - intros k i H. cbn in H. by apply elem_of_nil in H.
  - rewrite Nat.iter_succ. by apply spawn_owned.
Qed.

End Launch.

End Launch.

Section Clamping.
Context {A R E Ev : Type}.
Variable worker : A -> list Ev * Pool.task R E Ev.
Variable items : list A.

(** C5, amended: for a requested concurrency [C >= 0] the uploader
    launches exactly [min(C, L)] worker tasks: it creates that many
    runners, never more than there are items, and runner [k] starts at
    once with the call of the worker on item [k], which it awaits. No
    runner is created later and every call of the worker is made by one of
    these runners, so there are never more than [min(C, L)] calls in
    flight. With no item it creates no runner and has returned at once.
    For a negative concurrency (also the negative infinity) and for NaN no
    worker task is launched: the first variant creates no runner and calls
    nothing, and in the second [new Array] throws. The negative zero
    counts as 0 and the positive infinity as [L]. *)
Theorem runners_clamped (v : variant) (C : Z) :
  ((0 <= C)%Z ->
   let n := Z.to_nat (Z.min C (Z.of_nat (length items))) in
   exists s0, Pool.start worker items v (Js.Int C) = Some s0
     /\ Z.of_nat n = Z.min C (Z.of_nat (length items))
     /\ n <= length items
     /\ Pool.runners s0
        = imap (fun k x => Pool.Awaiting k (snd (worker x))) (take n items)
     /\ Pool.claims s0 = (fun k => (k, k)) <$> seq 0 n
     /\ Pool.trace s0 = flat_map (fun x => fst (worker x)) (take n items)
     /\ (forall sched s, Pool.exec worker items v sched s0 = Some s ->
           length (Pool.runners s) = n
           /\ Tally.in_flight (Pool.runners s) <= n
           /\ forall k i, (k, i) ∈ Pool.claims s -> k < n)
     /\ (items = [] ->
           Pool.runners s0 = [] /\ Pool.settled s0 = Some (Pool.Fulfilled [])))
  /\ (forall limit,
        limit = Js.NaN \/ limit = Js.Inf true \/ (limit = Js.Int C /\ (C < 0)%Z) ->
        match v with
        | V1 => exists s0, Pool.start worker items v limit = Some s0
                  /\ Pool.runners s0 = [] /\ Pool.claims s0 = []
                  /\ Pool.trace s0 = []
        | V2 => Pool.start worker items v limit = None
        end)
  /\ Pool.start worker items v Js.NegZero = Pool.start worker items v (Js.Int 0)
  /\ Pool.start worker items v (Js.Inf false)
     = Pool.start worker items v (Js.Int (Z.of_nat (length items))).
Proof.
  split; [|split; [|split]]; cycle 2.
  { unfold Pool.start, Pool.runner_count. destruct v; cbn.
    - by replace (Z.to_nat (0 `min` Z.of_nat (length items))) with 0 by lia.
    - destruct (Z.leb_spec 0 (0 `min` Z.of_nat (length items))); [|lia].
      by replace (Z.to_nat (0 `min` Z.of_nat (length items))) with 0 by lia. }
  { unfold Pool.start, Pool.runner_count. destruct v; cbn.
    - by rewrite Z.min_id.
    - rewrite Z.min_id.
      destruct (Z.leb_spec 0 (Z.of_nat (length items))); [done|lia]. }
  - intros HC n.
    assert (Hn : n <= length items) by (subst n; lia).
    assert (Hs : Pool.start worker items v (Js.Int C)
                 = Some (Nat.iter n (Pool.spawn worker items v) (Pool.pool0 items v))).
    { unfold Pool.start, Pool.runner_count. destruct v; cbn; [done|].
      destruct (Z.leb_spec 0 (C `min` Z.of_nat (length items))); [done|lia]. }
    destruct (Launch.spawned_shape worker items v n Hn) as (Hi & Hr & Hc & Ht).
    set (s0 := Nat.iter n _ _) in *.
    assert (Hlen : length (Pool.runners s0) = n).
    { rewrite Hr, length_imap, length_take. lia. }
    exists s0. split; [done|]. split; [subst n; lia|]. split; [done|].
    split; [done|]. split; [done|]. split; [done|]. split.
    + intros sched s Hex.
      pose proof (PoolFacts.exec_length _ _ _ _ _ _ Hex) as Hl. rewrite Hlen in Hl.
      split; [done|]. split.
      * rewrite <- Hl. unfold Tally.in_flight, Tally.count.
        apply List.filter_length_le.
      * rewrite <- Hl.
        apply (Launch.exec_owned worker items v sched s0 s); [|done].
        by eapply Launch.start_owned.
    + intros Hnil.
      assert (n = 0) as Hn0 by (rewrite Hnil in Hn; cbn in Hn; lia).
      assert (Hrs : Pool.runners s0 = []).
      { destruct (Pool.runners s0); [done|]. cbn in Hlen. lia. }
      split; [done|]. subst s0. rewrite Hn0. cbn. rewrite Hnil.
      by destruct v.
  - intros limit Hl. unfold Pool.start, Pool.runner_count.
    destruct Hl as [->|[->|[-> HC]]]; destruct v; cbn.
    + eexists. split; [done|]. done.
    + done.
    + eexists. split; [done|]. done.
    + done.
    + replace (Z.to_nat (C `min` Z.of_nat (length items))) with 0 by lia.
      eexists. split; [done|]. done.
    + destruct (Z.leb_spec 0 (C `min` Z.of_nat (length items))); [lia|done].
Qed.

End Clamping.

(** C5, as stated, fails for a negative concurrency: with [C = -1] and
    three files [min(C, L)] is -1; the first variant launches no worker
    task and returns its array of holes, and in the second [new Array(-1)]
    throws, so that the uploader neither launches a worker nor
    completes. *)
Lemma negative_concurrency_launches_none :
  Z.min (-1) (Z.of_nat (length [1; 2; 3])) = (-1)%Z
  /\ Pool.runners <$> Pool.start Examples.times_ten [1; 2; 3] V1 (Js.Int (-1))
     = Some []
  /\ Pool.settled <$> Pool.start Examples.times_ten [1; 2; 3] V1 (Js.Int (-1))
     = Some (Some (Pool.Fulfilled [None; None; None]))
  /\ Pool.start Examples.times_ten [1; 2; 3] V2 (Js.Int (-1)) = None.
Proof. repeat split. Qed.

(** A concurrency of 100 against three items: three runners, runner [k]
    awaiting the call on item [k]. *)
Lemma runners_clamped_witness :
  exists s0,
    Pool.start Examples.times_ten [1; 2; 3] V2 (Js.Int 100) = Some s0
    /\ Pool.runners s0
       = [Pool.Awaiting 0 (snd (Examples.times_ten 1));
          Pool.Awaiting 1 (snd (Examples.times_ten 2));
          Pool.Awaiting 2 (snd (Examples.times_ten 3))]
    /\ Pool.claims s0 = [(0, 0); (1, 1); (2, 2)].
Proof.
  assert (H : (0 <= 100)%Z) by lia.
  destruct (proj1 (runners_clamped Examples.times_ten [1; 2; 3] V2 100) H)
    as (s0 & Hs & _ & _ & Hr & Hc & _).
  exists s0. split; [exact Hs|]. split; [exact Hr | exact Hc].
Defined.

Module MimeFacts.
Import Mime.

Local Abbreviation chars := list_ascii_of_string.
Local Abbreviation clean := (fun c : ascii => is_dot c = false /\ Str.is_slash c = false).
Local Abbreviation unslashed := (fun c : ascii => Str.is_slash c = false).

Lemma chars_app a b : chars (a +:+ b) = chars a ++ chars b.
Proof.
  induction a as [|c r IH]; [done|].
  change (String c r +:+ b) with (String c (r +:+ b)). cbn. by rewrite IH.
Qed.

Lemma plain_clean s : plain s = true -> Forall clean (rev (chars s)).
Proof.
  intros H. apply Forall_rev. induction s as [|c r IH]; [constructor|].
  cbn in H. apply andb_prop in H as [[H1 H2]%andb_prop H3].
  constructor; [|by apply IH]. split; by apply negb_true_iff.
Qed.

Lemma no_slash_unslashed s : no_slash s = true -> Forall unslashed (rev (chars s)).
Proof.
  intros H. apply Forall_rev. induction s as [|c r IH]; [constructor|].
  cbn in H. apply andb_prop in H as [H1 H2].
  constructor; [by apply negb_true_iff|by apply IH].
Qed.

Lemma clean_unslashed l : Forall clean l -> Forall unslashed l.
Proof. intros H. eapply Forall_impl; [exact H|]. by intros c [_ ?]. Qed.

Lemma rev_chars_empty s : rev (chars s) = [] -> s = "".
Proof.
  destruct s as [|c r]; [done|]. cbn. intros H.
  apply (f_equal (@length ascii)) in H. rewrite length_app in H. cbn in H. lia.
Qed.

Lemma drop_slashes_head c l :
  Str.is_slash c = false -> drop_slashes (c :: l) = c :: l.
Proof. cbn. by intros ->. Qed.

Lemma segment_app a b : Forall unslashed a -> segment (a ++ b) = a ++ segment b.
Proof.
  induction 1 as [|c a Hc _ IH]; [done|]. cbn. by rewrite Hc, IH.
Qed.

Lemma segment_stops rest : stops rest -> segment rest = [].
Proof. destruct rest as [|c r]; [done|]. cbn. by intros ->. Qed.

Lemma cut_dot_app a b :
  Forall clean a -> cut_dot (a ++ "."%char :: b) = Some (a, b).
Proof.
  induction 1 as [|c a [Hc _] _ IH]; [done|]. cbn. by rewrite Hc, IH.
Qed.

Lemma cut_dot_None a : Forall clean a -> cut_dot a = None.
Proof.
  induction 1 as [|c a [Hc _] _ IH]; [done|]. cbn. by rewrite Hc, IH.
Qed.

(** The last segment has a dot with something before it. *)
Lemma extname_dot s e pre rest :
  rev (chars s) = e ++ "."%char :: pre ++ rest ->
  Forall clean e -> Forall unslashed pre -> pre <> [] -> stops rest ->
  extname s
  = if is_dotdot e pre then EmptyString
    else string_of_list_ascii ("."%char :: rev e).
Proof.
  intros Hs He Hpre Hne Hrest. unfold extname. rewrite Hs.
  assert (Hd : drop_slashes (e ++ "."%char :: pre ++ rest)
               = e ++ "."%char :: pre ++ rest).
  { destruct He as [|c e [_ Hc] _]; by apply drop_slashes_head. }
  rewrite Hd, segment_app by by apply clean_unslashed.
  change (segment ("."%char :: pre ++ rest)) with ("."%char :: segment (pre ++ rest)).
  rewrite segment_app, segment_stops, app_nil_r, cut_dot_app by done.
  by destruct pre.
Qed.

(** The last segment has no dot. *)
Lemma extname_no_dot s e rest :
  rev (chars s) = e ++ rest -> Forall clean e -> e <> [] -> stops rest ->
  extname s = EmptyString.
Proof.
  intros Hs He Hne Hrest. unfold extname. rewrite Hs.
  assert (Hd : drop_slashes (e ++ rest) = e ++ rest).
  { destruct He as [|c e [_ Hc] _]; [done|by apply drop_slashes_head]. }
  rewrite Hd, segment_app, segment_stops, app_nil_r by
    (done || by apply clean_unslashed).
  by rewrite cut_dot_None.
Qed.

(** The only dot of the last segment is its first character. *)
Lemma extname_hidden s e rest :
  rev (chars s) = e ++ "."%char :: rest -> Forall clean e -> stops rest ->
  extname s = EmptyString.
Proof.
  intros Hs He Hrest. unfold extname. rewrite Hs.
  assert (Hd : drop_slashes (e ++ "."%char :: rest) = e ++ "."%char :: rest).
  { destruct He as [|c e [_ Hc] _]; by apply drop_slashes_head. }
  rewrite Hd, segment_app by by apply clean_unslashed.
  change (segment ("."%char :: rest)) with ("."%char :: segment rest).
  by rewrite segment_stops, cut_dot_app.
Qed.

Lemma to_lower_dot s : to_lower (String "." s) = String "." (to_lower s).
Proof. by destruct s as [|b [|c r]]. Qed.

Lemma dotted e : string_of_list_ascii ("."%char :: rev (rev (chars e))) = String "." e.
Proof.
  rewrite rev_involutive.
  change (string_of_list_ascii ("."%char :: chars e))
    with (String "." (string_of_list_ascii (chars e))).
  by rewrite string_of_list_ascii_of_string.
Qed.

Lemma extension_top stem ext :
  no_slash stem = true -> plain ext = true ->
  extension (stem +:+ "." +:+ ext) = to_lower ext.
Proof.
  intros Hstem Hext. unfold extension.
  rewrite (extname_dot _ (rev (chars ext)) (rev (chars stem) ++ ["."%char; "x"%char]) []).
  - assert (Hdd : is_dotdot (rev (chars ext)) (rev (chars stem) ++ ["."%char; "x"%char])
                  = false).
    { destruct (rev (chars ext)); [|done].
      by destruct (rev (chars stem)) as [|c [|c' r]]. }
    by rewrite Hdd, dotted, to_lower_dot.
  - rewrite !chars_app. cbn [chars]. rewrite !rev_app_distr. cbn [rev app].
    by rewrite <- ?app_assoc.
  - by apply plain_clean.
  - apply Forall_app. split; [by apply no_slash_unslashed|by repeat constructor].
  - by destruct (rev (chars stem)).
  - done.
Qed.

Lemma extension_whole name :
  plain name = true -> extension name = to_lower name.
Proof.
  intros Hname. unfold extension.
  rewrite (extname_dot _ (rev (chars name)) ["x"%char] []).
  - assert (Hdd : is_dotdot (rev (chars name)) ["x"%char] = false)
      by (by destruct (rev (chars name))).
    by rewrite Hdd, dotted, to_lower_dot.
  - rewrite chars_app. cbn [chars]. rewrite rev_app_distr. cbn [rev app].
    by rewrite <- ?app_assoc.
  - by apply plain_clean.
  - by repeat constructor.
  - done.
  - done.
Qed.

Lemma extension_inside dir stem ext :
  no_slash stem = true -> stem <> "" -> plain ext = true ->
  extension (dir +:+ "/" +:+ stem +:+ "." +:+ ext) = to_lower ext.
Proof.
  intros Hstem Hne Hext. unfold extension.
  rewrite (extname_dot _ (rev (chars ext)) (rev (chars stem))
             ("/"%char :: rev (chars dir) ++ ["."%char; "x"%char])).
  - destruct (is_dotdot (rev (chars ext)) (rev (chars stem))) eqn:Hdd.
    + destruct (rev (chars ext)) eqn:He; [|done].
      apply rev_chars_empty in He as ->. done.
    + by rewrite dotted, to_lower_dot.
  - rewrite !chars_app. cbn [chars]. rewrite !rev_app_distr. cbn [rev app].
    by rewrite <- ?app_assoc.
  - by apply plain_clean.
  - by apply no_slash_unslashed.
  - intros H. by apply rev_chars_empty in H.
  - done.
Qed.

Lemma extension_bare dir name :
  plain name = true -> name <> "" ->
  extension (dir +:+ "/" +:+ name) = "".
Proof.
  intros Hname Hne. unfold extension.
  rewrite (extname_no_dot _ (rev (chars name))
             ("/"%char :: rev (chars dir) ++ ["."%char; "x"%char])); [done|..].
  - rewrite !chars_app. cbn [chars]. rewrite !rev_app_distr. cbn [rev app].
    by rewrite <- ?app_assoc.
  - by apply plain_clean.
  - intros H. by apply rev_chars_empty in H.
  - done.
Qed.

Lemma extension_hidden dir name :
  plain name = true -> extension (dir +:+ "/." +:+ name) = "".
Proof.
  intros Hname. unfold extension.
  rewrite (extname_hidden _ (rev (chars name))
             ("/"%char :: rev (chars dir) ++ ["."%char; "x"%char])); [done|..].
  - rewrite !chars_app. cbn [chars]. rewrite !rev_app_distr. cbn [rev app].
    by rewrite <- ?app_assoc.
  - by apply plain_clean.
  - done.
Qed.

End MimeFacts.

(** C9, amended: for every filename the resolver returns a type, never
    the empty string. The type is the one that the table has for the
    extension that [mime.lookup] takes from the path, and
    ["application/octet-stream"] when the table has no entry for it or when
    it is empty. That extension is the lower-cased part after the last dot
    of the last path segment; a path without slash and without dot is
    itself taken as the extension; inside a directory a name without dot,
    or with its only dot in front, has none. With the entries of the
    shipped table, [photo.jpg] resolves to [image/jpeg] and [file.xyz] to
    [chemical/x-xyz]; where the table has no entry for [xyz], [file.xyz]
    resolves to ["application/octet-stream"]. *)
Theorem content_type_resolved (types : string -> option string) (rel : string) :
  ContentType.resolve (Mime.lookup types) rel <> ""
  /\ (forall t, Mime.extension rel <> "" ->
        types (Mime.extension rel) = Some t -> t <> "" ->
        ContentType.resolve (Mime.lookup types) rel = t)
  /\ (Mime.extension rel = "" \/ types (Mime.extension rel) = None ->
      ContentType.resolve (Mime.lookup types) rel = "application/octet-stream")
  /\ (forall stem ext,
        Mime.no_slash stem = true -> Mime.plain ext = true ->
        Mime.extension (stem +:+ "." +:+ ext) = Mime.to_lower ext)
  /\ (forall name,
        Mime.plain name = true -> Mime.extension name = Mime.to_lower name)
  /\ (forall dir stem ext,
        Mime.no_slash stem = true -> stem <> "" -> Mime.plain ext = true ->
        Mime.extension (dir +:+ "/" +:+ stem +:+ "." +:+ ext) = Mime.to_lower ext)
  /\ (forall dir name,
        Mime.plain name = true ->
        (name <> "" -> Mime.extension (dir +:+ "/" +:+ name) = "")
        /\ Mime.extension (dir +:+ "/." +:+ name) = "")
  /\ (types "jpg" = Some "image/jpeg" ->
      ContentType.resolve (Mime.lookup types) "photo.jpg" = "image/jpeg")
  /\ (types "xyz" = Some "chemical/x-xyz" ->
      ContentType.resolve (Mime.lookup types) "file.xyz" = "chemical/x-xyz")
  /\ (types "xyz" = None ->
      ContentType.resolve (Mime.lookup types) "file.xyz"
      = "application/octet-stream").
Proof.
  unfold ContentType.resolve, Mime.lookup.
  split; [|split; [|split; [|split; [|split; [|split; [|split; [|split; [|split]]]]]]]].
  - destruct (Mime.extension rel) as [|c r]; [done|].
    by destruct (types (String c r)) as [[|? ?]|].
  - intros t Hne Ht Hnt. destruct (Mime.extension rel) as [|c r]; [done|].
    rewrite Ht. by destruct t.
  - intros [H|H].
    + by rewrite H.
    + destruct (Mime.extension rel) as [|c r]; [done|]. by rewrite H.
  - apply MimeFacts.extension_top.
  - apply MimeFacts.extension_whole.
  - apply MimeFacts.extension_inside.
  - intros dir name Hn. split.
    + by apply MimeFacts.extension_bare.
    + by apply MimeFacts.extension_hidden.
  - change (Mime.extension "photo.jpg") with "jpg". cbv beta iota. by intros ->.
  - change (Mime.extension "file.xyz") with "xyz". cbv beta iota. by intros ->.
  - change (Mime.extension "file.xyz") with "xyz". cbv beta iota. by intros ->.
Qed.

(** C9, as stated, fails: the table of mime-types has an entry for [xyz],
    so [file.xyz] resolves to [chemical/x-xyz] and not to the fallback; and
    a file named [json], which has no extension, resolves to
    [application/json], because [mime.lookup] takes a path without dot and
    without slash as the extension itself. *)
Lemma file_xyz_has_a_type :
  ContentType.resolve (Mime.lookup Mime.excerpt) "file.xyz" = "chemical/x-xyz"
  /\ ContentType.resolve (Mime.lookup Mime.excerpt) "file.xyz"
     <> "application/octet-stream"
  /\ Mime.extname "json" = ""
  /\ ContentType.resolve (Mime.lookup Mime.excerpt) "json" = "application/json".
Proof. repeat split. discriminate. Qed.

(** [photo.jpg] and [Scan.JPEG] in a directory, over the entries of the
    shipped table. *)
Lemma content_type_resolved_witness :
  ContentType.resolve (Mime.lookup Mime.excerpt) "photo.jpg" = "image/jpeg"
  /\ Mime.extension ("2024/" +:+ "Scan" +:+ "." +:+ "JPEG") = "jpeg".
Proof.
  split.
  - apply (proj1 (proj2 (proj2 (proj2 (proj2 (proj2 (proj2 (proj2
             (content_type_resolved Mime.excerpt "photo.jpg"))))))))).
    reflexivity.
  - apply (proj1 (proj2 (proj2 (proj2 (proj2 (proj2
             (content_type_resolved Mime.excerpt "photo.jpg"))))))
             "2024" "Scan" "JPEG"); [reflexivity|discriminate|reflexivity].
Defined.
